(** * ClogniChain Lite: the audit Logger, its helpers and its command line

    A shallow embedding of [clognichain-lite-flake8.py] together with the
    parts of the Python standard library and of SQLite that its behaviour
    rests on:

    - [hashlib.sha256(...).hexdigest()]      (module [Sha256]),
    - [json.dumps] / [json.loads]            (module [Json]),
    - the [audit_index] table, parameter binding, [LIKE],
      [ORDER BY ts DESC] and [LIMIT]         (module [Sqlite]),
    - [Logger.append], [Logger.search], [Logger.tail] and the
      [SELECT COUNT( * )] of the [stats] command (module [Logger]),
    - [RingBuffer.push] and [RingBuffer.last] (module [Ring]),
    - [Parser.parse] and [re.findall] for a character class
                                             (module [Parser]),
    - [main], from the creation of the Logger on, with
      [json.dumps(..., indent=2)]            (module [Cli]).

    Python [str] values are lists of code points; [bytes] are lists of
    integers below 256.  Exceptions are values of [exn]; a call that may
    raise returns a [result].

    Outside the model: floating point payload members, the thread lock
    (calls are sequential), the gzip container format, the parsing of the
    command line by [argparse], the encoding of standard output, and
    resource limits of the interpreter and of SQLite (recursion depth,
    integer digit limit, maximum pattern and row sizes). *)

From Stdlib Require Import String Ascii.
From Stdlib Require Import ZArith List Bool Lia Sorting.Sorted
  Sorting.Permutation.
Import ListNotations.
Local Open Scope Z_scope.

(* ------------------------------------------------------------------ *)
(** * Python values: strings, exceptions, results *)

(** A Python [str]: a sequence of Unicode code points. *)
Definition pystr := list Z.

(** Python [bytes]. *)
Definition pybytes := list Z.

Definition ord (a : ascii) : Z := Z.of_N (N_of_ascii a).

(** A string literal of the source, as a [pystr]. *)
Definition lit (s : string) : pystr := map ord (list_ascii_of_string s).

(** The exceptions that can leave the Logger. [OSError] and
    [sqlite3_Error] carry an opaque code that identifies the exception
    object raised by the file system or by the database.
    [FloatNotModelled] is no exception of Python: the decoder of the
    model stops with it where [json.loads] goes on with a float (a
    number with a fraction or an exponent, NaN, Infinity), which the
    model does not follow.  Statements about texts that are decoded
    assume that it is not raised. *)
Inductive exn : Type :=
| UnicodeEncodeError
| OverflowError
| JSONDecodeError
| RecursionError
| FloatNotModelled
| OSError (errno : Z)
| sqlite3_Error (code : Z).

Inductive result (A : Type) : Type :=
| Ok (a : A)
| Raise (e : exn).
Arguments Ok {A} a.
Arguments Raise {A} e.

Definition bind {A B : Type} (r : result A) (k : A -> result B) : result B :=
  match r with
  | Ok a => k a
  | Raise e => Raise e
  end.

Notation "'let*' x ':=' r 'in' k" := (bind r (fun x => k))
  (at level 10, x pattern, r at level 100, k at level 200).

(** [for x in xs: ...] collecting results, stopping at the first exception. *)
Fixpoint mapM {A B : Type} (f : A -> result B) (l : list A) : result (list B) :=
  match l with
  | [] => Ok []
  | x :: l' =>
      let* y := f x in
      let* ys := mapM f l' in
      Ok (y :: ys)
  end.

(** [str.encode()] with the default UTF-8 codec and strict error handling:
    surrogate code points cannot be encoded. *)
Definition encode_char (c : Z) : result pybytes :=
  if c <? 0 then Raise UnicodeEncodeError
  else if c <? 128 then Ok [c]
  else if c <? 2048 then
    Ok [Z.lor 192 (Z.shiftr c 6); Z.lor 128 (Z.land c 63)]
  else if c <? 65536 then
    if (55296 <=? c) && (c <=? 57343) then Raise UnicodeEncodeError
    else Ok [Z.lor 224 (Z.shiftr c 12);
             Z.lor 128 (Z.land (Z.shiftr c 6) 63);
             Z.lor 128 (Z.land c 63)]
  else if c <? 1114112 then
    Ok [Z.lor 240 (Z.shiftr c 18);
        Z.lor 128 (Z.land (Z.shiftr c 12) 63);
        Z.lor 128 (Z.land (Z.shiftr c 6) 63);
        Z.lor 128 (Z.land c 63)]
  else Raise UnicodeEncodeError.

Fixpoint encode (s : pystr) : result pybytes :=
  match s with
  | [] => Ok []
  | c :: s' =>
      let* b := encode_char c in
      let* bs := encode s' in
      Ok (b ++ bs)
  end.

(** Text made of ASCII characters only. *)
Definition ascii_only (s : pystr) : Prop := Forall (fun c => 0 <= c < 128) s.

(* ------------------------------------------------------------------ *)
(** * hashlib.sha256 *)

Module Sha256.

Definition w32 (x : Z) : Z := x mod 4294967296.
Definition add32 (x y : Z) : Z := w32 (x + y).
Definition rotr (n x : Z) : Z :=
  Z.lor (Z.shiftr x n) (w32 (Z.shiftl x (32 - n))).
Definition not32 (x : Z) : Z := 4294967295 - x.

Definition Ch (x y z : Z) : Z :=
  Z.lxor (Z.land x y) (Z.land (not32 x) z).
Definition Maj (x y z : Z) : Z :=
  Z.lxor (Z.lxor (Z.land x y) (Z.land x z)) (Z.land y z).
Definition Sigma0 (x : Z) : Z :=
  Z.lxor (Z.lxor (rotr 2 x) (rotr 13 x)) (rotr 22 x).
Definition Sigma1 (x : Z) : Z :=
  Z.lxor (Z.lxor (rotr 6 x) (rotr 11 x)) (rotr 25 x).
Definition sigma0 (x : Z) : Z :=
  Z.lxor (Z.lxor (rotr 7 x) (rotr 18 x)) (Z.shiftr x 3).
Definition sigma1 (x : Z) : Z :=
  Z.lxor (Z.lxor (rotr 17 x) (rotr 19 x)) (Z.shiftr x 10).

(** The round constants and the initial hash value are derived as the
    standard defines them: the first 32 bits of the fractional parts of
    the cube roots of the first 64 primes, and of the square roots of the
    first 8. *)
Definition is_prime (n : Z) : bool :=
  forallb (fun d => negb (n mod Z.of_nat d =? 0)) (seq 2 (Z.to_nat n - 2)).

Definition primes : list Z :=
  Eval vm_compute in filter is_prime (map Z.of_nat (seq 2 310)).

(** The integer cube root, one bit at a time from bit [k - 1] down. *)
Fixpoint cube_root_from (k : nat) (n r : Z) : Z :=
  match k with
  | O => r
  | S k' =>
      let r' := r + 2 ^ Z.of_nat k' in
      if r' * r' * r' <=? n then cube_root_from k' n r'
      else cube_root_from k' n r
  end.

Definition fractional_cube_root (p : Z) : Z :=
  cube_root_from 40 (p * 2 ^ 96) 0 mod 2 ^ 32.

Definition fractional_square_root (p : Z) : Z :=
  Z.sqrt (p * 2 ^ 64) mod 2 ^ 32.

Definition K : list Z := Eval vm_compute in map fractional_cube_root primes.

Definition H0 : list Z :=
  Eval vm_compute in map fractional_square_root (firstn 8 primes).

(** The message followed by 0x80, zero bytes up to 56 mod 64, and the bit
    length as a 64-bit big-endian integer. *)
Definition be_bytes (n : nat) (x : Z) : pybytes :=
  map (fun i => Z.shiftr x (8 * Z.of_nat i) mod 256) (rev (seq 0 n)).

Definition pad (msg : pybytes) : pybytes :=
  let len := Z.of_nat (length msg) in
  let zeros := Z.to_nat ((55 - len) mod 64) in
  msg ++ [128] ++ repeat 0 zeros ++ be_bytes 8 (8 * len).

Fixpoint words (fuel : nat) (bs : pybytes) : list Z :=
  match fuel, bs with
  | S f, a :: b :: c :: d :: bs' =>
      (Z.shiftl a 24 + Z.shiftl b 16 + Z.shiftl c 8 + d) :: words f bs'
  | _, _ => []
  end.

(** The message schedule, most recent word first: [extend n w] adds [n]
    words to the reversed sixteen words of a block. *)
Fixpoint extend (n : nat) (w : list Z) : list Z :=
  match n with
  | O => w
  | S n' =>
      let w2 := nth 1 w 0 in
      let w7 := nth 6 w 0 in
      let w15 := nth 14 w 0 in
      let w16 := nth 15 w 0 in
      extend n' (add32 (add32 (sigma1 w2) w7) (add32 (sigma0 w15) w16) :: w)
  end.

Definition schedule (block : list Z) : list Z :=
  rev (extend 48 (rev block)).

Record regs : Type := Regs {
  ra : Z; rb : Z; rc : Z; rd : Z; re : Z; rf : Z; rg : Z; rh : Z
}.

Definition round (s : regs) (kw : Z * Z) : regs :=
  let t1 := add32 (add32 (add32 (rh s) (Sigma1 (re s)))
                         (add32 (Ch (re s) (rf s) (rg s)) (fst kw)))
                  (snd kw) in
  let t2 := add32 (Sigma0 (ra s)) (Maj (ra s) (rb s) (rc s)) in
  Regs (add32 t1 t2) (ra s) (rb s) (rc s) (add32 (rd s) t1) (re s) (rf s) (rg s).

Definition compress (h : regs) (block : list Z) : regs :=
  let s := fold_left round (combine K (schedule block)) h in
  Regs (add32 (ra h) (ra s)) (add32 (rb h) (rb s)) (add32 (rc h) (rc s))
       (add32 (rd h) (rd s)) (add32 (re h) (re s)) (add32 (rf h) (rf s))
       (add32 (rg h) (rg s)) (add32 (rh h) (rh s)).

Fixpoint blocks (fuel : nat) (ws : list Z) (h : regs) : regs :=
  match fuel with
  | O => h
  | S f =>
      match ws with
      | [] => h
      | _ => blocks f (skipn 16 ws) (compress h (firstn 16 ws))
      end
  end.

Definition init : regs :=
  Regs (nth 0 H0 0) (nth 1 H0 0) (nth 2 H0 0) (nth 3 H0 0)
       (nth 4 H0 0) (nth 5 H0 0) (nth 6 H0 0) (nth 7 H0 0).

Definition digest (msg : pybytes) : pybytes :=
  let p := pad msg in
  let ws := words (length p) p in
  let h := blocks (length ws) ws init in
  flat_map (be_bytes 4)
    [ra h; rb h; rc h; rd h; re h; rf h; rg h; rh h].

Definition hex_digit (d : Z) : Z := if d <? 10 then 48 + d else 87 + d.

(** [hashlib.sha256(msg).hexdigest()]: 64 lowercase hexadecimal digits. *)
Definition hexdigest (msg : pybytes) : pystr :=
  flat_map (fun b => [hex_digit (b / 16); hex_digit (b mod 16)]) (digest msg).

End Sha256.

(* ------------------------------------------------------------------ *)
(** * json.dumps and json.loads *)

Module Json.

(** A JSON-serialisable Python value.  A [dict] keeps its insertion order;
    its keys are strings.  Floating point numbers are outside the model. *)
#[local] Unset Elimination Schemes.
Inductive value : Type :=
| JNull
| JBool (b : bool)
| JInt (n : Z)
| JStr (s : pystr)
| JList (items : list value)
| JDict (members : list (pystr * value)).
#[local] Set Elimination Schemes.

(** ** Encoder *)

Definition hex4 (n : Z) : pystr :=
  [ Sha256.hex_digit (n / 4096 mod 16); Sha256.hex_digit (n / 256 mod 16);
    Sha256.hex_digit (n / 16 mod 16); Sha256.hex_digit (n mod 16) ].

(** ['\\u{0:04x}'.format(n)] *)
Definition u_escape (n : Z) : pystr := 92 :: 117 :: hex4 n.

(** The replacement of one character by [encode_basestring_ascii]
    ([ensure_ascii = true]: everything outside [' '..'~'] is escaped) and
    by [encode_basestring] ([ensure_ascii = false]: only the quote, the
    backslash and the control characters are). *)
Definition escape_char (ensure_ascii : bool) (c : Z) : pystr :=
  if c =? 34 then [92; 34]
  else if c =? 92 then [92; 92]
  else if c =? 10 then [92; 110]
  else if c =? 13 then [92; 114]
  else if c =? 9 then [92; 116]
  else if c =? 8 then [92; 98]
  else if c =? 12 then [92; 102]
  else if c <? 32 then u_escape c
  else if ensure_ascii then
    if c <? 127 then [c]
    else if c <? 65536 then u_escape c
    else
      let n := c - 65536 in
      let s1 := Z.lor 55296 (Z.land (Z.shiftr n 10) 1023) in
      let s2 := Z.lor 56320 (Z.land n 1023) in
      u_escape s1 ++ u_escape s2
  else [c].

Definition encode_basestring (ensure_ascii : bool) (s : pystr) : pystr :=
  34 :: flat_map (escape_char ensure_ascii) s ++ [34].

(** [int.__repr__]: decimal digits, most significant first. *)
Fixpoint digits_from (fuel : nat) (n : Z) (acc : pystr) : pystr :=
  match fuel with
  | O => acc
  | S f =>
      let acc' := (48 + n mod 10) :: acc in
      if n <? 10 then acc' else digits_from f (n / 10) acc'
  end.

Definition digits (n : Z) : pystr :=
  digits_from (S (Z.to_nat (Z.log2 n))) n [].

Definition int_repr (n : Z) : pystr :=
  if n <? 0 then 45 :: digits (- n) else digits n.

(** [sep.join(parts)] *)
Fixpoint join (sep : pystr) (parts : list pystr) : pystr :=
  match parts with
  | [] => []
  | p :: ps =>
      match ps with
      | [] => p
      | _ => p ++ sep ++ join sep ps
      end
  end.

Definition item_separator : pystr := Eval cbv in lit ", ".
Definition key_separator : pystr := Eval cbv in lit ": ".
Definition null_text : pystr := Eval cbv in lit "null".
Definition true_text : pystr := Eval cbv in lit "true".
Definition false_text : pystr := Eval cbv in lit "false".

(** [json.dumps(v, ensure_ascii=...)] with the default separators, no
    indentation and no key sorting. *)
Fixpoint dumps (ensure_ascii : bool) (v : value) : pystr :=
  match v with
  | JNull => null_text
  | JBool b => if b then true_text else false_text
  | JInt n => int_repr n
  | JStr s => encode_basestring ensure_ascii s
  | JList items =>
      [91] ++ join item_separator (map (dumps ensure_ascii) items) ++ [93]
  | JDict members =>
      [123] ++
      join item_separator
        (map (fun kv : pystr * value =>
                let (k, x) := kv in
                encode_basestring ensure_ascii k ++ key_separator ++
                dumps ensure_ascii x) members)
      ++ [125]
  end.

(** ** Decoder *)

Definition is_ws (c : Z) : bool :=
  (c =? 32) || (c =? 9) || (c =? 10) || (c =? 13).

Fixpoint skip_ws (s : pystr) : pystr :=
  match s with
  | [] => []
  | c :: s' => if is_ws c then skip_ws s' else s
  end.

Definition unhex (c : Z) : option Z :=
  if (48 <=? c) && (c <=? 57) then Some (c - 48)
  else if (97 <=? c) && (c <=? 102) then Some (c - 87)
  else if (65 <=? c) && (c <=? 70) then Some (c - 55)
  else None.

Definition decode_hex4 (a b c d : Z) : option Z :=
  match unhex a, unhex b, unhex c, unhex d with
  | Some x, Some y, Some z, Some w => Some (4096 * x + 256 * y + 16 * z + w)
  | _, _, _, _ => None
  end.

(** The [BACKSLASH] table of the decoder. *)
Definition backslash (e : Z) : option Z :=
  if e =? 34 then Some 34
  else if e =? 92 then Some 92
  else if e =? 47 then Some 47
  else if e =? 98 then Some 8
  else if e =? 102 then Some 12
  else if e =? 110 then Some 10
  else if e =? 114 then Some 13
  else if e =? 116 then Some 9
  else None.

Definition is_high_surrogate (c : Z) : bool := (55296 <=? c) && (c <=? 56319).
Definition is_low_surrogate (c : Z) : bool := (56320 <=? c) && (c <=? 57343).
Definition join_surrogates (hi lo : Z) : Z :=
  65536 + Z.lor (Z.shiftl (Z.land hi 1023) 10) (Z.land lo 1023).

Definition cons_char (c : Z) (r : result (pystr * pystr)) :
  result (pystr * pystr) :=
  let* p := r in Ok (c :: fst p, snd p).

(** [scanstring(s, end)] in strict mode, from just after the opening
    quote: the decoded string and the text after the closing quote. *)
Fixpoint scanstring (s : pystr) : result (pystr * pystr) :=
  match s with
  | [] => Raise JSONDecodeError
  | c :: s1 =>
      if c =? 34 then Ok ([], s1)
      else if c =? 92 then
        match s1 with
        | [] => Raise JSONDecodeError
        | e :: s2 =>
            if e =? 117 then
              match s2 with
              | x1 :: x2 :: x3 :: x4 :: s6 =>
                  match decode_hex4 x1 x2 x3 x4 with
                  | None => Raise JSONDecodeError
                  | Some uni =>
                      if is_high_surrogate uni then
                        match s6 with
                        | b :: u :: y1 :: y2 :: y3 :: y4 :: s12 =>
                            if (b =? 92) && (u =? 117) then
                              match decode_hex4 y1 y2 y3 y4 with
                              | None => Raise JSONDecodeError
                              | Some uni2 =>
                                  if is_low_surrogate uni2
                                  then cons_char (join_surrogates uni uni2)
                                                 (scanstring s12)
                                  else cons_char uni (scanstring s6)
                              end
                            else cons_char uni (scanstring s6)
                        | _ => cons_char uni (scanstring s6)
                        end
                      else cons_char uni (scanstring s6)
                  end
              | _ => Raise JSONDecodeError
              end
            else
              match backslash e with
              | Some ch => cons_char ch (scanstring s2)
              | None => Raise JSONDecodeError
              end
        end
      else if c <? 32 then Raise JSONDecodeError
      else cons_char c (scanstring s1)
  end.

Definition is_digit (c : Z) : bool := (48 <=? c) && (c <=? 57).

Fixpoint scan_digits (acc : Z) (s : pystr) : Z * pystr :=
  match s with
  | [] => (acc, [])
  | c :: s' =>
      if is_digit c then scan_digits (10 * acc + (c - 48)) s' else (acc, s)
  end.

Definition head_is (p : Z -> bool) (s : pystr) : bool :=
  match s with
  | [] => false
  | c :: _ => p c
  end.

(** Does a fraction (a dot and a digit) or an exponent ([e] or [E], an
    optional sign, a digit) follow? *)
Definition float_follows (s : pystr) : bool :=
  match s with
  | [] => false
  | c :: s' =>
      if c =? 46 then head_is is_digit s'
      else if (c =? 101) || (c =? 69) then
        match s' with
        | [] => false
        | d :: s'' =>
            if (d =? 43) || (d =? 45) then head_is is_digit s''
            else is_digit d
        end
      else false
  end.

(** The integer part of [NUMBER_RE]: a single [0], or a non-zero digit
    followed by digits. *)
Definition match_integer (s : pystr) : option (Z * pystr) :=
  match s with
  | [] => None
  | c :: s' =>
      if c =? 48 then Some (0, s')
      else if is_digit c then Some (scan_digits 0 s)
      else None
  end.

Definition match_number (s : pystr) : result (value * pystr) :=
  let (neg, s1) :=
    match s with
    | c :: s' => if c =? 45 then (true, s') else (false, s)
    | [] => (false, s)
    end in
  match match_integer s1 with
  | None => Raise JSONDecodeError
  | Some (n, rest) =>
      if float_follows rest then Raise FloatNotModelled
      else Ok (JInt (if neg then - n else n), rest)
  end.

(** [s] without the prefix [p], when it starts with it. *)
Fixpoint strip_prefix (p s : pystr) : option pystr :=
  match p, s with
  | [], _ => Some s
  | a :: p', b :: s' => if a =? b then strip_prefix p' s' else None
  | _ :: _, [] => None
  end.

(** [dict(pairs)]: a later value for a key replaces the earlier one, at
    the position of the first. *)
Fixpoint dict_set (d : list (pystr * value)) (k : pystr) (v : value) :
  list (pystr * value) :=
  match d with
  | [] => [(k, v)]
  | (k', v') :: d' =>
      if list_eq_dec Z.eq_dec k k' then (k', v) :: d'
      else (k', v') :: dict_set d' k v
  end.

Definition dict_of_pairs (pairs : list (pystr * value)) :
  list (pystr * value) :=
  fold_left (fun d kv => dict_set d (fst kv) (snd kv)) pairs [].

Section Containers.
(** [scan_once] of the enclosing decoder. *)
Variable scan : pystr -> result (value * pystr).

(** The loop of [JSONArray], from the first value on. *)
Fixpoint array_items (n : nat) (s : pystr) : result (list value * pystr) :=
  match n with
  | O => Raise RecursionError
  | S n' =>
      let* r := scan s in
      match skip_ws (snd r) with
      | [] => Raise JSONDecodeError
      | c :: s1 =>
          if c =? 93 then Ok ([fst r], s1)
          else if c =? 44 then
            let* rs := array_items n' (skip_ws s1) in
            Ok (fst r :: fst rs, snd rs)
          else Raise JSONDecodeError
      end
  end.

Definition JSONArray (s : pystr) : result (value * pystr) :=
  match skip_ws s with
  | [] => Raise JSONDecodeError
  | c :: s1 =>
      if c =? 93 then Ok (JList [], s1)
      else
        let* r := array_items (length s) (skip_ws s) in
        Ok (JList (fst r), snd r)
  end.

(** The loop of [JSONObject], from just after the opening quote of a
    key on. *)
Fixpoint object_pairs (n : nat) (s : pystr) :
  result (list (pystr * value) * pystr) :=
  match n with
  | O => Raise RecursionError
  | S n' =>
      let* k := scanstring s in
      match skip_ws (snd k) with
      | [] => Raise JSONDecodeError
      | c :: s1 =>
          if c =? 58 then
            let* r := scan (skip_ws s1) in
            match skip_ws (snd r) with
            | [] => Raise JSONDecodeError
            | d :: s2 =>
                if d =? 125 then Ok ([(fst k, fst r)], s2)
                else if d =? 44 then
                  match skip_ws s2 with
                  | [] => Raise JSONDecodeError
                  | q :: s3 =>
                      if q =? 34 then
                        let* rs := object_pairs n' s3 in
                        Ok ((fst k, fst r) :: fst rs, snd rs)
                      else Raise JSONDecodeError
                  end
                else Raise JSONDecodeError
            end
          else Raise JSONDecodeError
      end
  end.

Definition JSONObject (s : pystr) : result (value * pystr) :=
  match skip_ws s with
  | [] => Raise JSONDecodeError
  | c :: s1 =>
      if c =? 125 then Ok (JDict [], s1)
      else if c =? 34 then
        let* r := object_pairs (length s) s1 in
        Ok (JDict (dict_of_pairs (fst r)), snd r)
      else Raise JSONDecodeError
  end.
End Containers.

Definition NaN_text : pystr := Eval cbv in lit "NaN".
Definition Infinity_text : pystr := Eval cbv in lit "Infinity".
Definition neg_Infinity_text : pystr := Eval cbv in lit "-Infinity".

Definition constant (text : pystr) (v : value) (s : pystr) :
  result (value * pystr) :=
  match strip_prefix text s with
  | Some rest => Ok (v, rest)
  | None => Raise JSONDecodeError
  end.

Definition is_some {A : Type} (o : option A) : bool :=
  match o with
  | Some _ => true
  | None => false
  end.

(** [scan_once(s, idx)]; [depth] bounds the nesting of containers. *)
Fixpoint scan_once (depth : nat) (s : pystr) : result (value * pystr) :=
  match depth with
  | O => Raise RecursionError
  | S d =>
      match s with
      | [] => Raise JSONDecodeError
      | c :: s1 =>
          if c =? 34 then
            let* r := scanstring s1 in Ok (JStr (fst r), snd r)
          else if c =? 123 then JSONObject (scan_once d) s1
          else if c =? 91 then JSONArray (scan_once d) s1
          else if c =? 110 then constant null_text JNull s
          else if c =? 116 then constant true_text (JBool true) s
          else if c =? 102 then constant false_text (JBool false) s
          else if is_some (strip_prefix NaN_text s)
                  || is_some (strip_prefix Infinity_text s)
                  || is_some (strip_prefix neg_Infinity_text s)
          then Raise FloatNotModelled
          else match_number s
      end
  end.

(** [json.loads(s)]: one value, surrounded by optional white space. *)
Definition loads (s : pystr) : result value :=
  let* r := scan_once (S (length s)) (skip_ws s) in
  match skip_ws (snd r) with
  | [] => Ok (fst r)
  | _ :: _ => Raise JSONDecodeError
  end.

End Json.

(* ------------------------------------------------------------------ *)
(** * SQLite: the audit_index table and the two SELECT statements *)

Module Sqlite.

(** A row of [audit_index (ts INTEGER, sha TEXT, source TEXT, payload TEXT)]. *)
Record row : Type := Row {
  ts : Z;
  sha : pystr;
  source : pystr;
  payload : pystr
}.

(** The table in rowid order, which is the order of insertion: nothing is
    ever deleted or updated. *)
Definition table := list row.

(** Binding a Python [int] to a statement: SQLite integers have 64 bits. *)
Definition in_int64 (n : Z) : bool :=
  (-9223372036854775808 <=? n) && (n <=? 9223372036854775807).

Definition bind_int (n : Z) : result Z :=
  if in_int64 n then Ok n else Raise OverflowError.

(** Binding a Python [str]: it is passed as UTF-8. *)
Definition bind_text (s : pystr) : result pystr :=
  let* _ := encode s in Ok s.

(** ** LIKE *)

(** [sqlite3Tolower]: ASCII letters only. *)
Definition tolower (c : Z) : Z :=
  if (65 <=? c) && (c <=? 90) then c + 32 else c.

(** Two characters compare equal under LIKE when they are the same or are
    ASCII characters equal up to case. *)
Definition like_eq (c c2 : Z) : bool :=
  (c =? c2) || ((c <? 128) && (c2 <? 128) && (tolower c =? tolower c2)).

(** The operands of LIKE are read as zero-terminated strings. *)
Fixpoint c_str (s : pystr) : pystr :=
  match s with
  | [] => []
  | c :: s' => if c =? 0 then [] else c :: c_str s'
  end.

(** [patternCompare] with the LIKE settings: [%] (37) matches any sequence
    of characters, [_] (95) any one character, no escape character, no
    case distinction on ASCII. *)
Fixpoint patternCompare (p : pystr) : pystr -> bool :=
  match p with
  | [] => fun s => match s with [] => true | _ :: _ => false end
  | c :: p' =>
      if c =? 37 then
        fix star (s : pystr) : bool :=
          patternCompare p' s ||
          match s with
          | [] => false
          | _ :: s' => star s'
          end
      else
        fun s =>
          match s with
          | [] => false
          | c2 :: s' => ((c =? 95) || like_eq c c2) && patternCompare p' s'
          end
  end.

(** [text LIKE pattern] *)
Definition like (pattern text : pystr) : bool :=
  patternCompare (c_str pattern) (c_str text).

(** ** ORDER BY ts DESC LIMIT ? *)

(** With a LIMIT clause the rows are sorted through an index keyed by the
    ORDER BY term and then by the sequence number of the row in the scan:
    among equal [ts] a row scanned later comes later. *)
Fixpoint sorter_insert (r : row) (sorted : list row) : list row :=
  match sorted with
  | [] => [r]
  | x :: rest =>
      if ts r <=? ts x then x :: sorter_insert r rest else r :: sorted
  end.

Definition order_by_ts_desc (rows : list row) : list row :=
  fold_left (fun sorted r => sorter_insert r sorted) rows [].

(** The output loop stops when the LIMIT counter reaches zero. *)
Fixpoint take (n : Z) (rows : list row) : list row :=
  match rows with
  | [] => []
  | r :: rows' => if n <=? 0 then [] else r :: take (n - 1) rows'
  end.

(** A negative LIMIT is no limit. *)
Definition limit (n : Z) (rows : list row) : list row :=
  if n <? 0 then rows else take n rows.

(** [SELECT ts, sha, source, payload FROM audit_index WHERE p
     ORDER BY ts DESC LIMIT n] *)
Definition select (p : row -> bool) (n : Z) (t : table) : list row :=
  limit n (order_by_ts_desc (filter p t)).

End Sqlite.

(* ------------------------------------------------------------------ *)
(** * The Logger *)

Module Logger.

Import Json Sqlite.

(** An operation attempted on one of the two stores, with its outcome. *)
Inductive op : Type :=
| LogWrite (text : pystr) (outcome : result unit)
| IndexInsert (ts : Z) (sha source payload : pystr) (outcome : result unit).

(** The two stores behind a Logger: the lines written to [audit.jsonl.gz],
    by completed writes and in file order, and the rows of [audit_index].
    [history] is not program state: it records the store operations the
    Logger attempted, in order. *)
Record store : Type := Store {
  log : list pystr;
  index : table;
  history : list op
}.

Definition empty : store := Store [] [] [].

(** What the outside world contributes to one call of [append]: the
    reading of the clock, and whether the file system and the database
    fail during this call (and with which exception). *)
Record env : Type := Env {
  now : Z;
  log_io : option exn;
  db_io : option exn
}.

(** A step of the Logger: it may change the stores and may raise. *)
Definition action (A : Type) : Type := store -> result A * store.

Definition ret {A : Type} (a : A) : action A := fun st => (Ok a, st).

Definition lift {A : Type} (r : result A) : action A := fun st => (r, st).

Definition and_then {A B : Type} (m : action A) (k : A -> action B) :
  action B :=
  fun st =>
    match m st with
    | (Ok a, st') => k a st'
    | (Raise e, st') => (Raise e, st')
    end.

Notation "'do' x '<-' m ';' k" := (and_then m (fun x => k))
  (at level 10, x pattern, m at level 100, k at level 200).

Definition log_op (o : op) (st : store) : store :=
  Store (log st) (index st) (history st ++ [o]).

(** [with gzip.open(path, "at", encoding="utf-8") as f: f.write(text)] *)
Definition gzip_write (io : option exn) (text : pystr) : action unit :=
  fun st =>
    match io with
    | Some e => (Raise e, log_op (LogWrite text (Raise e)) st)
    | None =>
        match encode text with
        | Raise e => (Raise e, log_op (LogWrite text (Raise e)) st)
        | Ok _ =>
            (Ok tt,
             log_op (LogWrite text (Ok tt))
                    (Store (log st ++ [text]) (index st) (history st)))
        end
    end.

(** [with sqlite3.connect(db) as conn: conn.cursor().execute("INSERT INTO
    audit_index VALUES (?, ?, ?, ?)", params); conn.commit()] *)
Definition sqlite_insert (io : option exn) (ts : Z) (sha source payload : pystr) :
  action unit :=
  fun st =>
    let outcome : result row :=
      match io with
      | Some e => Raise e
      | None =>
          let* ts' := bind_int ts in
          let* sha' := bind_text sha in
          let* source' := bind_text source in
          let* payload' := bind_text payload in
          Ok (Row ts' sha' source' payload')
      end in
    match outcome with
    | Raise e =>
        (Raise e, log_op (IndexInsert ts sha source payload (Raise e)) st)
    | Ok r =>
        (Ok tt,
         log_op (IndexInsert ts sha source payload (Ok tt))
                (Store (log st) (index st ++ [r]) (history st)))
    end.

Definition key_ts : pystr := Eval cbv in lit "ts".
Definition key_sha : pystr := Eval cbv in lit "sha".
Definition key_source : pystr := Eval cbv in lit "source".
Definition key_payload : pystr := Eval cbv in lit "payload".

(** [rec = {"ts": ts, "sha": sha, "source": source, "payload": payload}] *)
Definition rec (ts : Z) (sha source : pystr) (payload : value) : value :=
  JDict [ (key_ts, JInt ts); (key_sha, JStr sha);
          (key_source, JStr source); (key_payload, payload) ].

(** [hashlib.sha256(json.dumps(payload).encode()).hexdigest()] *)
Definition digest (payload : value) : result pystr :=
  let* bytes := encode (dumps true payload) in
  Ok (Sha256.hexdigest bytes).

(** [Logger.append(source, payload)] *)
Definition append (w : env) (source : pystr) (payload : value) : action unit :=
  let ts := now w in
  do sha <- lift (digest payload);
  let r := rec ts sha source payload in
  do _ <- gzip_write (log_io w) (dumps false r ++ [10]);
  sqlite_insert (db_io w) ts sha source (dumps false payload).

(** The dictionary built for each row by [search] and [tail]. *)
Record entry : Type := Entry {
  entry_ts : Z;
  entry_sha : pystr;
  entry_source : pystr;
  entry_payload : value
}.

Definition decode_row (r : row) : result entry :=
  let* v := loads (payload r) in
  Ok (Entry (ts r) (sha r) (source r) v).

(** [Logger.search(term, limit)]; [io] is the failure of the database
    during the call, if any. *)
Definition search (io : option exn) (term : pystr) (limit : Z) (st : store) :
  result (list entry) :=
  match io with
  | Some e => Raise e
  | None =>
      let* pattern := bind_text ([37] ++ term ++ [37]) in
      let* n := bind_int limit in
      mapM decode_row
        (select (fun r => like pattern (payload r)) n (index st))
  end.

(** [Logger.tail(n)] *)
Definition tail (io : option exn) (n : Z) (st : store) : result (list entry) :=
  match io with
  | Some e => Raise e
  | None =>
      let* n' := bind_int n in
      mapM decode_row (select (fun _ => true) n' (index st))
  end.

(** [SELECT COUNT( * ) FROM audit_index], the [stats] command of [main]. *)
Definition count (st : store) : Z := Z.of_nat (length (index st)).

(** A call of [append] with what the world does during it. *)
Record call : Type := Call {
  call_env : env;
  call_source : pystr;
  call_payload : value
}.

(** A sequence of [append] calls, one after the other: the outcome of
    each and the stores at the end. *)
Fixpoint run (calls : list call) (st : store) : list (result unit) * store :=
  match calls with
  | [] => ([], st)
  | c :: calls' =>
      let (r, st1) := append (call_env c) (call_source c) (call_payload c) st in
      let (rs, st2) := run calls' st1 in
      (r :: rs, st2)
  end.

End Logger.

(* ------------------------------------------------------------------ *)
(** * Vocabulary of the specification *)

Module Spec.

Import Json Sqlite Logger.

(** The values [json.dumps] is given: code points are in the Unicode
    range and the keys of a dictionary are distinct. *)
Definition valid_str (s : pystr) : Prop :=
  Forall (fun c => 0 <= c < 1114112) s.

Fixpoint well_formed (v : value) : Prop :=
  match v with
  | JNull | JBool _ | JInt _ => True
  | JStr s => valid_str s
  | JList items =>
      (fix all (l : list value) : Prop :=
         match l with
         | [] => True
         | x :: l' => well_formed x /\ all l'
         end) items
  | JDict members =>
      NoDup (map fst members) /\
      (fix all (l : list (pystr * value)) : Prop :=
         match l with
         | [] => True
         | kv :: l' => valid_str (fst kv) /\ well_formed (snd kv) /\ all l'
         end) members
  end.

(** [term] occurs in [text] as a contiguous substring, character for
    character. *)
Definition contains (term text : pystr) : Prop :=
  exists pre post, text = pre ++ term ++ post.



(** Text without the terminator of C strings. *)
Definition no_nul (s : pystr) : Prop := Forall (fun c => c <> 0) s.


(** A line of the log and a row of the index that hold the same record:
    the line is the serialisation of a record with the row's time stamp,
    fingerprint and source, and the row's payload text is the
    serialisation of that record's payload. *)
Definition corresponds (line : pystr) (r : row) : Prop :=
  exists p : value,
    line = dumps false (rec (ts r) (sha r) (source r) p) ++ [10] /\
    payload r = dumps false p.

(** The text [append] hashes, the fingerprint it stamps, the line it
    writes to the log and the row it inserts, for a call in world [w]. *)
Definition hashed_text (p : value) : pystr := dumps true p.

Definition fingerprint (p : value) : pystr := Sha256.hexdigest (hashed_text p).

Definition line_of (w : env) (src : pystr) (p : value) : pystr :=
  dumps false (rec (now w) (fingerprint p) src p) ++ [10].

Definition row_of (w : env) (src : pystr) (p : value) : row :=
  Row (now w) (fingerprint p) src (dumps false p).

(** The parameters of the INSERT as they reach the table. *)
Definition bound_row (ts : Z) (sha source payload : pystr) : result row :=
  let* ts' := bind_int ts in
  let* sha' := bind_text sha in
  let* source' := bind_text source in
  let* payload' := bind_text payload in
  Ok (Row ts' sha' source' payload').

(** The three ways a call of [append] can go. *)
Inductive append_outcome (w : env) (src : pystr) (p : value) (st : store) :
  result unit -> store -> Prop :=
| log_failed : forall e,
    log_io w = Some e \/ log_io w = None /\ encode (line_of w src p) = Raise e ->
    append_outcome w src p st (Raise e)
      (Store (log st) (index st)
             (history st ++ [LogWrite (line_of w src p) (Raise e)]))
| index_failed : forall e,
    log_io w = None ->
    db_io w = Some e \/
    db_io w = None /\
    bound_row (now w) (fingerprint p) src (dumps false p) = Raise e ->
    append_outcome w src p st (Raise e)
      (Store (log st ++ [line_of w src p]) (index st)
             (history st ++
              [LogWrite (line_of w src p) (Ok tt);
               IndexInsert (now w) (fingerprint p) src (dumps false p) (Raise e)]))
| both_written :
    log_io w = None -> db_io w = None -> in_int64 (now w) = true ->
    append_outcome w src p st (Ok tt)
      (Store (log st ++ [line_of w src p]) (index st ++ [row_of w src p])
             (history st ++
              [LogWrite (line_of w src p) (Ok tt);
               IndexInsert (now w) (fingerprint p) src (dumps false p) (Ok tt)])).

(** Log and index hold the same records, in the same order. *)
Definition consistent (st : store) : Prop :=
  Forall2 corresponds (log st) (index st).

(** Every payload text of the index can be decoded. *)
Definition decodable (st : store) : Prop :=
  Forall (fun r => exists v, loads (payload r) = Ok v) (index st).

(** [rows] decode, one by one, to [entries]. *)
Definition decoded (rows : list row) (entries : list entry) : Prop :=
  Forall2 (fun r e => decode_row r = Ok e) rows entries.

Definition is_ok {A : Type} (r : result A) : bool :=
  match r with
  | Ok _ => true
  | Raise _ => false
  end.

(** The number of calls that returned normally. *)
Definition successes (rs : list (result unit)) : Z :=
  Z.of_nat (length (filter is_ok rs)).

(** Time stamps do not increase along the list. *)
Definition ts_descending (rows : list row) : Prop :=
  StronglySorted (fun a b => ts b <= ts a) rows.

(** The rows with time stamp [t], in the order of the list. *)
Definition with_ts (t : Z) (rows : list row) : list row :=
  filter (fun r => ts r =? t) rows.

(** [a] is an initial segment of [b]. *)
Definition prefix_of (a b : list row) : Prop := exists rest, b = a ++ rest.

(** Among the rows of [rows] with the same time stamp, the one inserted
    into [t] first comes first. *)
Definition ties_earliest_first (t : table) (rows : list row) : Prop :=
  forall stamp, prefix_of (with_ts stamp rows) (with_ts stamp t).

(** Among the rows of [rows] with the same time stamp, the one inserted
    into [t] last comes first. *)
Definition ties_latest_first (t : table) (rows : list row) : Prop :=
  forall stamp, prefix_of (with_ts stamp rows) (rev (with_ts stamp t)).

(** Every row of [rows] has its line in [lines], in the same order;
    [lines] may hold further lines in between. *)
Inductive embeds : list row -> list pystr -> Prop :=
| embeds_nil : embeds [] []
| embeds_skip : forall rows line lines,
    embeds rows lines -> embeds rows (line :: lines)
| embeds_match : forall r rows line lines,
    corresponds line r -> embeds rows lines ->
    embeds (r :: rows) (line :: lines).

(** The stores a Logger can be in: those reached from the empty stores by
    calls of [append] on well-formed payloads, whatever the world does. *)
Inductive reachable : store -> Prop :=
| reach_empty : reachable empty
| reach_append : forall st w src p,
    reachable st -> well_formed p -> valid_str src ->
    reachable (snd (append w src p st)).

End Spec.

(* ------------------------------------------------------------------ *)
(** * Concrete payloads, worlds and stores used in the examples *)

Module Samples.

Import Json Sqlite Logger.

(** [{"a": 1, "b": [1, 2, 3]}] *)
Definition sample_payload : value :=
  JDict [(lit "a", JInt 1); (lit "b", JList [JInt 1; JInt 2; JInt 3])].

(** [{"k": "é"}] *)
Definition accented_payload : value := JDict [(lit "k", JStr [233])].

(** A call during which nothing fails, at second 1700000000. *)
Definition quiet_world : env := Env 1700000000 None None.

(** The file system refuses the write (ENOSPC). *)
Definition disk_full_world : env := Env 1700000000 (Some (OSError 28)) None.

(** The database refuses the insert (SQLITE_BUSY). *)
Definition index_down_world : env :=
  Env 1700000000 None (Some (sqlite3_Error 5)).

(** [{"msg": "hello"}] and [{"msg": "world"}] *)
Definition hello_payload : value := JDict [(lit "msg", JStr (lit "hello"))].
Definition world_payload : value := JDict [(lit "msg", JStr (lit "world"))].

(** The stores after [append("svc1", {"msg": "hello"})] and
    [append("svc2", {"msg": "world"})] within the same second. *)
Definition same_second_store : store :=
  snd (run [ Call quiet_world (lit "svc1") hello_payload;
             Call quiet_world (lit "svc2") world_payload ] empty).

(** The stores after one [append("test", {"a": 1, "b": [1, 2, 3]})]. *)
Definition one_record_store : store :=
  snd (append quiet_world (lit "test") sample_payload empty).

End Samples.

(* ------------------------------------------------------------------ *)
(** * RingBuffer *)

Module Ring.

(** The exceptions a list operation or the modulo can raise in [push]. *)
Inductive error : Type :=
| IndexError
| ZeroDivisionError.

(** The three slots of a [RingBuffer]. *)
Record RingBuffer (A : Type) : Type := Make {
  size : Z;
  buf : list A;
  idx : Z
}.
Arguments Make {A} size buf idx.
Arguments size {A} r.
Arguments buf {A} r.
Arguments idx {A} r.

(** [RingBuffer(size)] *)
Definition init {A : Type} (size : Z) : RingBuffer A := Make size [] 0.

(** [l[i] = x]: a negative index counts from the end; an index outside
    the list raises IndexError ([None]). *)
Definition setitem {A : Type} (l : list A) (i : Z) (x : A) : option (list A) :=
  let n := Z.of_nat (length l) in
  let j := if i <? 0 then i + n else i in
  if (0 <=? j) && (j <? n)
  then Some (firstn (Z.to_nat j) l ++ x :: skipn (S (Z.to_nat j)) l)
  else None.

(** [RingBuffer.push(x)]: the buffer after the call and the exception it
    raised, if any.  The buffer is an object that is updated in place, so
    an assignment made before an exception stays. *)
Definition push {A : Type} (x : A) (r : RingBuffer A) :
  option error * RingBuffer A :=
  if Z.of_nat (length (buf r)) <? size r
  then (None, Make (size r) (buf r ++ [x]) (idx r))
  else
    match setitem (buf r) (idx r) x with
    | None => (Some IndexError, r)
    | Some b =>
        if size r =? 0
        then (Some ZeroDivisionError, Make (size r) b (idx r))
        else (None, Make (size r) b ((idx r + 1) mod size r))
    end.

(** [l[start:]] for any integer [start]. *)
Definition slice_from {A : Type} (start : Z) (l : list A) : list A :=
  let n := Z.of_nat (length l) in
  let s := if start <? 0 then Z.max (n + start) 0 else Z.min start n in
  skipn (Z.to_nat s) l.

(** [RingBuffer.last(n)]: [buf[-n:]] *)
Definition last {A : Type} (n : Z) (r : RingBuffer A) : list A :=
  slice_from (- n) (buf r).

(** A sequence of [push] calls, stopping at the first exception. *)
Fixpoint push_all {A : Type} (xs : list A) (r : RingBuffer A) :
  option error * RingBuffer A :=
  match xs with
  | [] => (None, r)
  | x :: xs' =>
      match push x r with
      | (None, r') => push_all xs' r'
      | (Some e, r') => (Some e, r')
      end
  end.

(** The elements of a full buffer from the oldest to the newest: from
    [idx] to the end, then from the start to [idx]. *)
Definition oldest_first {A : Type} (r : RingBuffer A) : list A :=
  skipn (Z.to_nat (idx r)) (buf r) ++ firstn (Z.to_nat (idx r)) (buf r).

(** The last [n] elements of a list. *)
Definition lastn {A : Type} (n : nat) (l : list A) : list A :=
  skipn (length l - n) l.

(** The state of a buffer of size [s] after the elements [xs] were
    pushed onto a fresh one. *)
Definition holds {A : Type} (s : nat) (xs : list A) (r : RingBuffer A) : Prop :=
  size r = Z.of_nat s /\
  length (buf r) = Nat.min (length xs) s /\
  idx r = (if (length xs <=? s)%nat then 0
           else Z.of_nat (length xs) mod Z.of_nat s) /\
  oldest_first r = lastn s xs.

End Ring.

(* ------------------------------------------------------------------ *)
(** * Parser *)

Module Parser.

Import Json.

(** The character class [[A-Za-z]] of [re_en]. *)
Definition is_en (c : Z) : bool :=
  ((65 <=? c) && (c <=? 90)) || ((97 <=? c) && (c <=? 122)).

(** The character class of [re_ja]: the ranges U+4E00..U+9FA0 (kanji),
    U+3041..U+3093 (hiragana), U+30A1..U+30F4 (katakana) and the long
    vowel mark U+30FC. *)
Definition is_ja (c : Z) : bool :=
  ((19968 <=? c) && (c <=? 40864)) || ((12353 <=? c) && (c <=? 12435)) ||
  ((12449 <=? c) && (c <=? 12532)) || (c =? 12540).

Definition flush (cur : pystr) : list pystr :=
  match cur with
  | [] => []
  | _ :: _ => [cur]
  end.

(** [re.compile("[...]+").findall(text)] for a character class: the
    matches from left to right, each as long as possible; [cur] is the
    match being read. *)
Fixpoint findall_from (cls : Z -> bool) (cur : pystr) (s : pystr) : list pystr :=
  match s with
  | [] => flush cur
  | c :: s' =>
      if cls c then findall_from cls (cur ++ [c]) s'
      else flush cur ++ findall_from cls [] s'
  end.

Definition findall (cls : Z -> bool) (text : pystr) : list pystr :=
  findall_from cls [] text.

Definition lang_ja : pystr := Eval cbv in lit "ja".
Definition key_lang : pystr := Eval cbv in lit "lang".
Definition key_tokens : pystr := Eval cbv in lit "tokens".
Definition key_len : pystr := Eval cbv in lit "len".

(** The class used by a Parser for language [lang]. *)
Definition class_of (lang : pystr) : Z -> bool :=
  if list_eq_dec Z.eq_dec lang lang_ja then is_ja else is_en.

Definition tokens_of (lang text : pystr) : list pystr :=
  findall (class_of lang) text.

(** [Parser(lang).parse(text)] *)
Definition parse (lang text : pystr) : value :=
  let tokens := tokens_of lang text in
  JDict [ (key_lang, JStr lang);
          (key_tokens, JList (map JStr tokens));
          (key_len, JInt (Z.of_nat (length tokens))) ].

(** [toks] are the maximal runs of class characters of a text, from left
    to right: the text is a gap without class characters, then, for each
    token, the token (not empty, class characters only) followed by the
    rest, which does not go on with a class character. *)
Inductive runs (cls : Z -> bool) : pystr -> list pystr -> Prop :=
| runs_end : forall gap,
    Forall (fun c => cls c = false) gap -> runs cls gap []
| runs_token : forall gap tok rest toks,
    Forall (fun c => cls c = false) gap ->
    tok <> [] ->
    Forall (fun c => cls c = true) tok ->
    head_is cls rest = false ->
    runs cls rest toks ->
    runs cls (gap ++ tok ++ rest) (tok :: toks).

End Parser.

(* ------------------------------------------------------------------ *)
(** * Vocabulary for the decoder *)

Module JsonSpec.

Import Json.

(** The nesting depth of the containers of a value. *)
Fixpoint depth (v : value) : nat :=
  match v with
  | JNull | JBool _ | JInt _ | JStr _ => 0
  | JList items => S (fold_right (fun x m => Nat.max (depth x) m) 0%nat items)
  | JDict members =>
      S (fold_right (fun kv m => Nat.max (depth (snd kv)) m) 0%nat members)
  end.

(** What can follow a value inside a document: nothing, a comma, or a
    closing bracket or brace. *)
Definition delimited (rest : pystr) : Prop :=
  match rest with
  | [] => True
  | c :: _ => c = 44 \/ c = 93 \/ c = 125
  end.

(** The decimal value of a string of digits read after [acc]. *)
Definition decimal (acc : Z) (ds : pystr) : Z :=
  fold_left (fun a d => 10 * a + (d - 48)) ds acc.

(** The text of a member of a dictionary. *)
Definition member_text (kv : pystr * value) : pystr :=
  encode_basestring false (fst kv) ++ key_separator ++ dumps false (snd kv).

Definition all_digits (s : pystr) : Prop :=
  Forall (fun c => is_digit c = true) s.

(** The first character of a serialised value: not white space, not a
    comma, not a closing bracket or brace. *)
Definition value_start (s : pystr) : Prop :=
  exists c t, s = c :: t /\ is_ws c = false /\ c <> 44 /\ c <> 93 /\ c <> 125.

(** The decoder [scan] reads back the serialisation of [v], whatever
    delimiter follows. *)
Definition reads_back (scan : pystr -> result (value * pystr)) (v : value) :
  Prop :=
  forall rest, delimited rest -> scan (dumps false v ++ rest) = Ok (v, rest).

End JsonSpec.


(* ------------------------------------------------------------------ *)
(** * The inputs the model follows *)

Module Limits.

Import Json JsonSpec.

(** Every integer of a value is below [bound] in absolute value. *)
Fixpoint ints_below (bound : Z) (v : value) : Prop :=
  match v with
  | JInt n => Z.abs n < bound
  | JList items =>
      (fix all (l : list value) : Prop :=
         match l with
         | [] => True
         | x :: l' => ints_below bound x /\ all l'
         end) items
  | JDict members =>
      (fix all (l : list (pystr * value)) : Prop :=
         match l with
         | [] => True
         | kv :: l' => ints_below bound (snd kv) /\ all l'
         end) members
  | _ => True
  end.

(** The interpreter converts an integer to and from decimal text only up
    to 4300 digits (the default of [sys.set_int_max_str_digits]);
    [json.dumps] and [json.loads] raise ValueError beyond that. *)
Definition max_str_digits : Z := 4300.

(** A nesting of containers that stays well inside the default recursion
    limit of the interpreter (1000 frames), also with the two levels a
    listing adds around a payload. *)
Definition max_nesting : nat := 100.

(** A value that [json.dumps] and [json.loads] handle without meeting a
    limit of the interpreter, as the model assumes. *)
Definition within_limits (v : value) : Prop :=
  ints_below (10 ^ max_str_digits) v /\ (depth v <= max_nesting)%nat.


End Limits.

(* ------------------------------------------------------------------ *)
(** * The command line: main *)

Module Cli.

Import Json Sqlite Logger.

(** The value of [args] after [parser.parse_args()]: the command and its
    options. An option that has a default and was not given is [None]. *)
Inductive args : Type :=
| Parse (lang : option pystr) (text : pystr)
| Ingest (source payload : pystr)
| Tail (n : option Z)
| Search (term : pystr)
| Stats
| NoCommand.

(** What a run writes to standard output: the argument of its [print],
    or the usage text of [parser.print_help()]. *)
Inductive output : Type :=
| Printed (text : pystr)
| Help.

(** A line break followed by the indentation of a nesting level, two
    spaces for each level. *)
Definition newline_indent (level : nat) : pystr :=
  10 :: repeat 32 (2 * level).

Definition empty_list_text : pystr := Eval cbv in lit "[]".
Definition empty_dict_text : pystr := Eval cbv in lit "{}".

(** [json.dumps(v, ensure_ascii=False, indent=2)], for a value at nesting
    level [level]: every item of a list and every member of a dictionary
    starts a line, the items are separated by a comma at the end of the
    line, the closing bracket is on a line of its own at the level of
    the container; an empty container is written as in one line. *)
Fixpoint dumps_indent (level : nat) (v : value) : pystr :=
  match v with
  | JList items =>
      match items with
      | [] => empty_list_text
      | _ :: _ =>
          [91] ++ newline_indent (S level) ++
          join (44 :: newline_indent (S level))
               (map (dumps_indent (S level)) items) ++
          newline_indent level ++ [93]
      end
  | JDict members =>
      match members with
      | [] => empty_dict_text
      | _ :: _ =>
          [123] ++ newline_indent (S level) ++
          join (44 :: newline_indent (S level))
               (map (fun kv : pystr * value =>
                       let (k, x) := kv in
                       encode_basestring false k ++ key_separator ++
                       dumps_indent (S level) x) members) ++
          newline_indent level ++ [125]
      end
  | _ => dumps false v
  end.

(** The dictionary [search] and [tail] build for a row. *)
Definition entry_dict (e : entry) : value :=
  rec (entry_ts e) (entry_sha e) (entry_source e) (entry_payload e).

Definition listing (entries : list entry) : pystr :=
  dumps_indent 0 (JList (map entry_dict entries)).

Definition ok_text : pystr := Eval cbv in lit "OK".
Definition key_entries : pystr := Eval cbv in lit "entries".

(** The defaults of [--lang] and [--n], and of the parameter [limit] of
    [search]. *)
Definition default_lang : pystr := Parser.lang_ja.
Definition default_n : Z := 10.
Definition default_limit : Z := 10.

Definition or_default {A : Type} (d : A) (o : option A) : A :=
  match o with
  | Some a => a
  | None => d
  end.

(** [Logger()]: [_ensure_db] opens the database and creates the table
    [audit_index] unless it exists; the rows of an existing table are
    kept, a new table has none. [io] is the failure of the database
    during the call, if any. *)
Definition ensure_db (io : option exn) : action unit :=
  fun st =>
    match io with
    | Some e => (Raise e, st)
    | None => (Ok tt, st)
    end.

(** A read of the index that does not change the stores. *)
Definition query {A : Type} (q : store -> result A) : action A :=
  fun st => (q st, st).

(** [SELECT COUNT( * ) FROM audit_index] of the [stats] command. *)
Definition count_rows (io : option exn) (st : store) : result Z :=
  match io with
  | Some e => Raise e
  | None => Ok (count st)
  end.

(** [main()], from [log = Logger()] on. [boot] is the failure of the
    database while the Logger is created, [w] what the world does
    during the command. *)
Definition main (boot : option exn) (w : env) (a : args) : action output :=
  do _ <- ensure_db boot;
  match a with
  | Parse lang text =>
      ret (Printed (dumps false (Parser.parse (or_default default_lang lang) text)))
  | Ingest source payload =>
      do v <- lift (loads payload);
      do _ <- append w source v;
      ret (Printed ok_text)
  | Tail n =>
      do entries <- query (tail (db_io w) (or_default default_n n));
      ret (Printed (listing entries))
  | Search term =>
      do entries <- query (search (db_io w) term default_limit);
      ret (Printed (listing entries))
  | Stats =>
      do n <- query (count_rows (db_io w));
      ret (Printed (dumps false (JDict [(key_entries, JInt n)])))
  | NoCommand => ret Help
  end.

End Cli.

(* ------------------------------------------------------------------ *)
(** * Vocabulary for runs of the program *)

Module CliSpec.

Import Json Sqlite Logger Spec Limits Cli.






(** A member of a dictionary that [json.dumps] accepts, and a decoder
    that returns only such values. *)
Definition sound_member (kv : pystr * value) : Prop :=
  valid_str (fst kv) /\ well_formed (snd kv).

Definition sound (scan : pystr -> result (value * pystr)) : Prop :=
  forall s v rest, valid_str s -> scan s = Ok (v, rest) ->
                   well_formed v /\ valid_str rest.

End CliSpec.

(* ------------------------------------------------------------------ *)
(** * Runs of the program used in the examples *)

Module CliSamples.

Import Json Sqlite Logger Samples Cli CliSpec.

(** The text [{"a": 1, "b": [1, 2, 3]}]. *)
Definition sample_text : pystr := dumps false sample_payload.


End CliSamples.

(* ------------------------------------------------------------------ *)
(** * Vocabulary for indented documents *)

Module IndentSpec.

Import Json Sqlite Logger Spec Cli.

(** What can follow a value inside an indented document: nothing, a
    comma, or the line break before the next closing bracket. *)
Definition follows (rest : pystr) : Prop :=
  match rest with
  | [] => True
  | c :: _ => c = 44 \/ c = 10
  end.

(** The text of a member of a dictionary at nesting level [level]. *)
Definition member_indent (level : nat) (kv : pystr * value) : pystr :=
  encode_basestring false (fst kv) ++ key_separator ++
  dumps_indent level (snd kv).

(** The decoder [scan] reads back the indented text of [v], at every
    nesting level. *)
Definition reads_indented (scan : pystr -> result (value * pystr))
  (v : value) : Prop :=
  forall level rest, follows rest ->
    scan (dumps_indent level v ++ rest) = Ok (v, rest).

(** An entry with Python strings and a payload [json.dumps] accepts. *)
Definition entry_sound (e : entry) : Prop :=
  valid_str (entry_sha e) /\ valid_str (entry_source e) /\
  well_formed (entry_payload e).

End IndentSpec.

(* ------------------------------------------------------------------ *)
(** * Vocabulary for what the readers return *)

Module ReadSpec.

Import Json Sqlite Logger.



End ReadSpec.

(* ------------------------------------------------------------------ *)
(** * A log line without a row *)

Module Orphan.

Import Json Sqlite Logger Samples.

(** The stores after [append("svc1", {"msg": "hello"})] during which the
    database refused the insert. *)
Definition orphan_store : store :=
  snd (append index_down_world (lit "svc1") hello_payload empty).

(** The line that call left in the log. *)
Definition orphan_line : pystr :=
  Spec.line_of index_down_world (lit "svc1") hello_payload.

(** The stores after a following [append("svc2", {"msg": "world"})]
    during which nothing failed. *)
Definition after_orphan : store :=
  snd (append quiet_world (lit "svc2") world_payload orphan_store).

End Orphan.
(* ================================================================== *)
(** * Checks of the library models against known values *)

Example sha256_abc :
  Sha256.hexdigest (lit "abc") =
  lit "ba7816bf8f01cfea414140de5dae2223b00361a396177a9cb410ff61f20015ad".
Proof. vm_compute. reflexivity. Qed.

Example sha256_empty :
  Sha256.hexdigest [] =
  lit "e3b0c44298fc1c149afbf4c8996fb92427ae41e4649b934ca495991b7852b855".
Proof. vm_compute. reflexivity. Qed.

Example sha256_two_blocks :
  Sha256.hexdigest
    (lit "abcdbcdecdefdefgefghfghighijhijkijkljklmklmnlmnomnopnopq") =
  lit "248d6a61d20638b8e5c026930c3e6039a33ce45964ff2167f6ecedd419db06c1".
Proof. vm_compute. reflexivity. Qed.

(* ================================================================== *)
(** * Strings and their UTF-8 encoding *)

Lemma encode_char_ascii c : 0 <= c < 128 -> encode_char c = Ok [c].
Proof.
  intros H. unfold encode_char.
  destruct (c <? 0) eqn:E0; [apply Z.ltb_lt in E0; lia|].
  destruct (c <? 128) eqn:E1; [reflexivity|apply Z.ltb_ge in E1; lia].
Qed.

Lemma encode_ascii s : ascii_only s -> encode s = Ok s.
Proof.
  induction 1 as [|c s Hc _ IH]; [reflexivity|].
  cbn [encode]. rewrite (encode_char_ascii c Hc). cbn [bind].
  rewrite IH. reflexivity.
Qed.

Lemma encode_app s1 s2 b1 b2 :
  encode s1 = Ok b1 -> encode s2 = Ok b2 -> encode (s1 ++ s2) = Ok (b1 ++ b2).
Proof.
  revert b1. induction s1 as [|c s1 IH]; intros b1 H1 H2.
  - cbn in H1. injection H1 as <-. exact H2.
  - cbn [encode app] in *. destruct (encode_char c) as [b|e]; [|discriminate].
    cbn [bind] in *. destruct (encode s1) as [bs|e]; [|discriminate].
    cbn [bind] in *. injection H1 as <-.
    rewrite (IH bs eq_refl H2). cbn [bind]. now rewrite app_assoc.
Qed.

Lemma encode_app_inv s1 s2 b :
  encode (s1 ++ s2) = Ok b ->
  exists b1 b2, encode s1 = Ok b1 /\ encode s2 = Ok b2 /\ b = b1 ++ b2.
Proof.
  revert b. induction s1 as [|c s1 IH]; intros b H.
  - exists [], b. auto.
  - cbn [encode app] in *. destruct (encode_char c) as [bc|e]; [|discriminate].
    cbn [bind] in *. destruct (encode (s1 ++ s2)) as [bs|e] eqn:E; [|discriminate].
    cbn [bind] in H. injection H as <-.
    destruct (IH bs eq_refl) as (b1 & b2 & -> & -> & ->).
    exists (bc ++ b1), b2. cbn [bind]. now rewrite app_assoc.
Qed.

Lemma ascii_only_app s1 s2 : ascii_only s1 -> ascii_only s2 -> ascii_only (s1 ++ s2).
Proof. intros. now apply Forall_app. Qed.

(* ================================================================== *)
(** * The encoder *)

Module JsonFacts.
Import Json.

(** Induction over values, with the induction hypothesis for every item
    of a list and every member of a dictionary. *)
Lemma value_ind (P : value -> Prop) :
  P JNull ->
  (forall b, P (JBool b)) ->
  (forall n, P (JInt n)) ->
  (forall s, P (JStr s)) ->
  (forall items, Forall P items -> P (JList items)) ->
  (forall members, Forall (fun kv => P (snd kv)) members -> P (JDict members)) ->
  forall v, P v.
Proof.
  intros Hnull Hbool Hint Hstr Hlist Hdict.
  fix IH 1. intros [| b | n | s | items | members].
  - exact Hnull.
  - apply Hbool.
  - apply Hint.
  - apply Hstr.
  - apply Hlist. induction items as [|x items IHitems]; constructor.
    + apply IH.
    + exact IHitems.
  - apply Hdict. induction members as [|[k x] members IHm]; constructor.
    + apply IH.
    + exact IHm.
Qed.

Lemma hex_digit_ascii d : 0 <= d < 16 -> 48 <= Sha256.hex_digit d < 128.
Proof.
  intros H. unfold Sha256.hex_digit. destruct (d <? 10); lia.
Qed.

Lemma hex4_ascii n : ascii_only (hex4 n).
Proof.
  unfold hex4.
  repeat constructor;
    match goal with
    | |- _ <= Sha256.hex_digit ?d =>
        pose proof (hex_digit_ascii d (Z.mod_pos_bound _ 16 eq_refl)); lia
    | |- Sha256.hex_digit ?d < _ =>
        pose proof (hex_digit_ascii d (Z.mod_pos_bound _ 16 eq_refl)); lia
    end.
Qed.

Lemma u_escape_ascii n : ascii_only (u_escape n).
Proof.
  unfold u_escape. repeat (constructor; [lia|]). apply hex4_ascii.
Qed.

Ltac ztest :=
  repeat match goal with
         | H : (_ =? _) = true |- _ => apply Z.eqb_eq in H
         | H : (_ =? _) = false |- _ => apply Z.eqb_neq in H
         | H : (_ <? _) = true |- _ => apply Z.ltb_lt in H
         | H : (_ <? _) = false |- _ => apply Z.ltb_ge in H
         | H : (_ <=? _) = true |- _ => apply Z.leb_le in H
         | H : (_ <=? _) = false |- _ => apply Z.leb_gt in H
         | H : (_ && _) = true |- _ => apply andb_true_iff in H; destruct H
         | H : (_ || _) = false |- _ => apply orb_false_iff in H; destruct H
         end.

(** With [ensure_ascii] every character is replaced by ASCII text. *)
Lemma escape_char_ascii c : ascii_only (escape_char true c).
Proof.
  unfold escape_char.
  repeat match goal with
         | |- context [if ?b then _ else _] => destruct b eqn:?
         end;
    ztest; try (repeat constructor; lia);
    try apply u_escape_ascii.
  apply ascii_only_app; apply u_escape_ascii.
Qed.

Lemma encode_basestring_ascii s : ascii_only (encode_basestring true s).
Proof.
  unfold encode_basestring. constructor; [lia|].
  apply ascii_only_app; [|repeat constructor; lia].
  induction s as [|c s IH]; [constructor|].
  cbn [flat_map]. apply ascii_only_app; [apply escape_char_ascii|exact IH].
Qed.

Lemma digits_from_ascii fuel n acc :
  ascii_only acc -> ascii_only (digits_from fuel n acc).
Proof.
  revert n acc. induction fuel as [|f IH]; intros n acc Hacc; [exact Hacc|].
  cbn [digits_from].
  assert (H : ascii_only ((48 + n mod 10) :: acc)).
  { constructor; [|exact Hacc].
    pose proof (Z.mod_pos_bound n 10 eq_refl). lia. }
  destruct (n <? 10); [exact H|apply IH, H].
Qed.

Lemma int_repr_ascii n : ascii_only (int_repr n).
Proof.
  unfold int_repr, digits. destruct (n <? 0).
  - constructor; [lia|]. apply digits_from_ascii. constructor.
  - apply digits_from_ascii. constructor.
Qed.

Lemma join_ascii sep parts :
  ascii_only sep -> Forall ascii_only parts -> ascii_only (join sep parts).
Proof.
  intros Hsep. induction 1 as [|p ps Hp Hps IH]; [constructor|].
  cbn [join]. destruct ps; [exact Hp|].
  apply ascii_only_app; [exact Hp|]. apply ascii_only_app; [exact Hsep|exact IH].
Qed.

Lemma item_separator_ascii : ascii_only item_separator.
Proof. repeat constructor; lia. Qed.

(** [json.dumps(v)] (with the default [ensure_ascii=True]) is ASCII text. *)
Lemma dumps_ascii v : ascii_only (dumps true v).
Proof.
  induction v as [| b | n | s | items IH | members IH] using value_ind.
  - repeat constructor; lia.
  - destruct b; repeat constructor; lia.
  - apply int_repr_ascii.
  - apply encode_basestring_ascii.
  - cbn [dumps]. apply ascii_only_app; [repeat constructor; lia|].
    apply ascii_only_app; [|repeat constructor; lia].
    apply join_ascii; [apply item_separator_ascii|].
    apply Forall_map. exact IH.
  - cbn [dumps]. apply ascii_only_app; [repeat constructor; lia|].
    apply ascii_only_app; [|repeat constructor; lia].
    apply join_ascii; [apply item_separator_ascii|].
    apply Forall_map. revert IH. apply Forall_impl. intros [k x] Hx.
    apply ascii_only_app; [apply encode_basestring_ascii|].
    apply ascii_only_app; [repeat constructor; lia|exact Hx].
Qed.

End JsonFacts.

(* ================================================================== *)
(** * Logger.append *)

Module AppendFacts.
Import Json Sqlite Logger Spec JsonFacts.

(** The fingerprint is always computed: the text that is hashed is ASCII,
    so that [encode] cannot raise. *)
Lemma digest_total p : digest p = Ok (Sha256.hexdigest (dumps true p)).
Proof.
  unfold digest. rewrite (encode_ascii _ (dumps_ascii p)). reflexivity.
Qed.

Lemma digest_fingerprint p : digest p = Ok (fingerprint p).
Proof. apply digest_total. Qed.

(** [append] is the write to the log followed, when it succeeds, by the
    insert. *)
Lemma append_unfold w src p st :
  append w src p st =
  match gzip_write (log_io w) (line_of w src p) st with
  | (Ok _, st1) =>
      sqlite_insert (db_io w) (now w) (fingerprint p) src (dumps false p) st1
  | (Raise e, st1) => (Raise e, st1)
  end.
Proof.
  unfold append, and_then, lift. rewrite digest_total. reflexivity.
Qed.

(** The write to the log either raises and leaves the stores as they
    are, or adds the line. *)
Lemma gzip_write_cases io text st :
  (exists e, gzip_write io text st =
             (Raise e, Store (log st) (index st)
                             (history st ++ [LogWrite text (Raise e)])) /\
             (io = Some e \/ io = None /\ encode text = Raise e))
  \/ (gzip_write io text st =
        (Ok tt, Store (log st ++ [text]) (index st)
                      (history st ++ [LogWrite text (Ok tt)])) /\
      io = None /\ exists b, encode text = Ok b).
Proof.
  unfold gzip_write, log_op. destruct io as [e|].
  - left. exists e. auto.
  - destruct (encode text) as [b|e].
    + right. cbn. eauto.
    + left. exists e. auto.
Qed.

Lemma bind_text_ok s r : bind_text s = Ok r -> r = s.
Proof.
  unfold bind_text. destruct (encode s); cbn; congruence.
Qed.

Lemma bind_int_ok n r : bind_int n = Ok r -> r = n /\ in_int64 n = true.
Proof.
  unfold bind_int. destruct (in_int64 n); [|discriminate].
  intros [= <-]. auto.
Qed.

Lemma bound_row_ok ts sha source payload r :
  bound_row ts sha source payload = Ok r ->
  r = Row ts sha source payload /\ in_int64 ts = true.
Proof.
  unfold bound_row. intros H.
  destruct (bind_int ts) as [ts'|] eqn:E1; [|discriminate].
  destruct (bind_text sha) as [sha'|] eqn:E2; [|discriminate].
  destruct (bind_text source) as [source'|] eqn:E3; [|discriminate].
  destruct (bind_text payload) as [payload'|] eqn:E4; [|discriminate].
  cbn in H. injection H as <-.
  apply bind_int_ok in E1. destruct E1 as [-> ?].
  apply bind_text_ok in E2, E3, E4. subst. auto.
Qed.

(** The insert either raises and leaves the stores as they are, or adds
    the row. *)
Lemma sqlite_insert_cases io ts sha source payload st :
  (exists e, sqlite_insert io ts sha source payload st =
             (Raise e, Store (log st) (index st)
                (history st ++ [IndexInsert ts sha source payload (Raise e)])) /\
             (io = Some e \/
              io = None /\ bound_row ts sha source payload = Raise e))
  \/ (sqlite_insert io ts sha source payload st =
        (Ok tt, Store (log st) (index st ++ [Row ts sha source payload])
                  (history st ++ [IndexInsert ts sha source payload (Ok tt)])) /\
      io = None /\ in_int64 ts = true).
Proof.
  unfold sqlite_insert, log_op. destruct io as [e|].
  - left. exists e. auto.
  - fold (bound_row ts sha source payload).
    destruct (bound_row ts sha source payload) as [r|e] eqn:E.
    + right. apply bound_row_ok in E. destruct E as [-> ?]. cbn. auto.
    + left. exists e. auto.
Qed.

Lemma append_cases w src p st :
  append_outcome w src p st (fst (append w src p st)) (snd (append w src p st)).
Proof.
  rewrite append_unfold.
  destruct (gzip_write_cases (log_io w) (line_of w src p) st)
    as [(e & -> & He) | (-> & Hio & b & Hb)].
  - cbn [fst snd]. now constructor.
  - match goal with
    | |- context [sqlite_insert ?io ?t ?h ?s ?pl ?st1] =>
        destruct (sqlite_insert_cases io t h s pl st1)
          as [(e & -> & He) | (-> & Hdb & Hts)]
    end; cbn [fst snd log index history]; rewrite <- app_assoc;
      cbn [app].
    + now apply index_failed.
    + now apply both_written.
Qed.

Lemma append_inv w src p st r st' :
  append w src p st = (r, st') -> append_outcome w src p st r st'.
Proof.
  intros H. pose proof (append_cases w src p st) as C.
  rewrite H in C. exact C.
Qed.

End AppendFacts.

(* ================================================================== *)
(** * Claims about append *)

Section AppendClaims.
Import Json Sqlite Logger Spec Samples JsonFacts AppendFacts.

Lemma hexdigest_length msg : length (Sha256.hexdigest msg) = 64%nat.
Proof.
  unfold Sha256.hexdigest, Sha256.digest.
  generalize (Sha256.blocks
                (length (Sha256.words (length (Sha256.pad msg)) (Sha256.pad msg)))
                (Sha256.words (length (Sha256.pad msg)) (Sha256.pad msg))
                Sha256.init).
  intros h. reflexivity.
Qed.

(** C4: the fingerprint is a function of the text [json.dumps(payload)]
    alone: it is the SHA-256 hex digest of that text, always computed,
    64 characters long, and two payloads with the same serialisation (in
    particular two equal payloads) have the same fingerprint. *)
Theorem C4_fingerprint_function_of_serialisation
  (p q : value) (H : dumps true p = dumps true q) :
  digest p = digest q /\
  digest p = Ok (Sha256.hexdigest (dumps true p)) /\
  length (Sha256.hexdigest (dumps true p)) = 64%nat.
Proof.
  rewrite !digest_total, H. auto using hexdigest_length.
Qed.

Lemma C4_witness :
  dumps true sample_payload = dumps true sample_payload /\
  digest sample_payload = digest sample_payload.
Proof.
  split; [reflexivity|].
  apply (C4_fingerprint_function_of_serialisation
           sample_payload sample_payload eq_refl).
Defined.

(** C9: the fingerprint of a stored record is the SHA-256 hex digest of
    [json.dumps(payload)], that is of the ASCII-escaped text with the keys
    in insertion order, while the index keeps [json.dumps(payload,
    ensure_ascii=False)]; for a payload with a non-ASCII character the
    bytes that were hashed are not the bytes of the stored text, and two
    dictionaries that differ only in the order of their keys are hashed
    differently. *)
Theorem C9_hashed_text_differs_from_stored_text
  (w : env) (src : pystr) (p : value) (st st' : store)
  (H : append w src p st = (Ok tt, st')) :
  (exists r, index st' = index st ++ [r] /\
             encode (dumps true p) = Ok (dumps true p) /\
             sha r = Sha256.hexdigest (dumps true p) /\
             payload r = dumps false p) /\
  (exists b, encode (dumps false accented_payload) = Ok b /\
             encode (dumps true accented_payload) = Ok (dumps true accented_payload) /\
             dumps true accented_payload <> b /\
             dumps true accented_payload <> dumps false accented_payload) /\
  (dumps true (JDict [(lit "a", JInt 1); (lit "b", JInt 2)]) <>
   dumps true (JDict [(lit "b", JInt 2); (lit "a", JInt 1)]) /\
   fingerprint (JDict [(lit "a", JInt 1); (lit "b", JInt 2)]) <>
   fingerprint (JDict [(lit "b", JInt 2); (lit "a", JInt 1)])).
Proof.
  apply append_inv in H. inversion H; subst; clear H.
  split; [|split].
  - exists (row_of w src p). cbn [index row_of sha payload].
    repeat split. apply encode_ascii, dumps_ascii.
  - eexists. split; [vm_compute; reflexivity|].
    split; [apply encode_ascii, dumps_ascii|].
    split; vm_compute; discriminate.
  - split; vm_compute; discriminate.
Qed.

Lemma C9_witness :
  exists r,
    index (snd (append quiet_world (lit "test") accented_payload empty)) = [r] /\
    sha r = Sha256.hexdigest (dumps true accented_payload) /\
    payload r = dumps false accented_payload.
Proof.
  assert (Happ : append quiet_world (lit "test") accented_payload empty =
                 (Ok tt, snd (append quiet_world (lit "test") accented_payload empty)))
    by (vm_compute; reflexivity).
  destruct (C9_hashed_text_differs_from_stored_text
              quiet_world (lit "test") accented_payload empty _ Happ)
    as [(r & Hi & _ & Hs & Hp) _].
  exists r. auto.
Defined.

(** C10: when the write to the log raises, [append] raises the same
    exception and nothing is inserted: the index is as before, and no
    insert was attempted. *)
Theorem C10_log_failure_leaves_index_unchanged
  (w : env) (src : pystr) (p : value) (st : store) (e : exn)
  (H : fst (gzip_write (log_io w) (line_of w src p) st) = Raise e) :
  fst (append w src p st) = Raise e /\
  index (snd (append w src p st)) = index st /\
  log (snd (append w src p st)) = log st /\
  history (snd (append w src p st)) =
    history st ++ [LogWrite (line_of w src p) (Raise e)].
Proof.
  rewrite append_unfold.
  destruct (gzip_write_cases (log_io w) (line_of w src p) st)
    as [(e' & E & _) | (E & _)]; rewrite E in *; cbn [fst snd] in *.
  - injection H as ->. cbn. auto.
  - discriminate.
Qed.

Lemma C10_witness :
  fst (append disk_full_world (lit "test") sample_payload empty) =
    Raise (OSError 28) /\
  index (snd (append disk_full_world (lit "test") sample_payload empty)) = [].
Proof.
  destruct (C10_log_failure_leaves_index_unchanged
              disk_full_world (lit "test") sample_payload empty (OSError 28)
              eq_refl) as (Hr & Hi & _).
  split; [exact Hr|exact Hi].
Defined.

Lemma consistent_length st :
  consistent st -> length (log st) = length (index st).
Proof. apply Forall2_length. Qed.

Lemma corresponds_line_row w src p :
  corresponds (line_of w src p) (row_of w src p).
Proof. exists p. split; reflexivity. Qed.

(** The index grows by one row exactly when [append] returns normally. *)
Lemma append_count w src p st :
  count (snd (append w src p st)) =
  count st + (if is_ok (fst (append w src p st)) then 1 else 0).
Proof.
  pose proof (append_cases w src p st) as C.
  inversion C; unfold count; cbn [index is_ok]; try lia.
  rewrite length_app. cbn. lia.
Qed.

Lemma run_count calls st :
  count (snd (run calls st)) = count st + successes (fst (run calls st)).
Proof.
  revert st. induction calls as [|c calls IH]; intros st.
  - cbn. unfold successes. cbn. lia.
  - cbn [run].
    pose proof (append_count (call_env c) (call_source c) (call_payload c) st) as A.
    destruct (append (call_env c) (call_source c) (call_payload c) st) as [r st1].
    specialize (IH st1). destruct (run calls st1) as [rs st2].
    cbn [fst snd] in *. rewrite IH, A. unfold successes. cbn [filter].
    destruct (is_ok r); cbn [length]; lia.
Qed.

(** C7: the number of rows of the index is the number of calls of
    [append] that returned normally: 0 for the empty stores, and after
    any sequence of calls, whatever failed in between, one row for each
    success and none for a failure. *)
Theorem C7_count_is_number_of_successful_appends :
  count empty = 0 /\
  (forall calls, count (snd (run calls empty)) = successes (fst (run calls empty))) /\
  (forall w src p st,
      count (snd (append w src p st)) =
      count st + (if is_ok (fst (append w src p st)) then 1 else 0)).
Proof.
  split; [reflexivity|]. split.
  - intros calls. rewrite run_count. reflexivity.
  - apply append_count.
Qed.

Example three_appends :
  let calls := [ Call quiet_world (lit "svc1") sample_payload;
                 Call quiet_world (lit "svc2") accented_payload;
                 Call quiet_world (lit "svc3") sample_payload ] in
  fst (run calls empty) = [Ok tt; Ok tt; Ok tt] /\
  count (snd (run calls empty)) = 3.
Proof. vm_compute. auto. Qed.

End AppendClaims.

(* ================================================================== *)
(** * ORDER BY ts DESC LIMIT n *)

Module SqliteFacts.
Import Sqlite Spec.

Lemma sorter_insert_perm r sorted :
  Permutation (sorter_insert r sorted) (r :: sorted).
Proof.
  induction sorted as [|x rest IH]; cbn [sorter_insert]; [reflexivity|].
  destruct (ts r <=? ts x); [|reflexivity].
  rewrite IH. apply perm_swap.
Qed.

Lemma sorter_insert_In r sorted x :
  In x (sorter_insert r sorted) <-> x = r \/ In x sorted.
Proof.
  split; intros H.
  - apply (Permutation_in _ (sorter_insert_perm r sorted)) in H.
    destruct H; auto.
  - apply (Permutation_in _ (Permutation_sym (sorter_insert_perm r sorted))).
    destruct H; [left|right]; auto.
Qed.

Lemma sorter_insert_sorted r sorted :
  ts_descending sorted -> ts_descending (sorter_insert r sorted).
Proof.
  unfold ts_descending.
  induction 1 as [|x rest Hrest IH Hx]; cbn [sorter_insert].
  - repeat constructor.
  - destruct (ts r <=? ts x) eqn:E.
    + apply Z.leb_le in E. constructor; [exact IH|].
      apply Forall_forall. intros y Hy.
      apply sorter_insert_In in Hy. destruct Hy as [-> | Hy]; [exact E|].
      rewrite Forall_forall in Hx. now apply Hx.
    + apply Z.leb_gt in E. constructor.
      * now constructor.
      * constructor; [lia|]. revert Hx. apply Forall_impl. intros; lia.
Qed.

(** Rows with equal time stamps stay in the order in which they reached
    the sorter. *)
Lemma sorter_insert_stable stamp r sorted :
  ts_descending sorted ->
  with_ts stamp (sorter_insert r sorted) = with_ts stamp sorted ++ with_ts stamp [r].
Proof.
  unfold ts_descending, with_ts.
  induction 1 as [|x rest Hrest IH Hx]; cbn [sorter_insert]; [reflexivity|].
  destruct (ts r <=? ts x) eqn:E.
  - cbn [filter]. rewrite IH. now destruct (ts x =? stamp).
  - apply Z.leb_gt in E. cbn [filter app].
    destruct (ts r =? stamp) eqn:Er; [|now rewrite app_nil_r].
    apply Z.eqb_eq in Er.
    destruct (ts x =? stamp) eqn:Ex; [apply Z.eqb_eq in Ex; lia|].
    assert (Hnone : filter (fun r0 => ts r0 =? stamp) rest = []).
    { clear IH Hrest. induction Hx as [|y rest Hy _ IHr]; [reflexivity|].
      cbn [filter].
      destruct (ts y =? stamp) eqn:Ey; [apply Z.eqb_eq in Ey; lia|].
      exact IHr. }
    now rewrite Hnone.
Qed.

Lemma fold_sorter_perm rows acc :
  Permutation (fold_left (fun sorted r => sorter_insert r sorted) rows acc)
              (acc ++ rows).
Proof.
  revert acc. induction rows as [|r rows IH]; intros acc; cbn [fold_left].
  - now rewrite app_nil_r.
  - rewrite IH, sorter_insert_perm. apply Permutation_middle.
Qed.

Lemma fold_sorter_sorted rows acc :
  ts_descending acc ->
  ts_descending (fold_left (fun sorted r => sorter_insert r sorted) rows acc).
Proof.
  revert acc. induction rows as [|r rows IH]; intros acc H; cbn [fold_left].
  - exact H.
  - apply IH, sorter_insert_sorted, H.
Qed.

Lemma with_ts_app stamp a b :
  with_ts stamp (a ++ b) = with_ts stamp a ++ with_ts stamp b.
Proof. apply filter_app. Qed.

Lemma fold_sorter_stable stamp rows acc :
  ts_descending acc ->
  with_ts stamp (fold_left (fun sorted r => sorter_insert r sorted) rows acc) =
  with_ts stamp acc ++ with_ts stamp rows.
Proof.
  revert acc. induction rows as [|r rows IH]; intros acc H; cbn [fold_left].
  - unfold with_ts at 3. cbn. now rewrite app_nil_r.
  - rewrite IH by now apply sorter_insert_sorted.
    rewrite sorter_insert_stable by exact H.
    rewrite <- app_assoc. f_equal.
    symmetry. apply (with_ts_app stamp [r] rows).
Qed.

(** [ORDER BY ts DESC] is the stable sort by decreasing time stamp. *)
Lemma order_by_perm rows : Permutation (order_by_ts_desc rows) rows.
Proof. apply (fold_sorter_perm rows []). Qed.

Lemma order_by_sorted rows : ts_descending (order_by_ts_desc rows).
Proof. apply fold_sorter_sorted. constructor. Qed.

Lemma order_by_stable stamp rows :
  with_ts stamp (order_by_ts_desc rows) = with_ts stamp rows.
Proof. apply (fold_sorter_stable stamp rows []). constructor. Qed.

(** LIMIT keeps an initial segment. *)
Lemma take_firstn n rows :
  0 <= n -> take n rows = firstn (Z.to_nat n) rows.
Proof.
  revert n. induction rows as [|r rows IH]; intros n Hn; cbn [take].
  - now rewrite firstn_nil.
  - destruct (n <=? 0) eqn:E.
    + apply Z.leb_le in E. replace n with 0 by lia. reflexivity.
    + apply Z.leb_gt in E. rewrite IH by lia.
      replace (Z.to_nat n) with (S (Z.to_nat (n - 1))) by lia.
      reflexivity.
Qed.

Lemma limit_prefix n rows : exists rest, rows = limit n rows ++ rest.
Proof.
  unfold limit. destruct (n <? 0) eqn:E.
  - exists []. now rewrite app_nil_r.
  - apply Z.ltb_ge in E. rewrite take_firstn by exact E.
    exists (skipn (Z.to_nat n) rows). now rewrite firstn_skipn.
Qed.

Lemma limit_length n rows :
  0 <= n -> Z.of_nat (length (limit n rows)) = Z.min n (Z.of_nat (length rows)).
Proof.
  intros Hn. unfold limit.
  destruct (n <? 0) eqn:E; [apply Z.ltb_lt in E; lia|].
  rewrite take_firstn by exact Hn. rewrite length_firstn. lia.
Qed.

Lemma limit_negative n rows : n < 0 -> limit n rows = rows.
Proof.
  intros Hn. unfold limit. destruct (n <? 0) eqn:E; [reflexivity|].
  apply Z.ltb_ge in E. lia.
Qed.

Lemma limit_zero rows : limit 0 rows = [].
Proof. destruct rows; reflexivity. Qed.

Lemma ts_descending_app_l a b : ts_descending (a ++ b) -> ts_descending a.
Proof.
  unfold ts_descending. induction a as [|x a IH]; intros H; [constructor|].
  cbn in H. inversion H; subst. constructor; [now apply IH|].
  apply Forall_app in H3. tauto.
Qed.

(** What the SELECT statement returns: an initial segment of the stable
    sort of the rows that satisfy the WHERE clause. *)
Lemma select_spec p n t :
  exists rest,
    Permutation (select p n t ++ rest) (filter p t) /\
    ts_descending (select p n t ++ rest) /\
    (forall stamp, with_ts stamp (select p n t ++ rest) = with_ts stamp (filter p t)) /\
    (n < 0 -> rest = []) /\
    (0 <= n -> Z.of_nat (length (select p n t)) =
               Z.min n (Z.of_nat (length (filter p t)))).
Proof.
  unfold select.
  destruct (limit_prefix n (order_by_ts_desc (filter p t))) as [rest E].
  exists rest. rewrite <- E. repeat split.
  - apply order_by_perm.
  - apply order_by_sorted.
  - intros stamp. apply order_by_stable.
  - intros Hn. rewrite limit_negative in E by exact Hn.
    apply (f_equal (@length row)) in E. rewrite length_app in E.
    destruct rest; [reflexivity|cbn in E; lia].
  - intros Hn. rewrite limit_length by exact Hn.
    now rewrite (Permutation_length (order_by_perm _)).
Qed.

Lemma select_In p n t r : In r (select p n t) -> In r t /\ p r = true.
Proof.
  intros H. destruct (select_spec p n t) as (rest & Hperm & _).
  apply filter_In. apply (Permutation_in _ Hperm). apply in_or_app. now left.
Qed.

Lemma filter_true (t : table) : filter (fun _ => true) t = t.
Proof. induction t as [|r t IH]; cbn; [reflexivity|now rewrite IH]. Qed.

End SqliteFacts.

(* ================================================================== *)
(** * Logger.tail *)

Section TailClaims.
Import Json Sqlite Logger Spec Samples SqliteFacts.

Lemma mapM_decoded rows :
  Forall (fun r => exists v, loads (payload r) = Ok v) rows ->
  exists entries, mapM decode_row rows = Ok entries /\ decoded rows entries.
Proof.
  induction 1 as [|r rows [v Hv] _ (entries & IH & Hd)].
  - exists []. split; [reflexivity|constructor].
  - exists (Entry (ts r) (sha r) (source r) v :: entries).
    assert (E : decode_row r = Ok (Entry (ts r) (sha r) (source r) v)).
    { unfold decode_row. now rewrite Hv. }
    cbn [mapM]. rewrite E, IH. split; [reflexivity|now constructor].
Qed.

Lemma decoded_length rows entries :
  decoded rows entries -> length entries = length rows.
Proof. intros H. symmetry. exact (Forall2_length H). Qed.

Lemma select_decodable st p n :
  decodable st ->
  Forall (fun r => exists v, loads (payload r) = Ok v) (select p n (index st)).
Proof.
  intros Hd. apply Forall_forall. intros r Hr.
  apply select_In in Hr. destruct Hr as [Hr _].
  unfold decodable in Hd. rewrite Forall_forall in Hd. now apply Hd.
Qed.

Lemma bind_int_in_range n : in_int64 n = true -> bind_int n = Ok n.
Proof. unfold bind_int. now intros ->. Qed.

Lemma in_int64_iff n :
  in_int64 n = true <-> -9223372036854775808 <= n <= 9223372036854775807.
Proof. unfold in_int64. rewrite andb_true_iff, !Z.leb_le. tauto. Qed.

(** [tail] returns the decoded rows of the SELECT statement. *)
Lemma tail_returns st n :
  in_int64 n = true -> decodable st ->
  exists entries,
    tail None n st = Ok entries /\
    decoded (select (fun _ => true) n (index st)) entries.
Proof.
  intros Hn Hd. unfold tail. rewrite (bind_int_in_range n Hn). cbn [bind].
  apply mapM_decoded, select_decodable, Hd.
Qed.

Lemma prefix_of_with_ts stamp rows rest t :
  with_ts stamp (rows ++ rest) = with_ts stamp t ->
  prefix_of (with_ts stamp rows) (with_ts stamp t).
Proof.
  intros H. exists (with_ts stamp rest). now rewrite <- H, with_ts_app.
Qed.

(** C3 (as the code has it): for [0 < n <= 2^63 - 1], [tail(n)] returns
    exactly [min(n, totalRecords)] rows, by decreasing time stamp; among
    rows with the same time stamp the one inserted first comes first.
    The rows returned are the first ones of the stable sort of the whole
    table by decreasing time stamp. *)
Theorem C3_tail_length_order_ties
  (st : store) (n : Z)
  (Hpos : 0 < n) (Hmax : n <= 9223372036854775807) (Hdec : decodable st) :
  exists rows rest entries,
    tail None n st = Ok entries /\
    decoded rows entries /\
    Z.of_nat (length entries) = Z.min n (count st) /\
    ts_descending rows /\
    ties_earliest_first (index st) rows /\
    Permutation (rows ++ rest) (index st) /\
    ts_descending (rows ++ rest) /\
    (forall stamp, with_ts stamp (rows ++ rest) = with_ts stamp (index st)).
Proof.
  assert (Hn : in_int64 n = true) by (apply in_int64_iff; lia).
  destruct (tail_returns st n Hn Hdec) as (entries & Ht & Hd).
  destruct (select_spec (fun _ => true) n (index st))
    as (rest & Hperm & Hsorted & Hstable & _ & Hlen).
  rewrite filter_true in *.
  exists (select (fun _ => true) n (index st)), rest, entries.
  repeat split; auto.
  - rewrite (decoded_length _ _ Hd). rewrite Hlen by lia. reflexivity.
  - eapply ts_descending_app_l, Hsorted.
  - intros stamp. eapply prefix_of_with_ts, Hstable.
Qed.

Lemma index_same_second_store :
  index same_second_store =
    [ row_of quiet_world (lit "svc1") hello_payload;
      row_of quiet_world (lit "svc2") world_payload ].
Proof. vm_compute. reflexivity. Qed.

Lemma decodable_same_second_store : decodable same_second_store.
Proof.
  unfold decodable. rewrite index_same_second_store.
  constructor; [exists hello_payload; vm_compute; reflexivity|].
  constructor; [exists world_payload; vm_compute; reflexivity|].
  constructor.
Qed.

Lemma C3_witness :
  exists entries,
    tail None 1 same_second_store = Ok entries /\
    Z.of_nat (length entries) = 1.
Proof.
  destruct (C3_tail_length_order_ties same_second_store 1)
    as (rows & rest & entries & Ht & _ & Hl & _);
    [lia | lia | exact decodable_same_second_store |].
  exists entries. split; [exact Ht|exact Hl].
Defined.

(** C3 as stated fails: after two appends within one second, [tail(2)]
    lists the row inserted first before the row inserted last, and
    [tail(1)] is the row inserted first; and [tail(2^63)] raises. *)
Lemma C3_counterexample :
  index same_second_store =
    [ row_of quiet_world (lit "svc1") hello_payload;
      row_of quiet_world (lit "svc2") world_payload ] /\
  tail None 2 same_second_store =
    Ok [ Entry 1700000000 (fingerprint hello_payload) (lit "svc1") hello_payload;
         Entry 1700000000 (fingerprint world_payload) (lit "svc2") world_payload ] /\
  tail None 1 same_second_store =
    Ok [ Entry 1700000000 (fingerprint hello_payload) (lit "svc1") hello_payload ] /\
  ~ ties_latest_first (index same_second_store)
      (select (fun _ => true) 2 (index same_second_store)) /\
  tail None 9223372036854775808 same_second_store = Raise OverflowError.
Proof.
  split; [vm_compute; reflexivity|].
  split; [vm_compute; reflexivity|].
  split; [vm_compute; reflexivity|].
  split; [|vm_compute; reflexivity].
  intros H. destruct (H 1700000000) as [rest E].
  vm_compute in E. discriminate E.
Qed.

(** C5 (as the code has it): [tail(0)] returns an empty sequence for
    every store; a negative [n] is no limit: for [-2^63 <= n < 0],
    [tail(n)] returns every row of the store, by decreasing time stamp. *)
Theorem C5_tail_zero_empty_negative_all
  (st : store) (n : Z) (Hn : n <= 0) (Hmin : -9223372036854775808 <= n) :
  (n = 0 -> tail None n st = Ok []) /\
  (n < 0 -> decodable st ->
   exists rows entries,
     tail None n st = Ok entries /\ decoded rows entries /\
     Z.of_nat (length entries) = count st /\
     Permutation rows (index st) /\ ts_descending rows).
Proof.
  assert (Hr : in_int64 n = true) by (apply in_int64_iff; lia).
  split.
  - intros ->. unfold tail, select. cbn [bind_int in_int64 bind].
    change (bind_int 0) with (Ok (A := Z) 0). cbn [bind].
    now rewrite limit_zero.
  - intros Hneg Hdec.
    destruct (tail_returns st n Hr Hdec) as (entries & Ht & Hd).
    destruct (select_spec (fun _ => true) n (index st))
      as (rest & Hperm & Hsorted & _ & Hrest & _).
    rewrite (Hrest Hneg), app_nil_r, filter_true in *.
    exists (select (fun _ => true) n (index st)), entries.
    repeat split; auto.
    rewrite (decoded_length _ _ Hd). unfold count.
    now rewrite (Permutation_length Hperm).
Qed.

Lemma C5_witness : tail None 0 same_second_store = Ok [].
Proof.
  apply (C5_tail_zero_empty_negative_all same_second_store 0); lia.
Defined.

(** C5 as stated fails for a negative [n]: [tail(-1)] returns the rows. *)
Lemma C5_counterexample :
  tail None (-1) one_record_store =
  Ok [ Entry 1700000000 (fingerprint sample_payload) (lit "test") sample_payload ].
Proof. vm_compute. reflexivity. Qed.

End TailClaims.

(* ================================================================== *)
(** * LIKE *)

Module LikeFacts.
Import Sqlite Spec.

Lemma patternCompare_percent p s :
  patternCompare (37 :: p) s =
  patternCompare p s ||
  match s with
  | [] => false
  | _ :: s' => patternCompare (37 :: p) s'
  end.
Proof. destruct s; reflexivity. Qed.

Lemma patternCompare_char c p s :
  c <> 37 ->
  patternCompare (c :: p) s =
  match s with
  | [] => false
  | c2 :: s' => ((c =? 95) || like_eq c c2) && patternCompare p s'
  end.
Proof.
  intros Hc. cbn [patternCompare].
  destruct (c =? 37) eqn:E; [apply Z.eqb_eq in E; contradiction|reflexivity].
Qed.

(** [%] matches any run of characters. *)
Lemma patternCompare_percent_iff p s :
  patternCompare (37 :: p) s = true <->
  exists pre post, s = pre ++ post /\ patternCompare p post = true.
Proof.
  split.
  - induction s as [|c s IH]; rewrite patternCompare_percent; intros H.
    + rewrite orb_false_r in H. now exists [], [].
    + apply orb_true_iff in H. destruct H as [H|H].
      * now exists [], (c :: s).
      * destruct (IH H) as (pre & post & -> & Hp). now exists (c :: pre), post.
  - intros (pre & post & -> & Hp).
    induction pre as [|c pre IH]; rewrite patternCompare_percent.
    + cbn [app]. now rewrite Hp.
    + cbn [app]. rewrite IH. apply orb_true_r.
Qed.

Lemma patternCompare_percent_only s : patternCompare [37] s = true.
Proof.
  apply patternCompare_percent_iff. exists s, []. now rewrite app_nil_r.
Qed.



(** Any pattern matches itself, whatever follows. *)
Lemma patternCompare_self term post :
  patternCompare (term ++ [37]) (term ++ post) = true.
Proof.
  induction term as [|c term IH]; cbn [app].
  - apply patternCompare_percent_only.
  - destruct (Z.eq_dec c 37) as [->|Hc].
    + apply patternCompare_percent_iff. now exists [37], (term ++ post).
    + rewrite (patternCompare_char c _ _ Hc). rewrite IH.
      unfold like_eq. rewrite Z.eqb_refl. cbn. now rewrite orb_true_r.
Qed.

Lemma c_str_no_nul s : no_nul s -> c_str s = s.
Proof.
  induction 1 as [|c s Hc _ IH]; [reflexivity|].
  cbn [c_str]. apply Z.eqb_neq in Hc. now rewrite Hc, IH.
Qed.



Lemma no_nul_app a b : no_nul a -> no_nul b -> no_nul (a ++ b).
Proof. intros. now apply Forall_app. Qed.



(** A text that contains the term, character for character, matches,
    whatever wildcards the term has. *)
Lemma like_contains term text :
  no_nul term -> no_nul text -> contains term text ->
  like ([37] ++ term ++ [37]) text = true.
Proof.
  intros Ht Hx (pre & post & E). unfold like.
  rewrite (c_str_no_nul text Hx).
  rewrite c_str_no_nul.
  2:{ apply no_nul_app; [repeat constructor; lia|].
      apply no_nul_app; [exact Ht|repeat constructor; lia]. }
  cbn [app]. apply patternCompare_percent_iff.
  exists pre, (term ++ post). split; [exact E|apply patternCompare_self].
Qed.

End LikeFacts.

(* ================================================================== *)
(** * Logger.search *)

Section SearchClaims.
Import Json Sqlite Logger Spec Samples SqliteFacts LikeFacts.

Lemma bind_text_encodable s : (exists b, encode s = Ok b) -> bind_text s = Ok s.
Proof. intros [b H]. unfold bind_text. now rewrite H. Qed.

Lemma pattern_encodable term :
  (exists b, encode term = Ok b) -> exists b, encode ([37] ++ term ++ [37]) = Ok b.
Proof.
  intros [b H]. exists ([37] ++ b ++ [37]).
  apply (encode_app [37] _ [37]); [reflexivity|].
  apply encode_app; [exact H|reflexivity].
Qed.

(** [search] returns the decoded rows of the SELECT statement. *)
Lemma search_returns st term limit :
  (exists b, encode term = Ok b) -> in_int64 limit = true -> decodable st ->
  exists entries,
    search None term limit st = Ok entries /\
    decoded (select (fun r => like ([37] ++ term ++ [37]) (payload r)) limit
                    (index st)) entries.
Proof.
  intros Henc Hlim Hdec. unfold search.
  rewrite (bind_text_encodable _ (pattern_encodable term Henc)). cbn [bind].
  rewrite (bind_int_in_range limit Hlim). cbn [bind].
  apply mapM_decoded, select_decodable, Hdec.
Qed.






End SearchClaims.

(* ================================================================== *)
(** * Ingest, then search *)

Section RoundTripScenario.
Import Json Sqlite Logger Spec Samples JsonFacts AppendFacts SqliteFacts.

(** The text of a line of the log, field by field. *)
Lemma rec_text t h s p :
  dumps false (rec t h s p) =
  [123] ++
  (encode_basestring false key_ts ++ key_separator ++ int_repr t) ++
  item_separator ++
  (encode_basestring false key_sha ++ key_separator ++
   encode_basestring false h) ++
  item_separator ++
  (encode_basestring false key_source ++ key_separator ++
   encode_basestring false s) ++
  item_separator ++
  (encode_basestring false key_payload ++ key_separator ++ dumps false p) ++
  [125].
Proof.
  unfold rec. cbn [dumps map join]. now rewrite <- !app_assoc.
Qed.

Lemma ascii_only_closed s :
  forallb (fun c => (0 <=? c) && (c <? 128)) s = true -> ascii_only s.
Proof.
  intros H. apply Forall_forall. intros c Hc.
  rewrite forallb_forall in H. specialize (H c Hc).
  apply andb_true_iff in H. destruct H as [H1 H2].
  apply Z.leb_le in H1. apply Z.ltb_lt in H2. lia.
Qed.

Lemma sample_line_ascii w : ascii_only (line_of w (lit "test") sample_payload).
Proof.
  unfold line_of. rewrite rec_text.
  repeat first
    [ apply ascii_only_app
    | apply int_repr_ascii
    | apply ascii_only_closed; vm_compute; reflexivity ].
Qed.

Lemma sample_bound_row w :
  in_int64 (now w) = true ->
  bound_row (now w) (fingerprint sample_payload) (lit "test")
            (dumps false sample_payload) =
  Ok (row_of w (lit "test") sample_payload).
Proof.
  intros Hts. unfold bound_row. rewrite (bind_int_in_range _ Hts). cbn [bind].
  replace (bind_text (fingerprint sample_payload))
    with (Ok (fingerprint sample_payload)) by (vm_compute; reflexivity).
  replace (bind_text (lit "test")) with (Ok (lit "test"))
    by (vm_compute; reflexivity).
  replace (bind_text (dumps false sample_payload))
    with (Ok (dumps false sample_payload)) by (vm_compute; reflexivity).
  reflexivity.
Qed.

Lemma select_singleton p n r :
  p r = true -> 0 < n -> select p n [r] = [r].
Proof.
  intros Hp Hn. unfold select, limit. cbn [filter]. rewrite Hp.
  cbn [order_by_ts_desc fold_left sorter_insert take].
  destruct (n <? 0) eqn:E1; [reflexivity|].
  destruct (n <=? 0) eqn:E2; [apply Z.leb_le in E2; lia|reflexivity].
Qed.

(** C8: on empty stores, when nothing fails, ingesting
    [{"a": 1, "b": [1, 2, 3]}] from source ["test"] succeeds, and
    [search("a")] then returns exactly one row, whose payload, decoded
    from the stored text, is [{"a": 1, "b": [1, 2, 3]}]. *)
Theorem C8_ingest_search_roundtrip
  (w : env)
  (Hlog : log_io w = None) (Hdb : db_io w = None)
  (Hts : in_int64 (now w) = true) :
  fst (append w (lit "test") sample_payload empty) = Ok tt /\
  index (snd (append w (lit "test") sample_payload empty)) =
    [row_of w (lit "test") sample_payload] /\
  loads (payload (row_of w (lit "test") sample_payload)) = Ok sample_payload /\
  search None (lit "a") 10 (snd (append w (lit "test") sample_payload empty)) =
    Ok [ Entry (now w) (fingerprint sample_payload) (lit "test") sample_payload ].
Proof.
  destruct (append w (lit "test") sample_payload empty) as [r st'] eqn:E.
  apply append_inv in E.
  pose proof (encode_ascii _ (sample_line_ascii w)) as Henc.
  pose proof (sample_bound_row w Hts) as Hrow.
  inversion E as [e He | e _ He | _ _ _]; subst; clear E; cbn [fst snd index].
  - destruct He as [He | [_ He]]; congruence.
  - destruct He as [He | [_ He]]; congruence.
  - assert (Hloads : loads (dumps false sample_payload) = Ok sample_payload)
      by (vm_compute; reflexivity).
    split; [reflexivity|]. split; [reflexivity|]. split; [exact Hloads|].
    assert (Hpat : bind_text ([37] ++ lit "a" ++ [37]) = Ok ([37] ++ lit "a" ++ [37]))
      by (vm_compute; reflexivity).
    assert (Hlike : like ([37] ++ lit "a" ++ [37])
                         (payload (row_of w (lit "test") sample_payload)) = true)
      by (vm_compute; reflexivity).
    unfold search. rewrite Hpat. cbn [bind].
    rewrite (bind_int_in_range 10 eq_refl). cbn [bind index empty app].
    rewrite select_singleton by (exact Hlike || lia).
    cbn [mapM]. unfold decode_row at 1. cbn [row_of payload ts sha source].
    rewrite Hloads. reflexivity.
Qed.

Lemma C8_witness :
  search None (lit "a") 10
         (snd (append quiet_world (lit "test") sample_payload empty)) =
  Ok [ Entry 1700000000 (fingerprint sample_payload) (lit "test") sample_payload ].
Proof.
  apply (C8_ingest_search_roundtrip quiet_world); reflexivity.
Defined.

Example sample_fingerprint :
  fingerprint sample_payload =
  lit "a2c35a8a1e57b6d0f2a4453153a37aebbb862bc811014bed102b95e7773a4171".
Proof. vm_compute. reflexivity. Qed.

End RoundTripScenario.

(* ================================================================== *)
(** * Invariants of the two stores over any sequence of calls *)

Section StoreInvariants.
Import Json Sqlite Logger Spec Samples AppendFacts SqliteFacts.

Lemma embeds_app rows1 lines1 rows2 lines2 :
  embeds rows1 lines1 -> embeds rows2 lines2 ->
  embeds (rows1 ++ rows2) (lines1 ++ lines2).
Proof.
  intros H1 H2. induction H1; cbn [app].
  - exact H2.
  - now apply embeds_skip.
  - now apply embeds_match.
Qed.

Lemma embeds_length rows lines :
  embeds rows lines -> (length rows <= length lines)%nat.
Proof. induction 1; cbn [length]; lia. Qed.

Lemma append_embeds w src p st :
  embeds (index st) (log st) ->
  embeds (index (snd (append w src p st))) (log (snd (append w src p st))).
Proof.
  intros H. pose proof (append_cases w src p st) as C.
  inversion C; cbn [log index].
  - exact H.
  - rewrite <- (app_nil_r (index st)). apply embeds_app; [exact H|].
    apply embeds_skip, embeds_nil.
  - apply embeds_app; [exact H|].
    apply embeds_match; [apply corresponds_line_row|apply embeds_nil].
Qed.

Lemma run_embeds calls st :
  embeds (index st) (log st) ->
  embeds (index (snd (run calls st))) (log (snd (run calls st))).
Proof.
  revert st. induction calls as [|c calls IH]; intros st H; [exact H|].
  cbn [run].
  pose proof (append_embeds (call_env c) (call_source c) (call_payload c) st H) as A.
  destruct (append (call_env c) (call_source c) (call_payload c) st) as [r st1].
  specialize (IH st1 A). destruct (run calls st1) as [rs st2]. exact IH.
Qed.

(** X1: whatever fails during a sequence of [append] calls, the index
    never gets ahead of the log: every row of the index has its line in
    the log, in the same order, and the log has at least as many lines as
    the index has rows. *)
Theorem X1_index_rows_have_log_lines (calls : list call) :
  embeds (index (snd (run calls empty))) (log (snd (run calls empty))) /\
  (length (index (snd (run calls empty))) <=
   length (log (snd (run calls empty))))%nat.
Proof.
  assert (H : embeds (index (snd (run calls empty))) (log (snd (run calls empty))))
    by (apply run_embeds; constructor).
  split; [exact H|apply embeds_length, H].
Qed.

Lemma append_grows w src p st :
  exists lines rows,
    log (snd (append w src p st)) = log st ++ lines /\
    index (snd (append w src p st)) = index st ++ rows /\
    (length rows <= length lines <= 1)%nat.
Proof.
  pose proof (append_cases w src p st) as C. inversion C; cbn [log index].
  - exists [], []. rewrite !app_nil_r. cbn. auto.
  - exists [line_of w src p], []. rewrite app_nil_r. cbn. auto.
  - exists [line_of w src p], [row_of w src p]. cbn. auto.
Qed.

(** X2: the stores are append-only.  After any sequence of [append]
    calls, started in any state, the log is the old log followed by new
    lines and the index is the old index followed by new rows: nothing
    written earlier is changed, dropped or moved. *)
Theorem X2_stores_only_grow (calls : list call) (st : store) :
  exists lines rows,
    log (snd (run calls st)) = log st ++ lines /\
    index (snd (run calls st)) = index st ++ rows /\
    (length rows <= length lines <= length calls)%nat.
Proof.
  revert st. induction calls as [|c calls IH]; intros st.
  - exists [], []. cbn. rewrite !app_nil_r. auto.
  - cbn [run].
    destruct (append_grows (call_env c) (call_source c) (call_payload c) st)
      as (l1 & r1 & Hl1 & Hr1 & Hn1).
    destruct (append (call_env c) (call_source c) (call_payload c) st) as [r st1].
    destruct (IH st1) as (l2 & r2 & Hl2 & Hr2 & Hn2).
    destruct (run calls st1) as [rs st2]. cbn [fst snd] in *.
    exists (l1 ++ l2), (r1 ++ r2).
    rewrite Hl2, Hr2, Hl1, Hr1, <- !app_assoc, !length_app. cbn [length].
    repeat split; lia.
Qed.

End StoreInvariants.

(* ================================================================== *)
(** * Which log lines have a row *)

Section LogAndIndex.
Import Json Sqlite Logger Spec Samples Orphan AppendFacts.

(** When the index has as many rows as the log has lines, no line was
    skipped: they match one by one. *)
Lemma embeds_full rows lines :
  embeds rows lines -> length rows = length lines ->
  Forall2 corresponds lines rows.
Proof.
  induction 1 as [|rows line lines H IH|r rows line lines Hc H IH]; intros L.
  - constructor.
  - apply embeds_length in H. cbn [length] in L. lia.
  - constructor; [exact Hc|]. apply IH. cbn [length] in L. lia.
Qed.

(** C1 (as the code has it): a successful [append] adds exactly one line
    to the log and one row to the index, and they hold the same record:
    the row has the time stamp, fingerprint and source of the line's
    record and its payload text is the serialisation of that record's
    payload.  Every line of the log has its row after the call when
    this was so before it; on stores written by [append] this is the
    case exactly when the index has as many rows as the log has lines,
    that is, when no insert failed after its line was written.  A line
    whose insert failed stays without a row. *)
Theorem C1_log_lines_have_index_rows
  (w : env) (src : pystr) (p : value) (st st' : store)
  (H : append w src p st = (Ok tt, st')) :
  (exists line r,
      log st' = log st ++ [line] /\ index st' = index st ++ [r] /\
      corresponds line r /\
      line = dumps false (rec (ts r) (sha r) (source r) p) ++ [10] /\
      ts r = now w /\ digest p = Ok (sha r) /\ source r = src /\
      payload r = dumps false p) /\
  (consistent st -> consistent st') /\
  (forall calls, st = snd (run calls empty) ->
     (consistent st' <-> length (index st) = length (log st))).
Proof.
  apply append_inv in H. inversion H; subst; clear H.
  assert (Keep : consistent st ->
                 consistent (Store (log st ++ [line_of w src p])
                                   (index st ++ [row_of w src p])
                                   (history st ++
                                    [LogWrite (line_of w src p) (Ok tt);
                                     IndexInsert (now w) (fingerprint p) src
                                       (dumps false p) (Ok tt)]))).
  { intros Hc. unfold consistent in *. cbn [log index].
    apply Forall2_app; [exact Hc|].
    constructor; [apply corresponds_line_row|constructor]. }
  split; [|split].
  - exists (line_of w src p), (row_of w src p). cbn [log index].
    repeat split; try reflexivity.
    + apply corresponds_line_row.
    + apply digest_fingerprint.
  - exact Keep.
  - intros calls Hst. split.
    + intros Hc. apply consistent_length in Hc. cbn [log index] in Hc.
      rewrite !length_app in Hc. cbn [length] in Hc. lia.
    + intros L. apply Keep. unfold consistent.
      apply embeds_full; [|exact L].
      rewrite Hst. apply run_embeds. constructor.
Qed.

Lemma C1_witness :
  consistent (snd (append quiet_world (lit "test") sample_payload empty)).
Proof.
  assert (Happ : append quiet_world (lit "test") sample_payload empty =
                 (Ok tt, snd (append quiet_world (lit "test") sample_payload empty)))
    by (vm_compute; reflexivity).
  apply (proj1 (proj2 (C1_log_lines_have_index_rows
                         quiet_world (lit "test") sample_payload empty _ Happ))).
  constructor.
Defined.

Lemma after_orphan_stores :
  append quiet_world (lit "svc2") world_payload orphan_store =
    (Ok tt, after_orphan) /\
  log after_orphan =
    [orphan_line; line_of quiet_world (lit "svc2") world_payload] /\
  index after_orphan = [row_of quiet_world (lit "svc2") world_payload].
Proof. vm_compute. auto. Qed.

(** The line of the record of svc1 is not the line of a record of
    svc2, whatever its payload. *)
Lemma orphan_line_differs p :
  orphan_line <>
  dumps false (rec 1700000000 (fingerprint world_payload) (lit "svc2") p) ++ [10].
Proof.
  intros E. rewrite rec_text in E.
  apply (f_equal (fun l => nth 108 l 0)) in E.
  vm_compute in E. discriminate E.
Qed.

(** The claim as stated fails after a failed insert: the call that
    follows succeeds, and the line of the failed call is in the log with
    no row in the index. *)
Lemma C1_counterexample :
  fst (append quiet_world (lit "svc2") world_payload orphan_store) = Ok tt /\
  ~ (forall line, In line (log after_orphan) ->
       exists r, In r (index after_orphan) /\ corresponds line r).
Proof.
  destruct after_orphan_stores as (Happ & Hlog & Hidx).
  split; [now rewrite Happ|].
  intros Hall.
  assert (Hin : In orphan_line (log after_orphan)) by (rewrite Hlog; now left).
  destruct (Hall orphan_line Hin) as (r & Hr & p & Hline & _).
  rewrite Hidx in Hr. destruct Hr as [<-|[]].
  exact (orphan_line_differs p Hline).
Qed.

End LogAndIndex.

(* ================================================================== *)
(** * How tail, search and append compose *)

Section ReadComposition.
Import Json Sqlite Logger Spec Samples AppendFacts SqliteFacts.

Lemma sorter_insert_front r sorted :
  Forall (fun x => ts x < ts r) sorted -> sorter_insert r sorted = r :: sorted.
Proof.
  intros H. destruct H as [|x rest Hx _]; [reflexivity|].
  cbn [sorter_insert]. destruct (ts r <=? ts x) eqn:E; [|reflexivity].
  apply Z.leb_le in E. lia.
Qed.

Lemma ts_descending_cons_inv x rest :
  ts_descending (x :: rest) ->
  ts_descending rest /\ Forall (fun y => ts y <= ts x) rest.
Proof. intros H. inversion H; subst. auto. Qed.




Lemma decoded_functional rows e1 e2 :
  decoded rows e1 -> decoded rows e2 -> e1 = e2.
Proof.
  intros H1. revert e2. induction H1 as [|r e rows es Hr _ IH]; intros e2 H2.
  - now inversion H2.
  - inversion H2 as [|? e' ? es' Hr' Hes']; subst.
    rewrite Hr in Hr'. injection Hr' as <-. f_equal. now apply IH.
Qed.

Lemma take_split n m rows :
  0 <= n <= m -> exists extra, take m rows = take n rows ++ extra.
Proof.
  intros H. rewrite !take_firstn by lia.
  exists (skipn (Z.to_nat n) (firstn (Z.to_nat m) rows)).
  rewrite <- (firstn_skipn (Z.to_nat n) (firstn (Z.to_nat m) rows)) at 1.
  f_equal. rewrite firstn_firstn. f_equal. lia.
Qed.

(** X4: asking [tail] for more rows only adds rows at the end: for
    [0 <= n <= m], [tail(n)] is an initial segment of [tail(m)]. *)
Theorem X4_tail_prefix_monotone
  (st : store) (n m : Z)
  (Hn : 0 <= n <= m) (Hm : m <= 9223372036854775807) (Hdec : decodable st) :
  exists shorter longer extra,
    tail None n st = Ok shorter /\
    tail None m st = Ok longer /\
    longer = shorter ++ extra.
Proof.
  assert (Hrn : in_int64 n = true) by (apply in_int64_iff; lia).
  assert (Hrm : in_int64 m = true) by (apply in_int64_iff; lia).
  destruct (tail_returns st n Hrn Hdec) as (e1 & Ht1 & Hd1).
  destruct (tail_returns st m Hrm Hdec) as (e2 & Ht2 & Hd2).
  exists e1, e2. unfold select, Sqlite.limit in Hd1, Hd2.
  destruct (n <? 0) eqn:En; [apply Z.ltb_lt in En; lia|].
  destruct (m <? 0) eqn:Em; [apply Z.ltb_lt in Em; lia|].
  destruct (take_split n m (order_by_ts_desc (filter (fun _ => true) (index st))) Hn)
    as [extra Hx].
  rewrite Hx in Hd2. apply Forall2_app_inv_l in Hd2.
  destruct Hd2 as (ea & eb & Ha & _ & ->).
  exists eb. repeat split; try assumption.
  f_equal. exact (decoded_functional _ _ _ Ha Hd1).
Qed.

Lemma X4_witness :
  exists shorter longer extra,
    tail None 1 same_second_store = Ok shorter /\
    tail None 2 same_second_store = Ok longer /\
    longer = shorter ++ extra.
Proof.
  apply (X4_tail_prefix_monotone same_second_store 1 2);
    [lia | lia | exact decodable_same_second_store].
Defined.

Lemma order_by_snoc rows r :
  order_by_ts_desc (rows ++ [r]) = sorter_insert r (order_by_ts_desc rows).
Proof. unfold order_by_ts_desc. now rewrite fold_left_app. Qed.

Lemma order_by_forall (P : row -> Prop) rows :
  Forall P rows -> Forall P (order_by_ts_desc rows).
Proof.
  intros H. apply Forall_forall. intros x Hx.
  apply (Permutation_in _ (order_by_perm rows)) in Hx.
  rewrite Forall_forall in H. now apply H.
Qed.

Lemma limit_one_cons r rows : Sqlite.limit 1 (r :: rows) = [r].
Proof. unfold Sqlite.limit. cbn. now destruct rows. Qed.

(** X5: [tail(1)] right after a successful [append] is the record just
    written exactly when its time stamp is larger than every time stamp
    already stored.  If some stored row has the same or a later time
    stamp (a second call within one second, or a clock set back),
    [tail(1)] is what it was before the call. *)
Theorem X5_tail_one_after_append
  (w : env) (src : pystr) (p : value) (st st' : store)
  (Happ : append w src p st = (Ok tt, st'))
  (Hdec : decodable st') :
  (Forall (fun r => ts r < now w) (index st) ->
   exists v,
     loads (dumps false p) = Ok v /\
     tail None 1 st' = Ok [Entry (now w) (fingerprint p) src v]) /\
  (forall r, In r (index st) -> now w <= ts r ->
             tail None 1 st' = tail None 1 st).
Proof.
  apply append_inv in Happ. inversion Happ; subst; clear Happ.
  unfold decodable in Hdec. cbn [index] in Hdec.
  split.
  - intros Hnew.
    apply Forall_app in Hdec. destruct Hdec as [_ Hrow].
    inversion Hrow as [|? ? [v Hv] _]; subst. cbn [row_of payload] in Hv.
    exists v. split; [exact Hv|].
    unfold tail, select. cbn [bind index].
    change (bind_int 1) with (Ok (A := Z) 1). cbn [bind].
    rewrite filter_true, order_by_snoc.
    rewrite sorter_insert_front by (apply order_by_forall; exact Hnew).
    rewrite limit_one_cons. cbn [mapM]. unfold decode_row.
    cbn [row_of payload ts sha source]. rewrite Hv. reflexivity.
  - intros r Hr Hle. unfold tail, select. cbn [index].
    rewrite !filter_true, order_by_snoc.
    pose proof (order_by_sorted (index st)) as Hs.
    assert (Hin : In r (order_by_ts_desc (index st)))
      by (apply (Permutation_in _ (Permutation_sym (order_by_perm _))), Hr).
    destruct (order_by_ts_desc (index st)) as [|h rest]; [contradiction|].
    apply ts_descending_cons_inv in Hs. destruct Hs as [_ Hh].
    assert (Hhr : ts r <= ts h).
    { destruct Hin as [<-|Hin]; [lia|].
      rewrite Forall_forall in Hh. now apply Hh. }
    cbn [sorter_insert row_of ts].
    destruct (now w <=? ts h) eqn:E; [|apply Z.leb_gt in E; lia].
    change (bind_int 1) with (Ok (A := Z) 1). cbn [bind].
    now rewrite !limit_one_cons.
Qed.

Lemma X5_witness :
  tail None 1 same_second_store = tail None 1 (snd (append quiet_world (lit "svc1") hello_payload empty)).
Proof.
  assert (Hfirst : index (snd (append quiet_world (lit "svc1") hello_payload empty)) =
                   [row_of quiet_world (lit "svc1") hello_payload])
    by (vm_compute; reflexivity).
  assert (Happ : append quiet_world (lit "svc2") world_payload
                   (snd (append quiet_world (lit "svc1") hello_payload empty)) =
                 (Ok tt, same_second_store))
    by (vm_compute; reflexivity).
  destruct (X5_tail_one_after_append _ _ _ _ _ Happ decodable_same_second_store)
    as [_ H].
  apply (H (row_of quiet_world (lit "svc1") hello_payload)).
  - rewrite Hfirst. now left.
  - cbn. lia.
Defined.

End ReadComposition.

(* ================================================================== *)
(** * RingBuffer *)

Module RingFacts.
Import Ring.

Lemma setitem_in_range {A : Type} (l : list A) (i : nat) (x : A) :
  (i < length l)%nat ->
  setitem l (Z.of_nat i) x = Some (firstn i l ++ x :: skipn (S i) l).
Proof.
  intros H. unfold setitem.
  destruct (Z.of_nat i <? 0) eqn:E; [apply Z.ltb_lt in E; lia|].
  replace ((0 <=? Z.of_nat i) && (Z.of_nat i <? Z.of_nat (length l))) with true.
  - now rewrite Nat2Z.id.
  - symmetry. apply andb_true_iff. split; [apply Z.leb_le|apply Z.ltb_lt]; lia.
Qed.

Lemma lastn_all {A : Type} (n : nat) (l : list A) :
  (length l <= n)%nat -> lastn n l = l.
Proof.
  intros H. unfold lastn. now replace (length l - n)%nat with 0%nat by lia.
Qed.

Lemma lastn_length {A : Type} (n : nat) (l : list A) :
  length (lastn n l) = Nat.min n (length l).
Proof. unfold lastn. rewrite length_skipn. lia. Qed.

Lemma skipn_S_tl {A : Type} (n : nat) (l : list A) :
  skipn (S n) l = tl (skipn n l).
Proof.
  revert l. induction n as [|n IH]; intros [|a l]; try reflexivity.
  cbn [skipn]. rewrite <- IH. reflexivity.
Qed.

(** Pushing onto a list that is at least [n] long drops the oldest of
    its last [n] elements. *)
Lemma lastn_snoc_full {A : Type} (n : nat) (l : list A) (x : A) :
  (0 < n <= length l)%nat ->
  lastn n (l ++ [x]) = tl (lastn n l) ++ [x].
Proof.
  intros H. unfold lastn. rewrite length_app. cbn [length].
  replace (length l + 1 - n)%nat with (S (length l - n)) by lia.
  rewrite skipn_app.
  replace (S (length l - n) - length l)%nat with 0%nat by lia.
  change (skipn 0 [x]) with [x]. now rewrite skipn_S_tl.
Qed.

Section Invariant.
Context {A : Type}.
Variable s : nat.
Hypothesis s_pos : (0 < s)%nat.

Lemma holds_init : @holds A s [] (init (Z.of_nat s)).
Proof. repeat split. Qed.

Lemma holds_idx_range (xs : list A) (r : RingBuffer A) : holds s xs r -> 0 <= idx r < Z.of_nat s.
Proof.
  intros (_ & _ & Hi & _). rewrite Hi.
  destruct (length xs <=? s)%nat; [lia|].
  apply Z.mod_pos_bound. lia.
Qed.

Lemma push_holds (xs : list A) (r : RingBuffer A) (x : A) :
  holds s xs r ->
  fst (push x r) = None /\ holds s (xs ++ [x]) (snd (push x r)).
Proof.
  intros H. pose proof (holds_idx_range xs r H) as Hrange.
  destruct H as (Hsize & Hlen & Hidx & Hold).
  unfold push. rewrite Hsize, Hlen.
  destruct (Z.of_nat (Nat.min (length xs) s) <? Z.of_nat s) eqn:E.
  - (* room left *)
    apply Z.ltb_lt in E. assert (Hxs : (length xs < s)%nat) by lia.
    assert (Hle : (length xs <=? s)%nat = true) by (apply Nat.leb_le; lia).
    rewrite Hle in Hidx.
    assert (Hbuf : buf r = xs).
    { unfold oldest_first in Hold. rewrite Hidx in Hold. cbn in Hold.
      rewrite app_nil_r in Hold. rewrite Hold. apply lastn_all. lia. }
    cbn [fst snd]. split; [reflexivity|].
    unfold holds, oldest_first. cbn [size buf idx].
    rewrite !length_app, Hbuf, Hidx. cbn [length Z.to_nat skipn firstn].
    replace (length xs + 1 <=? s)%nat with true
      by (symmetry; apply Nat.leb_le; lia).
    rewrite app_nil_r. repeat split; try lia.
    symmetry. apply lastn_all. rewrite length_app. cbn. lia.
  - (* full: overwrite at idx *)
    apply Z.ltb_ge in E. assert (Hxs : (s <= length xs)%nat) by lia.
    assert (Hlen' : length (buf r) = s) by lia.
    set (i := Z.to_nat (idx r)).
    assert (Hi : idx r = Z.of_nat i) by (unfold i; lia).
    assert (Hlt : (i < s)%nat) by lia.
    assert (Hset : setitem (buf r) (idx r) x =
                   Some (firstn i (buf r) ++ x :: skipn (S i) (buf r)))
      by (rewrite Hi; apply setitem_in_range; lia).
    rewrite Hset.
    destruct (Z.of_nat s =? 0) eqn:E0; [apply Z.eqb_eq in E0; lia|].
    cbn [fst snd]. split; [reflexivity|].
    assert (Hsplit : buf r = firstn i (buf r) ++ skipn i (buf r))
      by (symmetry; apply firstn_skipn).
    destruct (skipn i (buf r)) as [|a rest] eqn:Eskip.
    { apply (f_equal (@length A)) in Eskip. rewrite length_skipn in Eskip.
      cbn in Eskip. lia. }
    assert (Hrest : skipn (S i) (buf r) = rest)
      by (rewrite skipn_S_tl, Eskip; reflexivity).
    assert (Hfirst : length (firstn i (buf r)) = i)
      by (rewrite length_firstn; lia).
    assert (Hrestlen : length rest = (s - i - 1)%nat).
    { apply (f_equal (@length A)) in Eskip. rewrite length_skipn in Eskip.
      cbn in Eskip. lia. }
    unfold oldest_first in Hold. fold i in Hold. rewrite Eskip in Hold.
    unfold holds, oldest_first. cbn [size buf idx]. rewrite Hrest.
    rewrite !length_app. cbn [length]. rewrite Hfirst, Hrestlen.
    replace (length xs + 1 <=? s)%nat with false
      by (symmetry; apply Nat.leb_gt; lia).
    assert (Hnext : (idx r + 1) mod Z.of_nat s =
                    Z.of_nat (length xs + 1) mod Z.of_nat s).
    { rewrite Hidx. destruct (length xs <=? s)%nat eqn:El.
      - apply Nat.leb_le in El. assert (length xs = s) by lia.
        replace (Z.of_nat (length xs + 1)) with (1 + 1 * Z.of_nat s) by lia.
        now rewrite Z.mod_add by lia.
      - rewrite Nat2Z.inj_add. rewrite Zplus_mod_idemp_l. reflexivity. }
    repeat split; try lia.
    rewrite lastn_snoc_full by lia. rewrite <- Hold. cbn [tl app].
    destruct (Nat.eq_dec (S i) s) as [Hwrap | Hno].
    + (* idx wraps to 0 *)
      assert (Hnil : rest = [])
        by (clear - Hrestlen Hwrap; destruct rest;
            [reflexivity|exfalso; cbn [length] in Hrestlen; lia]).
      rewrite Hnil.
      replace ((idx r + 1) mod Z.of_nat s) with 0.
      2:{ rewrite Hi. replace (Z.of_nat i + 1) with (Z.of_nat s) by lia.
          now rewrite Z_mod_same_full. }
      cbn [Z.to_nat skipn firstn app]. now rewrite app_nil_r.
    + replace ((idx r + 1) mod Z.of_nat s) with (Z.of_nat (S i)).
      2:{ rewrite Hi. rewrite Z.mod_small by lia. lia. }
      rewrite Nat2Z.id.
      rewrite skipn_app, firstn_app, Hfirst.
      replace (S i - i)%nat with 1%nat by lia.
      rewrite (skipn_all2 (firstn i (buf r))) by lia.
      rewrite (firstn_all2 (firstn i (buf r))) by lia.
      cbn [skipn firstn app]. now rewrite <- app_assoc.
Qed.

Lemma push_all_holds (ys xs : list A) (r : RingBuffer A) :
  holds s xs r ->
  fst (push_all ys r) = None /\ holds s (xs ++ ys) (snd (push_all ys r)).
Proof.
  revert xs r. induction ys as [|y ys IH]; intros xs r H.
  - cbn. now rewrite app_nil_r.
  - cbn [push_all]. destruct (push_holds xs r y H) as [Hn Hh].
    destruct (push y r) as [[e|] r']; cbn [fst snd] in *; [discriminate|].
    replace (xs ++ y :: ys) with ((xs ++ [y]) ++ ys)
      by (now rewrite <- app_assoc).
    now apply IH.
Qed.

End Invariant.

Lemma holds_fresh {A : Type} (size : Z) :
  0 < size -> @holds A (Z.to_nat size) [] (init size).
Proof.
  intros H. set (n := Z.to_nat size).
  assert (E : size = Z.of_nat n) by (unfold n; lia).
  clearbody n. subst size. apply holds_init.
Qed.

(** X6: a buffer created with a positive size never raises on [push];
    after any sequence of pushes it holds the last [size] elements
    pushed, all of them while fewer were pushed, and reading it from
    [idx] to the end and then from the start to [idx] gives them from
    the oldest to the newest. *)
Theorem X6_ring_holds_last_pushes
  {A : Type} (size : Z) (xs : list A) (Hsize : 0 < size) :
  fst (push_all xs (init size)) = None /\
  Ring.size (snd (push_all xs (init size))) = size /\
  length (buf (snd (push_all xs (init size)))) =
    Nat.min (length xs) (Z.to_nat size) /\
  0 <= idx (snd (push_all xs (init size))) < size /\
  oldest_first (snd (push_all xs (init size))) = lastn (Z.to_nat size) xs.
Proof.
  assert (Hs : (0 < Z.to_nat size)%nat) by lia.
  destruct (push_all_holds (Z.to_nat size) Hs xs [] (init size)
              (holds_fresh size Hsize)) as (Hn & Hh).
  cbn [app] in Hh.
  pose proof (holds_idx_range _ Hs _ _ Hh) as Hr.
  destruct Hh as (H1 & H2 & _ & H4).
  repeat split; try assumption; lia.
Qed.

Lemma X6_witness :
  buf (snd (push_all [1; 2; 3; 4; 5] (init 3))) = [4; 5; 3] /\
  oldest_first (snd (push_all [1; 2; 3; 4; 5] (init 3))) = [3; 4; 5].
Proof.
  split; [reflexivity|].
  destruct (X6_ring_holds_last_pushes 3 [1; 2; 3; 4; 5] eq_refl)
    as (_ & _ & _ & _ & H).
  exact H.
Defined.

(** X7: a buffer created with size zero or a negative size can hold
    nothing: every [push] raises IndexError and leaves it empty. *)
Theorem X7_ring_without_room_raises
  {A : Type} (size : Z) (x : A) (xs : list A) (Hsize : size <= 0) :
  push x (init size) = (Some IndexError, init size) /\
  push_all (x :: xs) (init size) = (Some IndexError, init size).
Proof.
  assert (H : push x (init size) = (Some IndexError, init size)).
  { unfold push, init. cbn [buf length Ring.size idx].
    destruct (Z.of_nat 0 <? size) eqn:E; [apply Z.ltb_lt in E; lia|].
    reflexivity. }
  split; [exact H|]. cbn [push_all]. now rewrite H.
Qed.

Lemma X7_witness :
  push_all [7; 8] (init 0) = (Some IndexError, init 0).
Proof.
  apply (X7_ring_without_room_raises 0 7 [8]). lia.
Defined.

Lemma slice_from_neg {A : Type} (n : nat) (l : list A) :
  (0 < n)%nat -> slice_from (- Z.of_nat n) l = lastn n l.
Proof.
  intros H. unfold slice_from, lastn.
  destruct (- Z.of_nat n <? 0) eqn:E; [|apply Z.ltb_ge in E; lia].
  f_equal. lia.
Qed.

(** X8: while no more than [size] elements were pushed, [last(n)] for a
    positive [n] is the last [n] elements pushed (all of them when there
    are fewer); [last(0)] is not empty but the whole buffer; and a
    negative [n] drops the first [-n] elements. *)
Theorem X8_ring_last_before_wrap
  {A : Type} (size n : Z) (xs : list A)
  (Hfit : Z.of_nat (length xs) <= size) (Hsize : 0 < size) :
  (0 < n -> last n (snd (push_all xs (init size))) = lastn (Z.to_nat n) xs) /\
  last 0 (snd (push_all xs (init size))) = xs /\
  (n < 0 -> last n (snd (push_all xs (init size))) = skipn (Z.to_nat (- n)) xs).
Proof.
  destruct (X6_ring_holds_last_pushes size xs Hsize) as (_ & _ & Hlen & Hidx & Hold).
  assert (Hs : (0 < Z.to_nat size)%nat) by lia.
  destruct (push_all_holds (Z.to_nat size) Hs xs [] (init size)
              (holds_fresh size Hsize)) as (_ & _ & _ & Hi & _).
  cbn [app] in Hi.
  replace (length xs <=? Z.to_nat size)%nat with true in Hi
    by (symmetry; apply Nat.leb_le; lia).
  assert (Hbuf : buf (snd (push_all xs (init size))) = xs).
  { unfold oldest_first in Hold. rewrite Hi in Hold. cbn in Hold.
    rewrite app_nil_r in Hold. rewrite Hold. apply lastn_all. lia. }
  unfold last. rewrite Hbuf. repeat split.
  - intros Hn. replace n with (Z.of_nat (Z.to_nat n)) at 1 by lia.
    apply slice_from_neg. lia.
  - unfold slice_from. change (- 0 <? 0) with false. cbv iota.
    rewrite Z.min_l by lia. reflexivity.
  - intros Hn. unfold slice_from.
    destruct (- n <? 0) eqn:E; [apply Z.ltb_lt in E; lia|].
    destruct (Z.min_spec (- n) (Z.of_nat (length xs))) as [[_ ->] | [Hge ->]].
    + reflexivity.
    + rewrite Nat2Z.id. rewrite skipn_all. symmetry. apply skipn_all2. lia.
Qed.

Lemma X8_witness :
  last 2 (snd (push_all [1; 2; 3] (init 4))) = [2; 3] /\
  last 0 (snd (push_all [1; 2; 3] (init 4))) = [1; 2; 3].
Proof.
  destruct (X8_ring_last_before_wrap 4 2 [1; 2; 3]) as (H1 & H0 & _);
    [cbn; lia | lia |].
  split; [apply H1; lia|exact H0].
Defined.

Lemma skipn_last_one {A : Type} (k : nat) (l : list A) (d : A) :
  length l = S k -> skipn k l = [nth k l d].
Proof.
  revert l. induction k as [|k IH]; intros [|a l] H; try discriminate.
  - destruct l; [reflexivity|discriminate].
  - cbn [skipn nth]. apply IH. cbn in H. lia.
Qed.

(** X9: once more than [size] elements were pushed, [last(1)] is the
    element in the last slot of the buffer, which is not the newest one
    in general: with [m] elements pushed it is the one pushed
    [m mod size] pushes before the newest, and so the newest only when
    [m] is a multiple of [size]. *)
Theorem X9_ring_last_after_wrap
  {A : Type} (size : Z) (xs : list A) (d : A)
  (Hsize : 0 < size) (Hwrap : size < Z.of_nat (length xs)) :
  last 1 (snd (push_all xs (init size))) =
  [nth (length xs - 1 - Z.to_nat (Z.of_nat (length xs) mod size)) xs d].
Proof.
  assert (Hs : (0 < Z.to_nat size)%nat) by lia.
  destruct (push_all_holds (Z.to_nat size) Hs xs [] (init size)
              (holds_fresh size Hsize)) as (_ & _ & Hlen & Hi & Hold).
  cbn [app] in *.
  set (r := snd (push_all xs (init size))) in *.
  set (s := Z.to_nat size) in *.
  replace (length xs <=? s)%nat with false in Hi
    by (symmetry; apply Nat.leb_gt; lia).
  replace (Z.of_nat s) with size in Hi by lia.
  rewrite <- Hi.
  assert (Hr : 0 <= idx r < size)
    by (rewrite Hi; apply Z.mod_pos_bound; lia).
  set (i := Z.to_nat (idx r)) in *.
  assert (Hbuf : length (buf r) = s) by lia.
  unfold last, slice_from. change (- (1) <? 0) with true. cbv iota.
  replace (Z.to_nat (Z.max (Z.of_nat (length (buf r)) + - (1)) 0))
    with (s - 1)%nat by lia.
  rewrite (skipn_last_one (s - 1) (buf r) d) by lia.
  f_equal.
  assert (H1 : nth (s - 1) (buf r) d = nth (s - 1 - i) (skipn i (buf r)) d).
  { rewrite nth_skipn. f_equal. lia. }
  assert (H2 : nth (s - 1 - i) (oldest_first r) d =
               nth (s - 1 - i) (skipn i (buf r)) d).
  { unfold oldest_first. fold i. apply app_nth1.
    rewrite length_skipn. lia. }
  rewrite H1, <- H2, Hold. unfold lastn. rewrite nth_skipn. f_equal. lia.
Qed.

Lemma X9_witness :
  last 1 (snd (push_all [1; 2; 3; 4; 5] (init 3))) = [3].
Proof.
  apply (X9_ring_last_after_wrap 3 [1; 2; 3; 4; 5] 0); cbn; lia.
Defined.

End RingFacts.

(* ================================================================== *)
(** * Parser.parse *)

Module ParserFacts.
Import Json Parser.

Section Findall.
Variable cls : Z -> bool.

Lemma runs_gap_cons c s toks :
  cls c = false -> runs cls s toks -> runs cls (c :: s) toks.
Proof.
  intros Hc H. inversion H as [gap Hgap | gap tok rest toks' Hgap Hne Htok Hhd Hrest]; subst.
  - apply runs_end. now constructor.
  - change (c :: gap ++ tok ++ rest) with ((c :: gap) ++ tok ++ rest).
    apply runs_token; auto.
Qed.

Lemma runs_gap_app gap s toks :
  Forall (fun c => cls c = false) gap -> runs cls s toks ->
  runs cls (gap ++ s) toks.
Proof.
  intros Hgap H. induction Hgap as [|c gap Hc _ IH]; [exact H|].
  cbn [app]. now apply runs_gap_cons.
Qed.

Lemma runs_findall_from s :
  (forall cur, cur <> [] -> Forall (fun c => cls c = true) cur ->
               runs cls (cur ++ s) (findall_from cls cur s)) /\
  runs cls s (findall_from cls [] s).
Proof.
  induction s as [|c s [IH1 IH2]].
  - split.
    + intros cur Hne Hcur. cbn [findall_from].
      destruct cur as [|a cur]; [contradiction|]. cbn [flush].
      apply (runs_token cls [] (a :: cur) [] []); auto.
      apply runs_end. constructor.
    + apply runs_end. constructor.
  - destruct (cls c) eqn:Ec.
    + assert (H1 : forall cur, Forall (fun c => cls c = true) cur ->
                               runs cls (cur ++ c :: s)
                                    (findall_from cls (cur ++ [c]) s)).
      { intros cur Hcur.
        replace (cur ++ c :: s) with ((cur ++ [c]) ++ s)
          by (now rewrite <- app_assoc).
        apply IH1; [now destruct cur|].
        apply Forall_app. split; [exact Hcur|now constructor]. }
      split.
      * intros cur _ Hcur. cbn [findall_from]. rewrite Ec. now apply H1.
      * cbn [findall_from]. rewrite Ec. apply (H1 []). constructor.
    + split.
      * intros cur Hne Hcur. cbn [findall_from]. rewrite Ec.
        destruct cur as [|a cur]; [contradiction|]. cbn [flush app].
        apply (runs_token cls [] (a :: cur) (c :: s)); auto.
        now apply runs_gap_cons.
      * cbn [findall_from]. rewrite Ec. cbn [flush app].
        now apply runs_gap_cons.
Qed.

Lemma findall_from_gap gap s :
  Forall (fun c => cls c = false) gap ->
  findall_from cls [] (gap ++ s) = findall_from cls [] s.
Proof.
  induction 1 as [|c gap Hc _ IH]; [reflexivity|].
  cbn [app findall_from]. now rewrite Hc.
Qed.

Lemma findall_from_token cur tok s :
  Forall (fun c => cls c = true) tok ->
  findall_from cls cur (tok ++ s) = findall_from cls (cur ++ tok) s.
Proof.
  intros H. revert cur. induction H as [|c tok Hc _ IH]; intros cur.
  - now rewrite app_nil_r.
  - cbn [app findall_from]. rewrite Hc, IH. now rewrite <- app_assoc.
Qed.

Lemma findall_from_stop cur rest :
  cur <> [] -> head_is cls rest = false ->
  findall_from cls cur rest = cur :: findall_from cls [] rest.
Proof.
  intros Hne Hhd. destruct cur as [|a cur]; [contradiction|].
  destruct rest as [|c rest]; [reflexivity|].
  cbn [head_is] in Hhd. cbn [findall_from]. now rewrite Hhd.
Qed.

Lemma runs_unique s toks : runs cls s toks -> findall cls s = toks.
Proof.
  unfold findall. induction 1 as [gap Hgap | gap tok rest toks Hgap Hne Htok Hhd _ IH].
  - rewrite <- (app_nil_r gap). now rewrite findall_from_gap.
  - rewrite findall_from_gap by exact Hgap.
    rewrite findall_from_token by exact Htok. cbn [app].
    rewrite findall_from_stop by assumption. now rewrite IH.
Qed.

Lemma runs_findall s : runs cls s (findall cls s).
Proof. apply runs_findall_from. Qed.

Lemma runs_tokens s toks :
  runs cls s toks ->
  Forall (fun tok => tok <> [] /\ Forall (fun c => cls c = true) tok) toks.
Proof. induction 1; constructor; auto. Qed.

Lemma runs_join sep toks :
  sep <> [] -> Forall (fun c => cls c = false) sep ->
  Forall (fun tok => tok <> [] /\ Forall (fun c => cls c = true) tok) toks ->
  runs cls (join sep toks) toks.
Proof.
  intros Hne Hsep H. induction H as [|tok toks [Htne Htok] Htoks IH].
  - apply runs_end. constructor.
  - cbn [join]. destruct toks as [|tok2 toks].
    + assert (E : tok = [] ++ tok ++ []) by (cbn; now rewrite app_nil_r).
      rewrite E at 1.
      apply (runs_token cls [] tok [] []); auto; apply runs_end; constructor.
    + apply (runs_token cls [] tok (sep ++ join sep (tok2 :: toks))); auto.
      * destruct sep as [|c sep]; [contradiction|].
        inversion Hsep; subst. assumption.
      * apply runs_gap_app; [exact Hsep|exact IH].
Qed.

End Findall.

(** X10: the tokens [parse] returns are exactly the maximal runs of
    letters of the text, from left to right (kanji and kana for the
    language ["ja"], ASCII letters for every other language): no token is
    empty, every character of a token is a letter, nothing between two
    tokens is a letter, and no other list of tokens has these properties.
    The field ["len"] is the number of tokens. *)
Theorem X10_parse_tokens_are_maximal_runs (lang text : pystr) :
  parse lang text =
    JDict [ (key_lang, JStr lang);
            (key_tokens, JList (map JStr (tokens_of lang text)));
            (key_len, JInt (Z.of_nat (length (tokens_of lang text)))) ] /\
  runs (class_of lang) text (tokens_of lang text) /\
  (forall toks, runs (class_of lang) text toks -> toks = tokens_of lang text) /\
  (lang = lang_ja -> class_of lang = is_ja) /\
  (lang <> lang_ja -> class_of lang = is_en).
Proof.
  split; [reflexivity|]. split; [apply runs_findall|]. split.
  - intros toks H. symmetry. now apply runs_unique.
  - unfold class_of. destruct (list_eq_dec Z.eq_dec lang lang_ja); split;
      intros; congruence.
Qed.

(** X11: tokenising is stable: joining the tokens of a text with spaces
    and parsing the result gives the same tokens. *)
Theorem X11_parse_of_joined_tokens (lang text : pystr) :
  tokens_of lang (join [32] (tokens_of lang text)) = tokens_of lang text.
Proof.
  unfold tokens_of. apply runs_unique. apply runs_join.
  - discriminate.
  - constructor; [|constructor].
    unfold class_of. destruct (list_eq_dec Z.eq_dec lang lang_ja); reflexivity.
  - apply (runs_tokens _ text). apply runs_findall.
Qed.

Example parse_english :
  tokens_of (lit "en") (lit "Hello, wOrld42foo_bar  ") =
  [lit "Hello"; lit "wOrld"; lit "foo"; lit "bar"].
Proof. reflexivity. Qed.

Example parse_japanese :
  tokens_of (lit "ja")
    [26085; 26412; 35486; 12398; 12486; 12473; 12488; 12289;
     12521; 12540; 12513; 12531; 97; 98; 99; 28450; 23383] =
  [ [26085; 26412; 35486; 12398; 12486; 12473; 12488];
    [12521; 12540; 12513; 12531]; [28450; 23383] ].
Proof. reflexivity. Qed.

End ParserFacts.

(* ================================================================== *)
(** * json.loads after json.dumps *)

Module RoundTrip.
Import Json JsonSpec Spec JsonFacts.

(** ** Integers *)

Lemma decimal_app acc ds1 ds2 :
  decimal acc (ds1 ++ ds2) = decimal (decimal acc ds1) ds2.
Proof. unfold decimal. now rewrite fold_left_app. Qed.

Lemma decimal_shift acc ds :
  decimal acc ds = acc * 10 ^ Z.of_nat (length ds) + decimal 0 ds.
Proof.
  revert acc. induction ds as [|d ds IH]; intros acc.
  - cbn. lia.
  - change (decimal acc (d :: ds)) with (decimal (10 * acc + (d - 48)) ds).
    change (decimal 0 (d :: ds)) with (decimal (10 * 0 + (d - 48)) ds).
    rewrite (IH (10 * acc + (d - 48))), (IH (10 * 0 + (d - 48))).
    cbn [length]. rewrite Nat2Z.inj_succ, Z.pow_succ_r by lia. lia.
Qed.

Lemma digits_from_value fuel n acc :
  0 <= n < 2 ^ Z.of_nat fuel ->
  decimal 0 (digits_from fuel n acc) =
  n * 10 ^ Z.of_nat (length acc) + decimal 0 acc.
Proof.
  revert n acc. induction fuel as [|f IH]; intros n acc Hn.
  - cbn in Hn. assert (n = 0) by lia. subst. cbn [digits_from]. lia.
  - cbn [digits_from]. destruct (n <? 10) eqn:E.
    + apply Z.ltb_lt in E. rewrite Z.mod_small by lia.
      change (decimal 0 ((48 + n) :: acc)) with (decimal (10 * 0 + (48 + n - 48)) acc).
      rewrite decimal_shift. lia.
    + apply Z.ltb_ge in E. rewrite IH.
      * cbn [length]. rewrite Nat2Z.inj_succ, Z.pow_succ_r by lia.
        change (decimal 0 ((48 + n mod 10) :: acc))
          with (decimal (10 * 0 + (48 + n mod 10 - 48)) acc).
        rewrite (decimal_shift _ acc).
        pose proof (Z.div_mod n 10 ltac:(lia)). lia.
      * rewrite Nat2Z.inj_succ, Z.pow_succ_r in Hn by lia.
        split; [apply Z.div_pos; lia|].
        apply Z.div_lt_upper_bound; lia.
Qed.

Lemma digits_fuel n : 0 <= n -> n < 2 ^ Z.of_nat (S (Z.to_nat (Z.log2 n))).
Proof.
  intros Hn. rewrite Nat2Z.inj_succ, Z2Nat.id by apply Z.log2_nonneg.
  destruct (Z.eq_dec n 0) as [->|Hz]; [cbn; lia|].
  apply Z.log2_spec. lia.
Qed.

Lemma digits_value n : 0 <= n -> decimal 0 (digits n) = n.
Proof.
  intros Hn. unfold digits.
  rewrite digits_from_value by (split; [exact Hn|now apply digits_fuel]).
  cbn. lia.
Qed.

Lemma is_digit_char d : 0 <= d < 10 -> is_digit (48 + d) = true.
Proof.
  intros H. unfold is_digit. apply andb_true_iff.
  split; [apply Z.leb_le|apply Z.leb_le]; lia.
Qed.

Lemma digits_from_all_digits fuel n acc :
  all_digits acc -> all_digits (digits_from fuel n acc).
Proof.
  revert n acc. induction fuel as [|f IH]; intros n acc H; [exact H|].
  cbn [digits_from].
  assert (H' : all_digits ((48 + n mod 10) :: acc)).
  { constructor; [|exact H]. apply is_digit_char.
    apply Z.mod_pos_bound. lia. }
  destruct (n <? 10); [exact H'|now apply IH].
Qed.

(** The first digit of a positive number is not zero. *)
Lemma digits_from_head fuel n acc :
  0 < n < 2 ^ Z.of_nat fuel ->
  exists d tl, digits_from fuel n acc = d :: tl /\ 49 <= d <= 57.
Proof.
  revert n acc. induction fuel as [|f IH]; intros n acc Hn.
  - cbn in Hn. lia.
  - cbn [digits_from]. destruct (n <? 10) eqn:E.
    + apply Z.ltb_lt in E. exists (48 + n mod 10), acc.
      rewrite Z.mod_small by lia. split; [reflexivity|lia].
    + apply Z.ltb_ge in E. apply IH.
      rewrite Nat2Z.inj_succ, Z.pow_succ_r in Hn by lia. split.
      * apply Z.div_str_pos. lia.
      * apply Z.div_lt_upper_bound; lia.
Qed.

Lemma scan_digits_app acc ds rest :
  all_digits ds -> head_is is_digit rest = false ->
  scan_digits acc (ds ++ rest) = (decimal acc ds, rest).
Proof.
  intros Hds Hrest. revert acc. induction Hds as [|d ds Hd _ IH]; intros acc.
  - cbn [app decimal fold_left]. destruct rest as [|c rest]; [reflexivity|].
    cbn [head_is] in Hrest. cbn [scan_digits]. now rewrite Hrest.
  - cbn [app scan_digits]. rewrite Hd. apply IH.
Qed.

Lemma delimited_not_digit rest : delimited rest -> head_is is_digit rest = false.
Proof.
  destruct rest as [|c rest]; [reflexivity|].
  intros [-> | [-> | ->]]; reflexivity.
Qed.

Lemma delimited_not_float rest : delimited rest -> float_follows rest = false.
Proof.
  destruct rest as [|c rest]; [reflexivity|].
  intros [-> | [-> | ->]]; reflexivity.
Qed.

Lemma match_integer_digits n rest :
  0 <= n -> delimited rest ->
  match_integer (digits n ++ rest) = Some (n, rest).
Proof.
  intros Hn Hrest. destruct (Z.eq_dec n 0) as [->|Hz].
  - reflexivity.
  - unfold digits.
    destruct (digits_from_head (S (Z.to_nat (Z.log2 n))) n [])
      as (d & tl & E & Hd); [split; [lia|now apply digits_fuel]|].
    pose proof (digits_from_all_digits (S (Z.to_nat (Z.log2 n))) n []
                  (Forall_nil _)) as Hall.
    pose proof (digits_value n Hn) as Hval. unfold digits in Hval.
    rewrite E in *. cbn [app]. unfold match_integer.
    destruct (d =? 48) eqn:E48; [apply Z.eqb_eq in E48; lia|].
    pose proof (Forall_inv Hall) as Hd1. cbv beta in Hd1. rewrite Hd1.
    change (d :: tl ++ rest) with ((d :: tl) ++ rest).
    rewrite scan_digits_app; [|exact Hall|now apply delimited_not_digit].
    now rewrite Hval.
Qed.

Lemma digits_head_digit n :
  0 <= n -> exists d tl, digits n = d :: tl /\ 48 <= d <= 57.
Proof.
  intros Hn. destruct (Z.eq_dec n 0) as [->|Hz].
  - exists 48, []. split; [reflexivity|lia].
  - unfold digits.
    destruct (digits_from_head (S (Z.to_nat (Z.log2 n))) n [])
      as (d & tl & E & Hd); [split; [lia|now apply digits_fuel]|].
    exists d, tl. split; [exact E|lia].
Qed.

(** [match_number] reads back what [int.__repr__] wrote. *)
Lemma match_number_int_repr n rest :
  delimited rest -> match_number (int_repr n ++ rest) = Ok (JInt n, rest).
Proof.
  intros Hrest. unfold int_repr, match_number.
  destruct (n <? 0) eqn:E.
  - apply Z.ltb_lt in E. cbn [app]. change (45 =? 45) with true. cbv iota.
    rewrite match_integer_digits by (lia || exact Hrest).
    rewrite delimited_not_float by exact Hrest.
    now rewrite Z.opp_involutive.
  - apply Z.ltb_ge in E.
    destruct (digits_head_digit n E) as (d & tl & Hd & Hr).
    assert (Hmi := match_integer_digits n rest E Hrest).
    rewrite Hd in *. cbn [app] in *.
    destruct (d =? 45) eqn:E45; [apply Z.eqb_eq in E45; lia|].
    rewrite Hmi. now rewrite delimited_not_float by exact Hrest.
Qed.

(** ** Strings *)

Lemma unhex_hex_digit d :
  0 <= d < 16 -> unhex (Sha256.hex_digit d) = Some d.
Proof.
  intros H. unfold Sha256.hex_digit, unhex.
  destruct (d <? 10) eqn:E.
  - apply Z.ltb_lt in E.
    replace ((48 <=? 48 + d) && (48 + d <=? 57)) with true
      by (symmetry; apply andb_true_iff; split; apply Z.leb_le; lia).
    f_equal. lia.
  - apply Z.ltb_ge in E.
    replace ((48 <=? 87 + d) && (87 + d <=? 57)) with false
      by (symmetry; apply andb_false_iff; right; apply Z.leb_gt; lia).
    replace ((97 <=? 87 + d) && (87 + d <=? 102)) with true
      by (symmetry; apply andb_true_iff; split; apply Z.leb_le; lia).
    f_equal. lia.
Qed.

Lemma decode_hex4_hex4 n :
  0 <= n < 65536 ->
  exists a b c d,
    hex4 n = [a; b; c; d] /\ decode_hex4 a b c d = Some n.
Proof.
  intros Hn. unfold hex4. do 4 eexists. split; [reflexivity|].
  unfold decode_hex4.
  rewrite !unhex_hex_digit by (apply Z.mod_pos_bound; lia).
  f_equal. Z.to_euclidean_division_equations. lia.
Qed.

Lemma scanstring_escape_char c t :
  0 <= c ->
  scanstring (escape_char false c ++ t) = cons_char c (scanstring t).
Proof.
  intros Hc. unfold escape_char.
  destruct (c =? 34) eqn:E34; [apply Z.eqb_eq in E34; subst; reflexivity|].
  destruct (c =? 92) eqn:E92; [apply Z.eqb_eq in E92; subst; reflexivity|].
  destruct (c =? 10) eqn:E10; [apply Z.eqb_eq in E10; subst; reflexivity|].
  destruct (c =? 13) eqn:E13; [apply Z.eqb_eq in E13; subst; reflexivity|].
  destruct (c =? 9) eqn:E9; [apply Z.eqb_eq in E9; subst; reflexivity|].
  destruct (c =? 8) eqn:E8; [apply Z.eqb_eq in E8; subst; reflexivity|].
  destruct (c =? 12) eqn:E12; [apply Z.eqb_eq in E12; subst; reflexivity|].
  destruct (c <? 32) eqn:E32.
  - apply Z.ltb_lt in E32.
    destruct (decode_hex4_hex4 c) as (x1 & x2 & x3 & x4 & Hh & Hd); [lia|].
    unfold u_escape. rewrite Hh. cbn [app scanstring].
    change (92 =? 34) with false. change (92 =? 92) with true.
    change (117 =? 117) with true. cbv iota. rewrite Hd.
    replace (is_high_surrogate c) with false; [reflexivity|].
    symmetry. unfold is_high_surrogate. apply andb_false_iff. left.
    apply Z.leb_gt. lia.
  - cbn [app scanstring]. now rewrite E34, E92, E32.
Qed.

Lemma scanstring_escaped s rest :
  Forall (fun c => 0 <= c) s ->
  scanstring (flat_map (escape_char false) s ++ 34 :: rest) = Ok (s, rest).
Proof.
  induction 1 as [|c s Hc _ IH]; [reflexivity|].
  cbn [flat_map]. rewrite <- app_assoc.
  rewrite scanstring_escape_char by exact Hc. now rewrite IH.
Qed.

Lemma valid_str_nonneg s : valid_str s -> Forall (fun c => 0 <= c) s.
Proof. apply Forall_impl. intros; lia. Qed.

Lemma encode_basestring_app s rest :
  encode_basestring false s ++ rest =
  34 :: flat_map (escape_char false) s ++ 34 :: rest.
Proof.
  unfold encode_basestring. cbn [app]. now rewrite <- app_assoc.
Qed.

(** ** Dispatch on the first character *)

Ltac not_this_char :=
  match goal with
  | |- context [if ?a =? ?b then _ else _] =>
      let E := fresh "E" in
      destruct (a =? b) eqn:E; [apply Z.eqb_eq in E; exfalso; lia|]
  end.

Lemma scan_once_digit d c t :
  48 <= c <= 57 -> scan_once (S d) (c :: t) = match_number (c :: t).
Proof.
  intros Hc. cbn [scan_once]. do 6 not_this_char.
  cbn [strip_prefix NaN_text Infinity_text neg_Infinity_text].
  destruct (78 =? c) eqn:N1; [apply Z.eqb_eq in N1; lia|].
  destruct (73 =? c) eqn:N2; [apply Z.eqb_eq in N2; lia|].
  destruct (45 =? c) eqn:N3; [apply Z.eqb_eq in N3; lia|].
  reflexivity.
Qed.

Lemma scan_once_minus d c t :
  48 <= c <= 57 -> scan_once (S d) (45 :: c :: t) = match_number (45 :: c :: t).
Proof.
  intros Hc. cbn [scan_once].
  change (45 =? 34) with false. change (45 =? 123) with false.
  change (45 =? 91) with false. change (45 =? 110) with false.
  change (45 =? 116) with false. change (45 =? 102) with false. cbv iota.
  cbn [strip_prefix NaN_text Infinity_text neg_Infinity_text].
  change (78 =? 45) with false. change (73 =? 45) with false.
  change (45 =? 45) with true. cbv iota.
  destruct (73 =? c) eqn:E; [apply Z.eqb_eq in E; lia|].
  reflexivity.
Qed.

Lemma scan_once_int d n rest :
  delimited rest -> scan_once (S d) (int_repr n ++ rest) = Ok (JInt n, rest).
Proof.
  intros Hrest. rewrite <- (match_number_int_repr n rest Hrest).
  unfold int_repr. destruct (n <? 0) eqn:E.
  - apply Z.ltb_lt in E.
    destruct (digits_head_digit (- n)) as (c & tl & Hd & Hr); [lia|].
    rewrite Hd. cbn [app]. now apply scan_once_minus.
  - apply Z.ltb_ge in E.
    destruct (digits_head_digit n E) as (c & tl & Hd & Hr).
    rewrite Hd. cbn [app]. now apply scan_once_digit.
Qed.

Lemma value_start_app s rest : value_start s -> value_start (s ++ rest).
Proof.
  intros (c & t & -> & H). exists c, (t ++ rest). split; [reflexivity|exact H].
Qed.

Lemma dumps_value_start b v : value_start (dumps b v).
Proof.
  destruct v as [| [|] | n | s | items | members]; cbn [dumps].
  - exists 110, [117; 108; 108]. repeat split; discriminate.
  - exists 116, [114; 117; 101]. repeat split; discriminate.
  - exists 102, [97; 108; 115; 101]. repeat split; discriminate.
  - unfold int_repr. destruct (n <? 0) eqn:E.
    + exists 45, (digits (- n)). repeat split; discriminate.
    + apply Z.ltb_ge in E.
      destruct (digits_head_digit n E) as (c & tl & Hd & Hr).
      exists c, tl. split; [exact Hd|].
      split; [|repeat split; lia].
      unfold is_ws. repeat (apply orb_false_iff; split); apply Z.eqb_neq; lia.
  - unfold encode_basestring. eexists 34, _. repeat split; discriminate.
  - eexists 91, _. repeat split; discriminate.
  - eexists 123, _. repeat split; discriminate.
Qed.

Lemma skip_ws_value_start s : value_start s -> skip_ws s = s.
Proof.
  intros (c & t & -> & Hws & _). cbn [skip_ws]. now rewrite Hws.
Qed.

Lemma skip_ws_space s : skip_ws (32 :: s) = skip_ws s.
Proof. reflexivity. Qed.

Lemma skip_ws_delimiter c s :
  c = 44 \/ c = 93 \/ c = 125 \/ c = 58 -> skip_ws (c :: s) = c :: s.
Proof. intros [-> | [-> | [-> | ->]]]; reflexivity. Qed.

(** ** dict(pairs) *)

Lemma dict_set_fresh d k v :
  ~ In k (map fst d) -> dict_set d k v = d ++ [(k, v)].
Proof.
  induction d as [|[k' v'] d IH]; intros H; [reflexivity|].
  cbn [dict_set]. destruct (list_eq_dec Z.eq_dec k k') as [->|Hne].
  - exfalso. apply H. now left.
  - cbn [app]. f_equal. apply IH. intros Hin. apply H. now right.
Qed.

Lemma dict_of_pairs_fold pairs acc :
  NoDup (map fst (acc ++ pairs)) ->
  fold_left (fun d kv => dict_set d (fst kv) (snd kv)) pairs acc = acc ++ pairs.
Proof.
  revert acc. induction pairs as [|[k v] pairs IH]; intros acc H.
  - now rewrite app_nil_r.
  - cbn [fold_left fst snd]. rewrite dict_set_fresh.
    + rewrite IH; rewrite <- app_assoc; [reflexivity|exact H].
    + rewrite map_app in H. cbn [map fst] in H.
      apply NoDup_remove_2 in H. intros Hin. apply H.
      apply in_or_app. now left.
Qed.

Lemma dict_of_pairs_nodup pairs :
  NoDup (map fst pairs) -> dict_of_pairs pairs = pairs.
Proof. intros H. apply (dict_of_pairs_fold pairs []). exact H. Qed.

(** ** Containers *)

Lemma join_cons2 sep p q parts :
  join sep (p :: q :: parts) = p ++ sep ++ join sep (q :: parts).
Proof. reflexivity. Qed.

Lemma join_length sep parts :
  Forall (fun p => p <> []) parts ->
  (length parts <= length (join sep parts))%nat.
Proof.
  induction 1 as [|p parts Hp _ IH]; [apply Nat.le_refl|].
  destruct parts as [|q parts].
  - cbn. destruct p; [contradiction|unfold pystr in *; cbn; lia].
  - rewrite join_cons2. rewrite !length_app.
    destruct p; [contradiction|]. unfold pystr in *. cbn [length] in *. lia.
Qed.

Lemma join_part_length sep parts p :
  In p parts -> (length p <= length (join sep parts))%nat.
Proof.
  induction parts as [|q parts IH]; intros H; [contradiction|].
  destruct parts as [|q2 parts].
  - destruct H as [->|[]]. apply Nat.le_refl.
  - rewrite join_cons2, !length_app. destruct H as [->|H]; [lia|].
    specialize (IH H). unfold pystr in *. lia.
Qed.

Lemma join_value_start sep p parts :
  value_start p -> value_start (join sep (p :: parts)).
Proof.
  intros H. destruct parts; [exact H|].
  rewrite join_cons2. now apply value_start_app.
Qed.

Section Loops.
Variable scan : pystr -> result (value * pystr).

Lemma array_items_dumps items rest n :
  items <> [] -> (length items <= n)%nat ->
  Forall (reads_back scan) items ->
  array_items scan n
    (join item_separator (map (dumps false) items) ++ 93 :: rest) =
  Ok (items, rest).
Proof.
  intros Hne Hn Hall. revert n Hn.
  induction Hall as [|v items Hv Hitems IH]; [contradiction|].
  intros [|n] Hn; [cbn in Hn; lia|].
  destruct items as [|v2 items].
  - cbn [map join array_items].
    rewrite (Hv (93 :: rest)) by (right; now left).
    cbn [bind fst snd]. rewrite skip_ws_delimiter by auto.
    reflexivity.
  - change (map (dumps false) (v :: v2 :: items))
      with (dumps false v :: map (dumps false) (v2 :: items)).
    cbn [map]. rewrite join_cons2. rewrite <- !app_assoc.
    cbn [array_items].
    change (item_separator ++ ?x) with (44 :: 32 :: x).
    rewrite (Hv (44 :: _)) by now left.
    cbn [bind fst snd]. rewrite skip_ws_delimiter by auto.
    change (44 =? 93) with false. change (44 =? 44) with true. cbv iota.
    rewrite skip_ws_space, skip_ws_value_start.
    2:{ apply value_start_app.
        apply (join_value_start _ (dumps false v2)), dumps_value_start. }
    change (dumps false v2 :: map (dumps false) items)
      with (map (dumps false) (v2 :: items)).
    rewrite IH; [reflexivity|discriminate|cbn [length] in *; lia].
Qed.

Lemma map_member_text members :
  map (fun kv : pystr * value =>
         let (k, x) := kv in
         encode_basestring false k ++ key_separator ++ dumps false x) members =
  map member_text members.
Proof. apply map_ext. now intros [k x]. Qed.

Lemma object_pairs_dumps members rest n :
  members <> [] -> (length members <= n)%nat ->
  Forall (fun kv => valid_str (fst kv) /\ reads_back scan (snd kv)) members ->
  exists body,
    join item_separator (map member_text members) ++ 125 :: rest = 34 :: body /\
    object_pairs scan n body = Ok (members, rest).
Proof.
  intros Hne Hn Hall. revert n Hn.
  induction Hall as [|[k v] members [Hk Hv] Hmembers IH]; [contradiction|].
  intros [|n] Hn; [cbn in Hn; lia|].
  cbn [fst snd] in Hk, Hv.
  destruct members as [|kv2 members].
  - cbn [map join]. unfold member_text at 1. cbn [fst snd].
    rewrite <- !app_assoc, encode_basestring_app.
    eexists. split; [reflexivity|].
    cbn [object_pairs].
    rewrite scanstring_escaped by now apply valid_str_nonneg.
    cbn [bind fst snd].
    change (key_separator ++ ?x) with (58 :: 32 :: x).
    rewrite skip_ws_delimiter by auto.
    change (58 =? 58) with true. cbv iota.
    rewrite skip_ws_space, skip_ws_value_start
      by (apply value_start_app, dumps_value_start).
    rewrite (Hv (125 :: rest)) by (right; now right).
    cbn [bind fst snd]. rewrite skip_ws_delimiter by auto.
    reflexivity.
  - destruct (IH ltac:(discriminate) n ltac:(cbn [length] in *; lia))
      as (body2 & Hbody2 & Hpairs2).
    change (map member_text ((k, v) :: kv2 :: members))
      with (member_text (k, v) :: map member_text (kv2 :: members)).
    cbn [map]. rewrite join_cons2. unfold member_text at 1. cbn [fst snd].
    rewrite <- !app_assoc, encode_basestring_app.
    eexists. split; [reflexivity|].
    cbn [object_pairs].
    rewrite scanstring_escaped by now apply valid_str_nonneg.
    cbn [bind fst snd].
    change (key_separator ++ ?x) with (58 :: 32 :: x).
    rewrite skip_ws_delimiter by auto.
    change (58 =? 58) with true. cbv iota.
    rewrite skip_ws_space, skip_ws_value_start
      by (apply value_start_app, dumps_value_start).
    change (item_separator ++ ?x) with (44 :: 32 :: x).
    rewrite (Hv (44 :: _)) by now left.
    cbn [bind fst snd]. rewrite skip_ws_delimiter by auto.
    change (44 =? 125) with false. change (44 =? 44) with true. cbv iota.
    rewrite skip_ws_space.
    change (member_text kv2 :: map member_text members)
      with (map member_text (kv2 :: members)).
    rewrite Hbody2. cbn [skip_ws].
    change (is_ws 34) with false. cbv iota.
    change (34 =? 34) with true. cbv iota.
    rewrite Hpairs2. reflexivity.
Qed.

End Loops.

(** ** Values *)

Lemma JSONArray_nonempty scan s :
  value_start s ->
  JSONArray scan s =
  let* r := array_items scan (length s) s in Ok (JList (fst r), snd r).
Proof.
  intros H. unfold JSONArray. rewrite (skip_ws_value_start s H).
  destruct H as (c & t & -> & _ & _ & H93 & _).
  apply Z.eqb_neq in H93. now rewrite H93.
Qed.

Lemma JSONObject_nonempty scan body :
  JSONObject scan (34 :: body) =
  let* r := object_pairs scan (length (34 :: body)) body in
  Ok (JDict (dict_of_pairs (fst r)), snd r).
Proof. reflexivity. Qed.

Lemma well_formed_list items :
  well_formed (JList items) <-> Forall well_formed items.
Proof.
  cbn [well_formed]. induction items as [|v items IH].
  - split; constructor.
  - split.
    + intros [Hv Hitems]. constructor; [exact Hv|now apply IH].
    + intros H. inversion H; subst. split; [assumption|now apply IH].
Qed.

Lemma well_formed_dict members :
  well_formed (JDict members) <->
  NoDup (map fst members) /\
  Forall (fun kv => valid_str (fst kv) /\ well_formed (snd kv)) members.
Proof.
  cbn [well_formed]. apply and_iff_compat_l.
  induction members as [|kv members IH].
  - split; constructor.
  - split.
    + intros (Hk & Hv & Hm). constructor; [now split|now apply IH].
    + intros H. inversion H as [|? ? [Hk Hv] Hm]; subst.
      repeat split; try assumption. now apply IH.
Qed.

Lemma depth_items items :
  Forall (fun v => (depth v < depth (JList items))%nat) items.
Proof.
  cbn [depth]. induction items as [|v items IH]; constructor.
  - cbn [fold_right]. lia.
  - revert IH. apply Forall_impl. intros x Hx. cbn [fold_right]. lia.
Qed.

Lemma depth_members members :
  Forall (fun kv => (depth (snd kv) < depth (JDict members))%nat) members.
Proof.
  cbn [depth]. induction members as [|kv members IH]; constructor.
  - cbn [fold_right]. lia.
  - revert IH. apply Forall_impl. intros x Hx. cbn [fold_right]. lia.
Qed.

Lemma value_start_nonempty s : value_start s -> s <> [].
Proof. intros (c & t & -> & _). discriminate. Qed.

Lemma member_text_value_start kv : value_start (member_text kv).
Proof.
  unfold member_text, encode_basestring. eexists 34, _.
  cbn [app]. repeat split; discriminate.
Qed.

(** [scan_once] reads back a serialised value and stops after it. *)
Lemma scan_once_dumps v :
  well_formed v ->
  forall d rest, (depth v < d)%nat -> delimited rest ->
    scan_once d (dumps false v ++ rest) = Ok (v, rest).
Proof.
  induction v as [| b | n | s | items IH | members IH] using value_ind;
    intros Hwf [|d] rest Hd Hrest; try (cbn in Hd; lia).
  - reflexivity.
  - destruct b; reflexivity.
  - now apply scan_once_int.
  - cbn [dumps]. rewrite encode_basestring_app. cbn [scan_once].
    change (34 =? 34) with true. cbv iota.
    rewrite scanstring_escaped by (apply valid_str_nonneg, Hwf).
    reflexivity.
  - apply well_formed_list in Hwf.
    cbn [dumps]. rewrite <- !app_assoc. cbn [app scan_once].
    change (91 =? 34) with false. change (91 =? 123) with false.
    change (91 =? 91) with true. cbv iota.
    destruct items as [|v items]; [reflexivity|].
    assert (Hstart : value_start
              (join item_separator (map (dumps false) (v :: items)) ++ 93 :: rest)).
    { apply value_start_app. cbn [map]. apply join_value_start, dumps_value_start. }
    rewrite JSONArray_nonempty by exact Hstart.
    rewrite array_items_dumps; [reflexivity|discriminate| |].
    + rewrite length_app. rewrite <- (length_map (dumps false) (v :: items)).
      assert (L : (length (map (dumps false) (v :: items)) <=
                   length (join item_separator (map (dumps false) (v :: items))))%nat).
      { apply join_length. apply Forall_map, Forall_forall. intros x _.
        apply value_start_nonempty, dumps_value_start. }
      unfold pystr in *. lia.
    + pose proof (depth_items (v :: items)) as Hdep.
      rewrite Forall_forall in IH, Hwf, Hdep. apply Forall_forall.
      intros x Hx rest' Hrest'.
      apply IH; auto. specialize (Hdep x Hx). lia.
  - apply well_formed_dict in Hwf. destruct Hwf as [Hnodup Hwf].
    cbn [dumps]. rewrite map_member_text. rewrite <- !app_assoc.
    cbn [app scan_once].
    change (123 =? 34) with false. change (123 =? 123) with true. cbv iota.
    destruct members as [|kv members]; [reflexivity|].
    destruct (object_pairs_dumps (scan_once d) (kv :: members) rest
                (length (join item_separator (map member_text (kv :: members))
                         ++ 125 :: rest)))
      as (body & Hbody & Hpairs); [discriminate| | |].
    + rewrite length_app. rewrite <- (length_map member_text (kv :: members)).
      assert (L : (length (map member_text (kv :: members)) <=
                   length (join item_separator (map member_text (kv :: members))))%nat).
      { apply join_length. apply Forall_map, Forall_forall. intros x _.
        apply value_start_nonempty, member_text_value_start. }
      unfold pystr in *. lia.
    + pose proof (depth_members (kv :: members)) as Hdep.
      rewrite Forall_forall in IH, Hwf, Hdep. apply Forall_forall.
      intros x Hx. destruct (Hwf x Hx) as [Hk Hv]. split; [exact Hk|].
      intros rest' Hrest'. apply IH; auto. specialize (Hdep x Hx). lia.
    + revert Hpairs. rewrite Hbody. intros Hpairs.
      rewrite JSONObject_nonempty. rewrite Hpairs. cbn [bind fst snd].
      now rewrite dict_of_pairs_nodup.
Qed.

Lemma depth_le_length v : (depth v <= length (dumps false v))%nat.
Proof.
  induction v as [| b | n | s | items IH | members IH] using value_ind;
    try (cbn [depth]; lia).
  - cbn [depth dumps]. rewrite !length_app. cbn [length].
    assert (H : (fold_right (fun x m => Nat.max (depth x) m) 0 items <=
                 length (join item_separator (map (dumps false) items)))%nat).
    { induction IH as [|v items Hv Hitems IHitems]; [cbn; lia|].
      cbn [fold_right map]. apply Nat.max_lub.
      - etransitivity; [exact Hv|]. apply join_part_length. now left.
      - etransitivity; [exact IHitems|].
        destruct items as [|v2 items]; [cbn; lia|].
        cbn [map]. rewrite join_cons2, !length_app. lia. }
    unfold pystr in *. lia.
  - cbn [depth dumps]. rewrite map_member_text, !length_app. cbn [length].
    assert (H : (fold_right (fun kv m => Nat.max (depth (snd kv)) m) 0 members <=
                 length (join item_separator (map member_text members)))%nat).
    { induction IH as [|kv members Hv Hmembers IHm]; [cbn; lia|].
      cbn [fold_right map]. apply Nat.max_lub.
      - etransitivity; [exact Hv|].
        etransitivity; [|apply (join_part_length _ _ (member_text kv)); now left].
        unfold member_text. rewrite !length_app. lia.
      - etransitivity; [exact IHm|].
        destruct members as [|kv2 members]; [cbn; lia|].
        cbn [map]. rewrite join_cons2, !length_app. lia. }
    unfold pystr in *. lia.
Qed.

(** [json.loads(json.dumps(v, ensure_ascii=False))] is [v]. *)
Lemma loads_dumps v : well_formed v -> loads (dumps false v) = Ok v.
Proof.
  intros Hwf. unfold loads.
  rewrite skip_ws_value_start by apply dumps_value_start.
  pose proof (scan_once_dumps v Hwf (S (length (dumps false v))) []) as H.
  rewrite app_nil_r in H. rewrite H; [reflexivity| |exact I].
  pose proof (depth_le_length v). lia.
Qed.

End RoundTrip.

(* ================================================================== *)
(** * Reading back what append wrote *)

Section WrittenStores.
Import Json JsonSpec Sqlite Logger Spec Samples JsonFacts AppendFacts
  SqliteFacts LikeFacts RoundTrip.

Lemma hex4_no_nul n : no_nul (hex4 n).
Proof.
  unfold hex4. repeat constructor;
    match goal with
    | |- Sha256.hex_digit ?d <> 0 =>
        pose proof (hex_digit_ascii d (Z.mod_pos_bound _ 16 eq_refl)); lia
    end.
Qed.

Lemma escape_char_no_nul c : no_nul (escape_char false c).
Proof.
  unfold escape_char, u_escape.
  repeat match goal with
         | |- context [if ?b then _ else _] => destruct b eqn:?
         end;
    ztest; try (repeat constructor; lia);
    (constructor; [lia|constructor; [lia|apply hex4_no_nul]]).
Qed.

Lemma encode_basestring_no_nul s : no_nul (encode_basestring false s).
Proof.
  unfold encode_basestring. constructor; [lia|].
  apply no_nul_app; [|repeat constructor; lia].
  induction s as [|c s IH]; [constructor|].
  cbn [flat_map]. apply no_nul_app; [apply escape_char_no_nul|exact IH].
Qed.

Lemma ascii_digits_no_nul s : all_digits s -> no_nul s.
Proof.
  apply Forall_impl. intros c Hc. unfold is_digit in Hc.
  apply andb_true_iff in Hc. destruct Hc as [Hc _]. apply Z.leb_le in Hc. lia.
Qed.

Lemma int_repr_no_nul n : no_nul (int_repr n).
Proof.
  unfold int_repr, digits. destruct (n <? 0).
  - constructor; [lia|]. apply ascii_digits_no_nul, digits_from_all_digits.
    constructor.
  - apply ascii_digits_no_nul, digits_from_all_digits. constructor.
Qed.

Lemma join_no_nul sep parts :
  no_nul sep -> Forall no_nul parts -> no_nul (join sep parts).
Proof.
  intros Hsep. induction 1 as [|p ps Hp Hps IH]; [constructor|].
  cbn [join]. destruct ps; [exact Hp|].
  apply no_nul_app; [exact Hp|]. apply no_nul_app; [exact Hsep|exact IH].
Qed.

(** The stored payload text never contains a NUL character: the encoder
    escapes it. *)
Lemma dumps_no_nul v : no_nul (dumps false v).
Proof.
  assert (Hsep : no_nul item_separator) by (repeat constructor; lia).
  induction v as [| b | n | s | items IH | members IH] using value_ind.
  - repeat constructor; lia.
  - destruct b; repeat constructor; lia.
  - apply int_repr_no_nul.
  - apply encode_basestring_no_nul.
  - cbn [dumps]. apply no_nul_app; [repeat constructor; lia|].
    apply no_nul_app; [|repeat constructor; lia].
    apply join_no_nul; [exact Hsep|]. apply Forall_map. exact IH.
  - cbn [dumps]. apply no_nul_app; [repeat constructor; lia|].
    apply no_nul_app; [|repeat constructor; lia].
    apply join_no_nul; [exact Hsep|].
    apply Forall_map. revert IH. apply Forall_impl. intros [k x] Hx.
    apply no_nul_app; [apply encode_basestring_no_nul|].
    apply no_nul_app; [repeat constructor; lia|exact Hx].
Qed.

(** Every row of a store written by [append] holds the serialisation of
    a well-formed payload. *)
Lemma reachable_rows st :
  reachable st ->
  Forall (fun r => exists p, well_formed p /\ payload r = dumps false p)
         (index st).
Proof.
  induction 1 as [|st w src p Hst IH Hwf Hsrc]; [constructor|].
  pose proof (append_cases w src p st) as C.
  inversion C; cbn [index]; try exact IH.
  apply Forall_app. split; [exact IH|].
  constructor; [|constructor]. exists p. split; [exact Hwf|reflexivity].
Qed.

Lemma reachable_decodable st : reachable st -> decodable st.
Proof.
  intros H. apply reachable_rows in H. revert H. apply Forall_impl.
  intros r (p & Hwf & ->). exists p. now apply loads_dumps.
Qed.

(** X12: on a store written by [append] (from well-formed payloads,
    whatever failed in between) the read paths do not fail on the data:
    every payload text decodes, [tail(n)] returns for every [n] in
    the 64-bit range and [search(term, limit)] for every encodable term
    and every limit in that range. *)
Theorem X12_reads_succeed_on_written_stores (st : store) (H : reachable st) :
  decodable st /\
  (forall n, in_int64 n = true -> exists entries, tail None n st = Ok entries) /\
  (forall term limit,
      (exists b, encode term = Ok b) -> in_int64 limit = true ->
      exists entries, search None term limit st = Ok entries).
Proof.
  pose proof (reachable_decodable st H) as Hd.
  split; [exact Hd|]. split.
  - intros n Hn. destruct (tail_returns st n Hn Hd) as (entries & Ht & _).
    now exists entries.
  - intros term limit Henc Hlim.
    destruct (search_returns st term limit Henc Hlim Hd) as (entries & Hs & _).
    now exists entries.
Qed.

Lemma valid_str_closed s :
  forallb (fun c => (0 <=? c) && (c <? 1114112)) s = true -> valid_str s.
Proof.
  intros H. apply Forall_forall. intros c Hc.
  rewrite forallb_forall in H. specialize (H c Hc).
  apply andb_true_iff in H. destruct H as [H1 H2].
  apply Z.leb_le in H1. apply Z.ltb_lt in H2. lia.
Qed.

Lemma no_nul_closed s :
  forallb (fun c => negb (c =? 0)) s = true -> no_nul s.
Proof.
  intros H. apply Forall_forall. intros c Hc.
  rewrite forallb_forall in H. specialize (H c Hc).
  apply negb_true_iff, Z.eqb_neq in H. exact H.
Qed.

Lemma run_reachable calls st :
  reachable st ->
  Forall (fun c => well_formed (call_payload c) /\ valid_str (call_source c))
         calls ->
  reachable (snd (run calls st)).
Proof.
  intros Hst Hcalls. revert st Hst.
  induction Hcalls as [|c calls [Hwf Hsrc] _ IH]; intros st Hst; [exact Hst|].
  cbn [run].
  pose proof (reach_append st (call_env c) (call_source c) (call_payload c)
                Hst Hwf Hsrc) as H1.
  destruct (append (call_env c) (call_source c) (call_payload c) st) as [r st1].
  specialize (IH st1 H1). destruct (run calls st1) as [rs st2]. exact IH.
Qed.

Lemma reachable_same_second_store : reachable same_second_store.
Proof.
  apply run_reachable; [apply reach_empty|].
  repeat constructor; cbn; try lia; try (intros [H|[]]; discriminate).
Qed.

Lemma X12_witness :
  exists entries, tail None 10 same_second_store = Ok entries.
Proof.
  destruct (X12_reads_succeed_on_written_stores same_second_store
              reachable_same_second_store) as (_ & Ht & _).
  apply Ht. reflexivity.
Defined.

Lemma decoded_In rows entries r e :
  decoded rows entries -> In r rows -> decode_row r = Ok e -> In e entries.
Proof.
  induction 1 as [|r' e' rows entries Hr _ IH]; intros Hin He; [contradiction|].
  destruct Hin as [->|Hin].
  - left. congruence.
  - right. now apply IH.
Qed.

(** X13: what was ingested is what is read.  After a successful
    [append] of a well-formed payload on a store written by [append],
    [tail(-1)] returns one entry more than the index had rows, and among
    them the entry with the time stamp, fingerprint and source of the
    call and a payload equal to the payload that was passed in. *)
Theorem X13_tail_returns_ingested_payload
  (w : env) (src : pystr) (p : value) (st st' : store)
  (Hst : reachable st) (Hwf : well_formed p) (Hsrc : valid_str src)
  (Happ : append w src p st = (Ok tt, st')) :
  exists entries,
    tail None (-1) st' = Ok entries /\
    In (Entry (now w) (fingerprint p) src p) entries /\
    length entries = S (length (index st)).
Proof.
  assert (Hst' : reachable st').
  { replace st' with (snd (append w src p st)) by now rewrite Happ.
    now apply reach_append. }
  pose proof (reachable_decodable st' Hst') as Hd.
  destruct (tail_returns st' (-1) eq_refl Hd) as (entries & Ht & Hdec).
  destruct (select_spec (fun _ => true) (-1) (index st'))
    as (rest & Hperm & _ & _ & Hrest & _).
  rewrite (Hrest ltac:(lia)), app_nil_r, filter_true in Hperm.
  apply append_inv in Happ. inversion Happ; subst; clear Happ.
  cbn [index] in *.
  exists entries. split; [exact Ht|]. split.
  - apply (decoded_In _ _ (row_of w src p) _ Hdec).
    + apply (Permutation_in _ (Permutation_sym Hperm)).
      apply in_or_app. right. now left.
    + unfold decode_row. cbn [row_of payload ts sha source].
      now rewrite loads_dumps.
  - rewrite (decoded_length _ _ Hdec), (Permutation_length Hperm).
    rewrite length_app. cbn. lia.
Qed.

Lemma X13_witness :
  exists entries,
    tail None (-1) one_record_store = Ok entries /\
    In (Entry 1700000000 (fingerprint sample_payload) (lit "test") sample_payload)
       entries.
Proof.
  assert (Happ : append quiet_world (lit "test") sample_payload empty =
                 (Ok tt, one_record_store)) by (vm_compute; reflexivity).
  assert (Hwf : well_formed sample_payload).
  { cbn. repeat split; try (repeat constructor; lia).
    constructor; [intros [H|[]]; discriminate|].
    constructor; [intros []|constructor]. }
  assert (Hsrc : valid_str (lit "test")) by (apply valid_str_closed; reflexivity).
  destruct (X13_tail_returns_ingested_payload
              quiet_world (lit "test") sample_payload empty one_record_store
              reach_empty Hwf Hsrc Happ) as (entries & Ht & Hin & _).
  exists entries. split; assumption.
Defined.

(** X14: [search] finds every record whose stored payload text contains
    the term.  On a store written by [append], for an encodable term
    without NUL and with no limit ([limit = -1]), every row whose payload
    text contains the term, character for character, is among the rows
    returned, whatever [%] and [_] the term has. *)
Theorem X14_search_finds_containing_rows
  (st : store) (term : pystr) (r : row)
  (Hst : reachable st)
  (Henc : exists b, encode term = Ok b) (Hnul : no_nul term)
  (Hin : In r (index st)) (Hterm : contains term (payload r)) :
  exists entries e,
    search None term (-1) st = Ok entries /\
    decode_row r = Ok e /\
    In e entries.
Proof.
  pose proof (reachable_decodable st Hst) as Hd.
  destruct (search_returns st term (-1) Henc eq_refl Hd) as (entries & Hs & Hdec).
  set (p := fun r0 : row => like ([37] ++ term ++ [37]) (payload r0)) in *.
  destruct (select_spec p (-1) (index st)) as (rest & Hperm & _ & _ & Hrest & _).
  rewrite (Hrest ltac:(lia)), app_nil_r in Hperm.
  assert (Hlike : p r = true).
  { unfold p. apply like_contains; [exact Hnul| |exact Hterm].
    pose proof (reachable_rows st Hst) as Hrows.
    rewrite Forall_forall in Hrows. destruct (Hrows r Hin) as (q & _ & ->).
    apply dumps_no_nul. }
  assert (Hsel : In r (select p (-1) (index st))).
  { apply (Permutation_in _ (Permutation_sym Hperm)).
    apply filter_In. now split. }
  unfold decodable in Hd. rewrite Forall_forall in Hd.
  destruct (Hd r Hin) as [v Hv].
  exists entries, (Entry (ts r) (sha r) (source r) v).
  assert (He : decode_row r = Ok (Entry (ts r) (sha r) (source r) v)).
  { unfold decode_row. now rewrite Hv. }
  split; [exact Hs|]. split; [exact He|].
  exact (decoded_In _ _ r _ Hdec Hsel He).
Qed.

Lemma X14_witness :
  exists entries e,
    search None (lit "world") (-1) same_second_store = Ok entries /\
    decode_row (row_of quiet_world (lit "svc2") world_payload) = Ok e /\
    In e entries.
Proof.
  apply (X14_search_finds_containing_rows same_second_store (lit "world")
           (row_of quiet_world (lit "svc2") world_payload)
           reachable_same_second_store).
  - exists (lit "world"). reflexivity.
  - apply no_nul_closed. reflexivity.
  - rewrite index_same_second_store. right. now left.
  - exists [123; 34; 109; 115; 103; 34; 58; 32; 34], [34; 125].
    vm_compute. reflexivity.
Defined.

End WrittenStores.

(* ================================================================== *)
(** * search as a filter of tail *)

Section SearchAsFilter.
Import Json JsonSpec Sqlite Logger Spec Samples ReadSpec.
Import JsonFacts AppendFacts SqliteFacts RoundTrip.







End SearchAsFilter.

(* ================================================================== *)
(** * When append succeeds *)

Section AppendSuccess.
Import Json JsonSpec Sqlite Logger Spec Limits Samples JsonFacts AppendFacts
  RoundTrip.

Lemma encode_raises s e : encode s = Raise e -> e = UnicodeEncodeError.
Proof.
  induction s as [|c s IH]; [discriminate|].
  cbn [encode]. destruct (encode_char c) as [b|e'] eqn:Ec.
  - cbn [bind]. destruct (encode s) as [bs|e'']; [discriminate|].
    cbn [bind]. intros [= <-]. now apply IH.
  - cbn [bind]. intros [= <-]. unfold encode_char in Ec.
    repeat match type of Ec with
           | (if ?b then _ else _) = _ => destruct b
           end; congruence.
Qed.

Lemma encode_char_surrogate c :
  55296 <= c <= 57343 -> encode_char c = Raise UnicodeEncodeError.
Proof.
  intros H. unfold encode_char.
  destruct (c <? 0) eqn:E0; [reflexivity|].
  destruct (c <? 128) eqn:E1; [apply Z.ltb_lt in E1; lia|].
  destruct (c <? 2048) eqn:E2; [apply Z.ltb_lt in E2; lia|].
  destruct (c <? 65536) eqn:E3; [|apply Z.ltb_ge in E3; lia].
  replace ((55296 <=? c) && (c <=? 57343)) with true; [reflexivity|].
  symmetry. apply andb_true_iff. split; apply Z.leb_le; lia.
Qed.

Lemma encode_with_surrogate s c :
  In c s -> 55296 <= c <= 57343 -> encode s = Raise UnicodeEncodeError.
Proof.
  intros Hin Hc. destruct (encode s) as [b|e] eqn:E.
  - exfalso. apply in_split in Hin. destruct Hin as (s1 & s2 & ->).
    apply encode_app_inv in E. destruct E as (b1 & b2 & _ & E2 & _).
    cbn [encode] in E2. rewrite (encode_char_surrogate c Hc) in E2.
    discriminate.
  - f_equal. now apply encode_raises in E.
Qed.

Lemma escape_char_surrogate c :
  55296 <= c <= 57343 -> escape_char false c = [c].
Proof.
  intros H. unfold escape_char.
  repeat match goal with
         | |- context [if ?a =? ?b then _ else _] =>
             let E := fresh "E" in
             destruct (a =? b) eqn:E; [apply Z.eqb_eq in E; lia|]
         end.
  destruct (c <? 32) eqn:E32; [apply Z.ltb_lt in E32; lia|reflexivity].
Qed.

Lemma surrogate_in_basestring s c :
  In c s -> 55296 <= c <= 57343 -> In c (encode_basestring false s).
Proof.
  intros Hin Hc. unfold encode_basestring. right. apply in_or_app. left.
  apply in_flat_map. exists c. split; [exact Hin|].
  rewrite escape_char_surrogate by exact Hc. now left.
Qed.

Lemma source_in_line w src p c :
  In c (encode_basestring false src) -> In c (line_of w src p).
Proof.
  intros H. unfold line_of. rewrite rec_text, !in_app_iff. tauto.
Qed.

Lemma payload_in_line w src p c :
  In c (dumps false p) -> In c (line_of w src p).
Proof.
  intros H. unfold line_of. rewrite rec_text, !in_app_iff. tauto.
Qed.

(** X15: a lone surrogate in the source label or in the payload text
    makes [append] fail in the write to the log, with UnicodeEncodeError
    (or with the exception of the file system, when that fails): the
    line is not written and no insert is attempted, so both stores stay
    as they were. *)
Theorem X15_surrogate_fails_before_any_write
  (w : env) (src : pystr) (p : value) (st : store) (c : Z)
  (Hc : 55296 <= c <= 57343)
  (Hin : In c src \/ In c (dumps false p)) :
  fst (append w src p st) =
    Raise (match log_io w with Some e => e | None => UnicodeEncodeError end) /\
  log (snd (append w src p st)) = log st /\
  index (snd (append w src p st)) = index st.
Proof.
  assert (Hline : encode (line_of w src p) = Raise UnicodeEncodeError).
  { apply (encode_with_surrogate _ c); [|exact Hc].
    destruct Hin as [Hin|Hin].
    - now apply source_in_line, surrogate_in_basestring.
    - now apply payload_in_line. }
  rewrite append_unfold.
  destruct (gzip_write_cases (log_io w) (line_of w src p) st)
    as [(e & -> & He) | (_ & _ & b & Hb)].
  - cbn [fst snd log index]. repeat split.
    destruct He as [-> | [-> He]]; [reflexivity|].
    rewrite Hline in He. now injection He as <-.
  - rewrite Hline in Hb. discriminate.
Qed.

Lemma X15_witness :
  fst (append quiet_world [55296] sample_payload empty) =
    Raise UnicodeEncodeError /\
  index (snd (append quiet_world [55296] sample_payload empty)) = [].
Proof.
  destruct (X15_surrogate_fails_before_any_write
              quiet_world [55296] sample_payload empty 55296)
    as (Hr & _ & Hi); [lia|left; now left|].
  split; [exact Hr|exact Hi].
Defined.

Lemma hexdigest_ascii msg : ascii_only (Sha256.hexdigest msg).
Proof.
  unfold Sha256.hexdigest, Sha256.digest.
  generalize (Sha256.blocks
                (length (Sha256.words (length (Sha256.pad msg)) (Sha256.pad msg)))
                (Sha256.words (length (Sha256.pad msg)) (Sha256.pad msg))
                Sha256.init).
  intros h. unfold ascii_only. apply Forall_flat_map, Forall_forall.
  intros b Hb. apply in_flat_map in Hb. destruct Hb as (x & _ & Hb).
  unfold Sha256.be_bytes in Hb. apply in_map_iff in Hb.
  destruct Hb as (i & <- & _).
  set (y := Z.shiftr x (8 * Z.of_nat i)).
  assert (R : 0 <= y mod 256 < 256) by (apply Z.mod_pos_bound; lia).
  assert (R1 : 0 <= y mod 256 / 16 < 16).
  { split; [apply Z.div_pos; lia|apply Z.div_lt_upper_bound; lia]. }
  assert (R2 : 0 <= (y mod 256) mod 16 < 16) by (apply Z.mod_pos_bound; lia).
  pose proof (hex_digit_ascii _ R1). pose proof (hex_digit_ascii _ R2).
  repeat constructor; lia.
Qed.

Lemma encodable_app s1 s2 :
  (exists b, encode (s1 ++ s2) = Ok b) <->
  (exists b, encode s1 = Ok b) /\ (exists b, encode s2 = Ok b).
Proof.
  split.
  - intros [b H]. apply encode_app_inv in H.
    destruct H as (b1 & b2 & H1 & H2 & _). eauto.
  - intros [[b1 H1] [b2 H2]]. eauto using encode_app.
Qed.

Lemma encodable_ascii s : ascii_only s -> exists b, encode s = Ok b.
Proof. intros H. exists s. now apply encode_ascii. Qed.

Lemma encodable_one c :
  (exists b, encode [c] = Ok b) <-> (exists b, encode_char c = Ok b).
Proof.
  cbn [encode]. destruct (encode_char c) as [b|e]; cbn [bind].
  - split; eauto.
  - split; intros [b H]; discriminate.
Qed.

(** Escaping keeps a text encodable, and takes nothing away that is not:
    the characters the encoder of UTF-8 refuses are written as they
    are. *)
Lemma escape_char_encodable c :
  0 <= c ->
  (exists b, encode (escape_char false c) = Ok b) <->
  (exists b, encode_char c = Ok b).
Proof.
  intros Hc. pose proof (encodable_one c) as One.
  destruct (Z_lt_ge_dec c 128) as [Hlo|Hhi].
  - split; intros _.
    + exists [c]. apply encode_char_ascii. lia.
    + apply encodable_ascii. unfold escape_char.
      repeat match goal with
             | |- context [if ?a =? ?b then _ else _] =>
                 destruct (a =? b); [repeat constructor; lia|]
             end.
      destruct (c <? 32); [apply u_escape_ascii|].
      repeat constructor; lia.
  - replace (escape_char false c) with [c]; [exact One|].
    unfold escape_char.
    repeat match goal with
           | |- context [if ?a =? ?b then _ else _] =>
               let E := fresh "E" in
               destruct (a =? b) eqn:E; [apply Z.eqb_eq in E; lia|]
           end.
    destruct (c <? 32) eqn:E32; [apply Z.ltb_lt in E32; lia|reflexivity].
Qed.

Lemma basestring_encodable s :
  Forall (fun c => 0 <= c) s ->
  (exists b, encode (encode_basestring false s) = Ok b) <->
  (exists b, encode s = Ok b).
Proof.
  intros Hs. unfold encode_basestring.
  change (34 :: flat_map (escape_char false) s ++ [34])
    with ([34] ++ flat_map (escape_char false) s ++ [34]).
  rewrite !encodable_app.
  assert (Q : exists b, encode [34] = Ok b) by (exists [34]; reflexivity).
  assert (M : (exists b, encode (flat_map (escape_char false) s) = Ok b) <->
              (exists b, encode s = Ok b)).
  { induction Hs as [|c s Hc Hs IH].
    - cbn. split; eauto.
    - cbn [flat_map]. change (c :: s) with ([c] ++ s).
      rewrite !encodable_app, IH, (escape_char_encodable c Hc), encodable_one.
      tauto. }
  tauto.
Qed.

Lemma line_encodable w src p :
  Forall (fun c => 0 <= c) src ->
  (exists b, encode (line_of w src p) = Ok b) <->
  (exists b, encode src = Ok b) /\ (exists b, encode (dumps false p) = Ok b).
Proof.
  intros Hsrc. unfold line_of. rewrite rec_text.
  change ([123] ++ ?x) with ([123] ++ x).
  rewrite !encodable_app, (basestring_encodable src Hsrc).
  assert (A : forall s, ascii_only s -> (exists b, encode s = Ok b) <-> True).
  { intros s H. split; [trivial|intros _; now apply encodable_ascii]. }
  rewrite (A [123]), (A [125]), (A [10]) by (repeat constructor; lia).
  rewrite (A item_separator) by apply item_separator_ascii.
  rewrite (A key_separator) by (repeat constructor; lia).
  rewrite (A (int_repr (now w))) by apply int_repr_ascii.
  assert (P : forall s, ascii_only s ->
                (exists b, encode (encode_basestring false s) = Ok b) <-> True).
  { intros s H. rewrite basestring_encodable; [now apply A|].
    eapply Forall_impl; [|exact H]. cbn. intros; lia. }
  rewrite (P (fingerprint p)) by apply hexdigest_ascii.
  rewrite (P key_ts), (P key_sha), (P key_source), (P key_payload)
    by (repeat constructor; lia).
  tauto.
Qed.

(** X16: for a source label that is a Python string and a payload of
    the JSON types that is within the limits of the interpreter
    (integers of at most 4300 digits, a nesting of at most 100
    containers; beyond them [json.dumps] raises, which the model does
    not follow), [append] returns normally exactly when the log file
    and the database can be written, the time stamp is a 64-bit integer,
    and both the source label and the text of the payload can be encoded
    in UTF-8. *)
Theorem X16_append_succeeds_exactly_when
  (w : env) (src : pystr) (p : value) (st : store)
  (Hsrc : valid_str src) (Hwf : well_formed p) (Hlim : within_limits p) :
  fst (append w src p st) = Ok tt <->
  log_io w = None /\ db_io w = None /\ in_int64 (now w) = true /\
  (exists b, encode src = Ok b) /\ (exists b, encode (dumps false p) = Ok b).
Proof.
  assert (Hpos : Forall (fun c => 0 <= c) src).
  { eapply Forall_impl; [|exact Hsrc]. cbn. intros; lia. }
  rewrite <- (line_encodable w src p Hpos), append_unfold.
  destruct (gzip_write_cases (log_io w) (line_of w src p) st)
    as [(e & -> & He) | (-> & Hio & b & Hb)].
  - cbn [fst]. split; [discriminate|].
    intros (Hl & _ & _ & b & Hb).
    destruct He as [He | [_ He]]; congruence.
  - destruct (sqlite_insert_cases (db_io w) (now w) (fingerprint p) src
                (dumps false p)
                (Store (log st ++ [line_of w src p]) (index st)
                       (history st ++ [LogWrite (line_of w src p) (Ok tt)])))
      as [(e & -> & He) | (-> & Hdb & Hts)].
    + cbn [fst]. split; [discriminate|].
      intros (_ & Hdb & Hts & _).
      destruct He as [He | [_ He]]; [congruence|].
      exfalso.
      destruct (proj1 (line_encodable w src p Hpos) (ex_intro _ b Hb))
        as [Es Ep].
      unfold bound_row in He.
      rewrite (bind_int_in_range _ Hts) in He. cbn [bind] in He.
      rewrite (bind_text_encodable (fingerprint p)) in He
        by (apply encodable_ascii, hexdigest_ascii).
      cbn [bind] in He.
      rewrite (bind_text_encodable src Es) in He. cbn [bind] in He.
      rewrite (bind_text_encodable _ Ep) in He. discriminate.
    + cbn [fst]. split; [|reflexivity]. intros _. eauto 6.
Qed.

Lemma sample_payload_well_formed : well_formed sample_payload.
Proof.
  cbn. repeat split; try (repeat constructor; lia).
  constructor; [intros [H|[]]; discriminate|].
  constructor; [intros []|constructor].
Qed.

Lemma sample_payload_within_limits : within_limits sample_payload.
Proof.
  split.
  - cbn [ints_below sample_payload snd]. repeat split; vm_compute; reflexivity.
  - unfold max_nesting. vm_compute. lia.
Qed.

Lemma X16_witness :
  fst (append quiet_world (lit "test") sample_payload empty) = Ok tt <->
  log_io quiet_world = None /\ db_io quiet_world = None /\
  in_int64 (now quiet_world) = true /\
  (exists b, encode (lit "test") = Ok b) /\
  (exists b, encode (dumps false sample_payload) = Ok b).
Proof.
  apply (X16_append_succeeds_exactly_when
           quiet_world (lit "test") sample_payload empty).
  - apply valid_str_closed. reflexivity.
  - exact sample_payload_well_formed.
  - exact sample_payload_within_limits.
Defined.

End AppendSuccess.

(* ================================================================== *)
(** * The order of the two writes *)

Section AppendOrder.
Import Json JsonSpec Sqlite Logger Spec Limits Samples JsonFacts AppendFacts
  RoundTrip.

Lemma encodable_nonneg s :
  (exists b, encode s = Ok b) -> Forall (fun c => 0 <= c) s.
Proof.
  induction s as [|c s IH]; intros [b H]; [constructor|].
  cbn [encode] in H.
  destruct (encode_char c) as [bc|e] eqn:Ec; [|discriminate].
  cbn [bind] in H. destruct (encode s) as [bs|e] eqn:Es; [|discriminate].
  constructor; [|apply IH; eauto].
  unfold encode_char in Ec. destruct (c <? 0) eqn:E0; [discriminate|].
  now apply Z.ltb_ge in E0.
Qed.

Lemma bound_row_encodable t h s x :
  in_int64 t = true ->
  (exists b, encode h = Ok b) -> (exists b, encode s = Ok b) ->
  (exists b, encode x = Ok b) ->
  bound_row t h s x = Ok (Row t h s x).
Proof.
  intros Ht Hh Hs Hx. unfold bound_row.
  rewrite (bind_int_in_range t Ht). cbn [bind].
  rewrite (bind_text_encodable h Hh). cbn [bind].
  rewrite (bind_text_encodable s Hs). cbn [bind].
  now rewrite (bind_text_encodable x Hx).
Qed.

(** C6: [append] first writes the line to the log and only then inserts
    the row; each store is tried once, in this order, and the row that
    is inserted holds the record of the line.  An exception of either
    store is the outcome of [append].  When the insert raises after the
    write, the line stays in the log, so that log and index no longer
    match.  When neither store fails (the files can be written, the
    strings can be encoded, the time stamp is a 64-bit integer), for a
    payload of the JSON types within the limits of the interpreter
    (beyond them [json.dumps] raises before any write, which the model
    does not follow), [append] returns normally with the line written
    and then the row inserted. *)
Theorem C6_log_then_index_errors_propagate
  (w : env) (src : pystr) (p : value) (st st' : store) (r : result unit)
  (H : append w src p st = (r, st')) :
  ((exists e, r = Raise e /\
      history st' = history st ++ [LogWrite (line_of w src p) (Raise e)] /\
      log st' = log st /\ index st' = index st)
   \/
   (history st' =
      history st ++
      [LogWrite (line_of w src p) (Ok tt);
       IndexInsert (now w) (fingerprint p) src (dumps false p) r] /\
    log st' = log st ++ [line_of w src p] /\
    index st' = index st ++ (if is_ok r then [row_of w src p] else []))) /\
  (forall e, log_io w = Some e -> r = Raise e) /\
  (forall e, log_io w = None ->
             (exists b, encode (line_of w src p) = Ok b) ->
             db_io w = Some e ->
             r = Raise e /\
             log st' = log st ++ [line_of w src p] /\
             index st' = index st /\
             (consistent st -> ~ consistent st')) /\
  (well_formed p -> within_limits p ->
   log_io w = None -> db_io w = None -> in_int64 (now w) = true ->
   (exists b, encode src = Ok b) ->
   (exists b, encode (dumps false p) = Ok b) ->
   r = Ok tt /\
   history st' =
     history st ++
     [LogWrite (line_of w src p) (Ok tt);
      IndexInsert (now w) (fingerprint p) src (dumps false p) (Ok tt)] /\
   log st' = log st ++ [line_of w src p] /\
   index st' = index st ++ [row_of w src p] /\
   corresponds (line_of w src p) (row_of w src p)).
Proof.
  assert (Fine : log_io w = None -> db_io w = None -> in_int64 (now w) = true ->
                 (exists b, encode src = Ok b) ->
                 (exists b, encode (dumps false p) = Ok b) ->
                 (exists b, encode (line_of w src p) = Ok b) /\
                 bound_row (now w) (fingerprint p) src (dumps false p) =
                   Ok (row_of w src p)).
  { intros _ _ Hts Hs Hp. split.
    - apply line_encodable; [now apply encodable_nonneg|now split].
    - apply bound_row_encodable; try assumption.
      apply encodable_ascii, hexdigest_ascii. }
  apply append_inv in H.
  inversion H as [e He | e Hlog He | Hlog Hdb Hts]; subst; clear H;
    cbn [log index history is_ok].
  - split; [left; exists e; auto|]. split; [|split].
    + intros e' E. destruct He as [He | [He _]]; congruence.
    + intros e' E [b Hb] _. destruct He as [He | [_ He]]; congruence.
    + intros _ _ Hl Hd Hts Hs Hp. exfalso.
      destruct (Fine Hl Hd Hts Hs Hp) as [[b Hb] _].
      destruct He as [He | [_ He]]; congruence.
  - split; [right; rewrite app_nil_r; auto|]. split; [|split].
    + intros e' E. congruence.
    + intros e' _ _ E. destruct He as [He | [He _]]; [|congruence].
      assert (e' = e) by congruence. subst e'.
      repeat split. intros Hc Hc'.
      apply consistent_length in Hc, Hc'. cbn [log index] in Hc'.
      rewrite length_app in Hc'. cbn in Hc'. lia.
    + intros _ _ Hl Hd Hts Hs Hp. exfalso.
      destruct (Fine Hl Hd Hts Hs Hp) as [_ Hb].
      destruct He as [He | [_ He]]; congruence.
  - split; [right; auto|]. split; [|split].
    + intros e' E. congruence.
    + intros e' _ _ E. congruence.
    + intros _ _ _ _ _ _ _. repeat split. apply corresponds_line_row.
Qed.

Lemma C6_witness :
  fst (append index_down_world (lit "test") sample_payload empty) =
    Raise (sqlite3_Error 5) /\
  log (snd (append index_down_world (lit "test") sample_payload empty)) =
    [line_of index_down_world (lit "test") sample_payload] /\
  index (snd (append index_down_world (lit "test") sample_payload empty)) = [].
Proof.
  destruct (C6_log_then_index_errors_propagate
              index_down_world (lit "test") sample_payload empty _ _
              (surjective_pairing _)) as (_ & _ & Hdb & _).
  assert (Henc : exists b,
             encode (line_of index_down_world (lit "test") sample_payload) = Ok b)
    by (eexists; vm_compute; reflexivity).
  destruct (Hdb (sqlite3_Error 5) eq_refl Henc eq_refl) as (Hr & Hl & Hi & _).
  auto.
Defined.

End AppendOrder.

(* ================================================================== *)
(** * What json.loads returns *)

Module LoadsFacts.
Import Json JsonSpec Spec CliSpec JsonFacts RoundTrip.

Lemma unhex_range c d : unhex c = Some d -> 0 <= d < 16.
Proof.
  unfold unhex.
  destruct ((48 <=? c) && (c <=? 57)) eqn:E1.
  { apply andb_true_iff in E1. destruct E1 as [A B].
    apply Z.leb_le in A, B. intros [= <-]. lia. }
  destruct ((97 <=? c) && (c <=? 102)) eqn:E2.
  { apply andb_true_iff in E2. destruct E2 as [A B].
    apply Z.leb_le in A, B. intros [= <-]. lia. }
  destruct ((65 <=? c) && (c <=? 70)) eqn:E3; [|discriminate].
  apply andb_true_iff in E3. destruct E3 as [A B].
  apply Z.leb_le in A, B. intros [= <-]. lia.
Qed.

Lemma decode_hex4_range a b c d n :
  decode_hex4 a b c d = Some n -> 0 <= n < 65536.
Proof.
  unfold decode_hex4.
  destruct (unhex a) as [x|] eqn:Ea; [|discriminate].
  destruct (unhex b) as [y|] eqn:Eb; [|discriminate].
  destruct (unhex c) as [z|] eqn:Ec; [|discriminate].
  destruct (unhex d) as [u|] eqn:Ed; [|discriminate].
  apply unhex_range in Ea. apply unhex_range in Eb.
  apply unhex_range in Ec. apply unhex_range in Ed.
  intros H.
  assert (E : 4096 * x + 256 * y + 16 * z + u = n) by congruence. lia.
Qed.

Lemma backslash_range e ch : backslash e = Some ch -> 0 <= ch < 128.
Proof.
  unfold backslash.
  repeat match goal with
         | |- (if ?b then _ else _) = _ -> _ =>
             destruct b; [intros [= <-]; lia|]
         end.
  discriminate.
Qed.

Lemma lor_below a b n :
  0 <= n -> 0 <= a < 2 ^ n -> 0 <= b < 2 ^ n -> 0 <= Z.lor a b < 2 ^ n.
Proof.
  intros Hn Ha Hb. split; [apply Z.lor_nonneg; lia|].
  destruct (Z.eq_dec (Z.lor a b) 0) as [->|Hz]; [lia|].
  assert (Hpos : 0 < Z.lor a b) by (pose proof (proj2 (Z.lor_nonneg a b)); lia).
  assert (Hn' : 0 < n).
  { destruct (Z.eq_dec n 0) as [->|]; [|lia]. exfalso.
    change (2 ^ 0) with 1 in *.
    assert (a = 0) by lia. assert (b = 0) by lia. subst. now apply Hz. }
  apply Z.log2_lt_pow2; [exact Hpos|].
  rewrite Z.log2_lor by lia.
  apply Z.max_lub_lt.
  - destruct (Z.eq_dec a 0) as [->|Ha0]; [cbn; lia|].
    apply Z.log2_lt_pow2; lia.
  - destruct (Z.eq_dec b 0) as [->|Hb0]; [cbn; lia|].
    apply Z.log2_lt_pow2; lia.
Qed.

Lemma join_surrogates_range hi lo :
  65536 <= join_surrogates hi lo < 1114112.
Proof.
  unfold join_surrogates.
  assert (A : 0 <= Z.land hi 1023 < 1024).
  { change 1023 with (Z.ones 10). rewrite Z.land_ones by lia.
    apply Z.mod_pos_bound. lia. }
  assert (B : 0 <= Z.land lo 1023 < 1024).
  { change 1023 with (Z.ones 10). rewrite Z.land_ones by lia.
    apply Z.mod_pos_bound. lia. }
  assert (C : 0 <= Z.shiftl (Z.land hi 1023) 10 < 2 ^ 20).
  { rewrite Z.shiftl_mul_pow2 by lia. change (2 ^ 10) with 1024.
    change (2 ^ 20) with 1048576. lia. }
  assert (B' : 0 <= Z.land lo 1023 < 2 ^ 20)
    by (change (2 ^ 20) with 1048576; lia).
  pose proof (lor_below _ _ 20 ltac:(lia) C B') as D.
  change (2 ^ 20) with 1048576 in D. lia.
Qed.

Lemma cons_char_ok c r s rest :
  cons_char c r = Ok (s, rest) ->
  exists s', r = Ok (s', rest) /\ s = c :: s'.
Proof.
  unfold cons_char. destruct r as [[s' rest']|e]; [|discriminate].
  cbn. intros [= <- <-]. eauto.
Qed.

(** A string read by [scanstring] has code points only, and so has the
    text left after it. *)
Lemma scanstring_valid n :
  forall s, (length s <= n)%nat -> valid_str s ->
  forall r rest, scanstring s = Ok (r, rest) -> valid_str r /\ valid_str rest.
Proof.
  induction n as [|n IH]; intros s Hlen Hs r rest.
  { destruct s; [discriminate|cbn in Hlen; lia]. }
  assert (Step : forall c t,
            0 <= c < 1114112 -> (length t <= n)%nat -> valid_str t ->
            cons_char c (scanstring t) = Ok (r, rest) ->
            valid_str r /\ valid_str rest).
  { intros c t Hc Ht Hv H. apply cons_char_ok in H.
    destruct H as (s' & H & ->).
    destruct (IH t Ht Hv _ _ H) as [A B].
    split; [constructor; assumption|exact B]. }
  destruct s as [|c s1]; [discriminate|].
  cbn [length] in Hlen. inversion Hs as [|? ? Hc Hs1]; subst.
  cbn [scanstring].
  destruct (c =? 34) eqn:E34.
  { intros [= <- <-]. split; [constructor|exact Hs1]. }
  destruct (c =? 92) eqn:E92.
  2:{ destruct (c <? 32); [discriminate|].
      apply Step; [exact Hc|lia|exact Hs1]. }
  destruct s1 as [|e s2]; [discriminate|].
  cbn [length] in Hlen. inversion Hs1 as [|? ? He Hs2]; subst.
  destruct (e =? 117) eqn:E117.
  2:{ destruct (backslash e) as [ch|] eqn:Eb; [|discriminate].
      apply backslash_range in Eb.
      apply Step; [lia|lia|exact Hs2]. }
  destruct s2 as [|x1 [|x2 [|x3 [|x4 s6]]]]; try discriminate.
  cbn [length] in Hlen.
  assert (Hs6 : valid_str s6).
  { do 4 (apply Forall_inv_tail in Hs2). exact Hs2. }
  destruct (decode_hex4 x1 x2 x3 x4) as [uni|] eqn:Eu; [|discriminate].
  apply decode_hex4_range in Eu.
  assert (Plain : cons_char uni (scanstring s6) = Ok (r, rest) ->
                  valid_str r /\ valid_str rest).
  { apply Step; [lia|lia|exact Hs6]. }
  destruct (is_high_surrogate uni); [|exact Plain].
  destruct s6 as [|b [|u [|y1 [|y2 [|y3 [|y4 s12]]]]]]; try exact Plain.
  destruct ((b =? 92) && (u =? 117)); [|exact Plain].
  destruct (decode_hex4 y1 y2 y3 y4) as [uni2|]; [|discriminate].
  destruct (is_low_surrogate uni2); [|exact Plain].
  apply Step.
  - pose proof (join_surrogates_range uni uni2). lia.
  - cbn [length] in Hlen |- *. lia.
  - do 6 (apply Forall_inv_tail in Hs6). exact Hs6.
Qed.

Lemma skip_ws_valid s : valid_str s -> valid_str (skip_ws s).
Proof.
  induction 1 as [|c s Hc Hs IH]; [constructor|].
  cbn [skip_ws]. destruct (is_ws c); [exact IH|now constructor].
Qed.

Lemma strip_prefix_valid p s rest :
  strip_prefix p s = Some rest -> valid_str s -> valid_str rest.
Proof.
  revert s. induction p as [|a p IH]; intros s H Hs.
  - cbn in H. now injection H as <-.
  - destruct s as [|b s]; [discriminate|]. cbn [strip_prefix] in H.
    destruct (a =? b); [|discriminate].
    apply (IH s H). now apply Forall_inv_tail in Hs.
Qed.

Lemma scan_digits_valid acc s :
  valid_str s -> valid_str (snd (scan_digits acc s)).
Proof.
  intros Hs. revert acc. induction Hs as [|c s Hc Hs IH]; intros acc.
  - constructor.
  - cbn [scan_digits]. destruct (is_digit c); [apply IH|].
    cbn [snd]. now constructor.
Qed.

Lemma match_number_valid s v rest :
  valid_str s -> match_number s = Ok (v, rest) ->
  well_formed v /\ valid_str rest.
Proof.
  intros Hs. unfold match_number.
  set (p := match s with
            | [] => (false, s)
            | c :: s' => if c =? 45 then (true, s') else (false, s)
            end).
  assert (Hp : valid_str (snd p)).
  { subst p. destruct s as [|c s']; [exact Hs|].
    destruct (c =? 45); [now apply Forall_inv_tail in Hs|exact Hs]. }
  destruct p as [neg s1]. cbn [snd] in Hp.
  destruct (match_integer s1) as [[n rest']|] eqn:Em; [|discriminate].
  destruct (float_follows rest'); [discriminate|].
  intros [= <- <-]. split; [exact I|].
  unfold match_integer in Em. destruct s1 as [|c s']; [discriminate|].
  destruct (c =? 48).
  - injection Em as <- <-. now apply Forall_inv_tail in Hp.
  - destruct (is_digit c); [|discriminate].
    pose proof (scan_digits_valid 0 (c :: s') Hp) as Hd.
    match goal with
    | |- valid_str ?r =>
        assert (E : scan_digits 0 (c :: s') = (n, r)) by congruence
    end.
    rewrite E in Hd. exact Hd.
Qed.

(** ** dict(pairs) *)

Lemma dict_set_keys d k v :
  map fst (dict_set d k v) =
  if in_dec (list_eq_dec Z.eq_dec) k (map fst d)
  then map fst d else map fst d ++ [k].
Proof.
  induction d as [|[k' v'] d IH]; [reflexivity|].
  cbn [dict_set map fst].
  destruct (list_eq_dec Z.eq_dec k k') as [->|Hne].
  - cbn [map fst].
    destruct (in_dec (list_eq_dec Z.eq_dec) k' (k' :: map fst d)) as [_|N];
      [reflexivity|]. exfalso. apply N. now left.
  - cbn [map fst]. rewrite IH.
    destruct (in_dec (list_eq_dec Z.eq_dec) k (map fst d)) as [Hin|Hout];
      destruct (in_dec (list_eq_dec Z.eq_dec) k (k' :: map fst d)) as [Hin'|Hout'];
      try reflexivity.
    + exfalso. apply Hout'. now right.
    + exfalso. destruct Hin' as [E|Hin']; [congruence|contradiction].
Qed.

Lemma dict_set_nodup d k v :
  NoDup (map fst d) -> NoDup (map fst (dict_set d k v)).
Proof.
  intros H. rewrite dict_set_keys.
  destruct (in_dec (list_eq_dec Z.eq_dec) k (map fst d)) as [Hin|Hout];
    [exact H|].
  apply NoDup_app; [exact H|repeat constructor; intros []|].
  intros x Hx [<-|[]]. contradiction.
Qed.

Lemma dict_set_all (Q : pystr * value -> Prop) d k v :
  (forall k' v', Q (k', v') -> Q (k', v)) ->
  Forall Q d -> Q (k, v) -> Forall Q (dict_set d k v).
Proof.
  intros Hrepl Hd Hkv. induction Hd as [|[k' v'] d Hq Hd IH].
  - repeat constructor. exact Hkv.
  - cbn [dict_set]. destruct (list_eq_dec Z.eq_dec k k') as [->|Hne].
    + constructor; [exact Hkv|exact Hd].
    + constructor; [exact Hq|exact IH].
Qed.

Lemma dict_of_pairs_well_formed pairs :
  Forall sound_member pairs -> well_formed (JDict (dict_of_pairs pairs)).
Proof.
  intros H. apply well_formed_dict. unfold dict_of_pairs.
  assert (G : forall acc,
            NoDup (map fst acc) /\ Forall sound_member acc ->
            NoDup (map fst (fold_left (fun d kv => dict_set d (fst kv) (snd kv))
                                      pairs acc)) /\
            Forall sound_member
              (fold_left (fun d kv => dict_set d (fst kv) (snd kv)) pairs acc)).
  { induction H as [|[k v] pairs Hkv _ IH]; intros acc [Hn Ha]; [now split|].
    cbn [fold_left fst snd]. apply IH. split.
    - now apply dict_set_nodup.
    - apply dict_set_all; [|exact Ha|exact Hkv].
      intros k' v' [Hk _]. split; [exact Hk|apply Hkv]. }
  apply (G []). split; constructor.
Qed.

(** ** Containers *)

Section Loops.
Variable scan : pystr -> result (value * pystr).
Hypothesis scan_sound : sound scan.

Lemma array_items_valid n :
  forall s items rest, valid_str s ->
    array_items scan n s = Ok (items, rest) ->
    Forall well_formed items /\ valid_str rest.
Proof.
  induction n as [|n IH]; intros s items rest Hs; [discriminate|].
  cbn [array_items].
  destruct (scan s) as [[v s0]|e] eqn:Ev; [|discriminate].
  destruct (scan_sound s v s0 Hs Ev) as [Hv Hs0].
  cbn [bind fst snd].
  pose proof (skip_ws_valid s0 Hs0) as Hw.
  destruct (skip_ws s0) as [|c s1]; [discriminate|].
  apply Forall_inv_tail in Hw.
  destruct (c =? 93).
  { intros [= <- <-]. split; [repeat constructor; exact Hv|exact Hw]. }
  destruct (c =? 44); [|discriminate].
  destruct (array_items scan n (skip_ws s1)) as [[vs s2]|e] eqn:Er;
    [|discriminate].
  cbn [bind fst snd]. intros [= <- <-].
  destruct (IH _ _ _ (skip_ws_valid s1 Hw) Er) as [A B].
  split; [now constructor|exact B].
Qed.

Lemma JSONArray_valid s v rest :
  valid_str s -> JSONArray scan s = Ok (v, rest) ->
  well_formed v /\ valid_str rest.
Proof.
  intros Hs. unfold JSONArray.
  pose proof (skip_ws_valid s Hs) as Hw.
  destruct (skip_ws s) as [|c s1] eqn:E; [discriminate|].
  destruct (c =? 93).
  { intros [= <- <-]. split; [exact I|now apply Forall_inv_tail in Hw]. }
  destruct (array_items scan (length s) (c :: s1)) as [[vs s2]|e] eqn:Er;
    [|discriminate].
  cbn [bind fst snd]. intros [= <- <-].
  destruct (array_items_valid _ _ _ _ Hw Er) as [A B].
  split; [now apply well_formed_list|exact B].
Qed.

Lemma object_pairs_valid n :
  forall s pairs rest, valid_str s ->
    object_pairs scan n s = Ok (pairs, rest) ->
    Forall sound_member pairs /\ valid_str rest.
Proof.
  induction n as [|n IH]; intros s pairs rest Hs; [discriminate|].
  cbn [object_pairs].
  destruct (scanstring s) as [[k s0]|e] eqn:Ek; [|discriminate].
  destruct (scanstring_valid _ s (Nat.le_refl _) Hs _ _ Ek) as [Hk Hs0].
  cbn [bind fst snd].
  pose proof (skip_ws_valid s0 Hs0) as Hw.
  destruct (skip_ws s0) as [|c s1]; [discriminate|].
  apply Forall_inv_tail in Hw.
  destruct (c =? 58); [|discriminate].
  destruct (scan (skip_ws s1)) as [[v s2]|e] eqn:Ev; [|discriminate].
  destruct (scan_sound _ v s2 (skip_ws_valid s1 Hw) Ev) as [Hv Hs2].
  cbn [bind fst snd].
  pose proof (skip_ws_valid s2 Hs2) as Hw2.
  destruct (skip_ws s2) as [|d s3]; [discriminate|].
  apply Forall_inv_tail in Hw2.
  destruct (d =? 125).
  { intros [= <- <-]. split; [|exact Hw2].
    repeat constructor; assumption. }
  destruct (d =? 44); [|discriminate].
  pose proof (skip_ws_valid s3 Hw2) as Hw3.
  destruct (skip_ws s3) as [|q s4]; [discriminate|].
  apply Forall_inv_tail in Hw3.
  destruct (q =? 34); [|discriminate].
  destruct (object_pairs scan n s4) as [[ps s5]|e] eqn:Er; [|discriminate].
  cbn [bind fst snd]. intros [= <- <-].
  destruct (IH _ _ _ Hw3 Er) as [A B].
  split; [|exact B]. constructor; [now split|exact A].
Qed.

Lemma JSONObject_valid s v rest :
  valid_str s -> JSONObject scan s = Ok (v, rest) ->
  well_formed v /\ valid_str rest.
Proof.
  intros Hs. unfold JSONObject.
  pose proof (skip_ws_valid s Hs) as Hw.
  destruct (skip_ws s) as [|c s1] eqn:E; [discriminate|].
  apply Forall_inv_tail in Hw.
  destruct (c =? 125).
  { intros [= <- <-]. split; [|exact Hw]. cbn. split; constructor. }
  destruct (c =? 34); [|discriminate].
  destruct (object_pairs scan (length s) s1) as [[ps s2]|e] eqn:Er;
    [|discriminate].
  cbn [bind fst snd]. intros [= <- <-].
  destruct (object_pairs_valid _ _ _ _ Hw Er) as [A B].
  split; [now apply dict_of_pairs_well_formed|exact B].
Qed.

End Loops.

Lemma constant_valid text c s v rest :
  valid_str s -> constant text c s = Ok (v, rest) ->
  v = c /\ valid_str rest.
Proof.
  intros Hs. unfold constant.
  destruct (strip_prefix text s) as [r|] eqn:E; [|discriminate].
  intros [= <- <-]. split; [reflexivity|].
  exact (strip_prefix_valid _ _ _ E Hs).
Qed.

Lemma scan_once_sound d : sound (scan_once d).
Proof.
  induction d as [|d IH]; intros s v rest Hs; [discriminate|].
  cbn [scan_once]. destruct s as [|c s1]; [discriminate|].
  pose proof (Forall_inv_tail Hs) as Hs1.
  destruct (c =? 34).
  { destruct (scanstring s1) as [[r s2]|e] eqn:E; [|discriminate].
    cbn [bind fst snd]. intros [= <- <-].
    exact (scanstring_valid _ s1 (Nat.le_refl _) Hs1 _ _ E). }
  destruct (c =? 123); [now apply JSONObject_valid|].
  destruct (c =? 91); [now apply JSONArray_valid|].
  destruct (c =? 110).
  { intros H. apply constant_valid in H; [|exact Hs].
    destruct H as [-> H]. now split. }
  destruct (c =? 116).
  { intros H. apply constant_valid in H; [|exact Hs].
    destruct H as [-> H]. now split. }
  destruct (c =? 102).
  { intros H. apply constant_valid in H; [|exact Hs].
    destruct H as [-> H]. now split. }
  destruct (is_some (strip_prefix NaN_text (c :: s1))
            || is_some (strip_prefix Infinity_text (c :: s1))
            || is_some (strip_prefix neg_Infinity_text (c :: s1)));
    [discriminate|].
  now apply match_number_valid.
Qed.

(** Whatever [json.loads] returns for a Python string is a value that
    [json.dumps] can write and [json.loads] reads back: its strings are
    strings and the keys of each of its dictionaries differ. *)
Lemma loads_well_formed text v :
  valid_str text -> loads text = Ok v -> well_formed v.
Proof.
  intros Hs. unfold loads.
  destruct (scan_once (S (length text)) (skip_ws text)) as [[r rest]|e] eqn:E;
    [|discriminate].
  cbn [bind fst snd].
  destruct (skip_ws rest); [|discriminate].
  intros [= <-].
  exact (proj1 (scan_once_sound _ _ _ _ (skip_ws_valid text Hs) E)).
Qed.


End LoadsFacts.

(* ================================================================== *)
(** * The command line *)

Section CliRuns.
Import Json JsonSpec Sqlite Logger Spec Limits Samples Cli CliSpec CliSamples.
Import JsonFacts AppendFacts SqliteFacts LikeFacts RoundTrip LoadsFacts.



















(** ** parse *)

Lemma runs_valid cls s toks :
  Parser.runs cls s toks -> valid_str s -> Forall valid_str toks.
Proof.
  induction 1 as [gap Hgap|gap tok rest toks Hgap Hne Htok Hhead Hruns IH];
    intros Hs; [constructor|].
  apply Forall_app in Hs. destruct Hs as [_ Hs].
  apply Forall_app in Hs. destruct Hs as [Ht Hr].
  constructor; [exact Ht|exact (IH Hr)].
Qed.

Lemma parse_well_formed lang text :
  valid_str lang -> valid_str text -> well_formed (Parser.parse lang text).
Proof.
  intros Hl Ht. unfold Parser.parse. apply well_formed_dict. split.
  - cbn [map fst].
    repeat constructor; cbn; intuition discriminate.
  - constructor; [|constructor; [|constructor; [|constructor]]];
      (split; cbn [fst snd]; [apply valid_str_closed; reflexivity|]).
    + exact Hl.
    + apply well_formed_list. apply Forall_map.
      exact (runs_valid _ _ _
               (ParserFacts.runs_findall (Parser.class_of lang) text) Ht).
    + exact I.
Qed.

(** X20: the [parse] command prints JSON.  For Python strings as
    arguments and a database that opens, [parse] prints one line that
    [json.loads] reads back to the dictionary [Parser.parse] returned,
    with the language (ja when [--lang] is not given), the tokens and
    their number; the two files are left as they are. *)
Theorem X20_parse_prints_what_loads_reads_back
  (w : env) (lang : option pystr) (text : pystr) (st : store)
  (Hlang : valid_str (or_default default_lang lang))
  (Htext : valid_str text) :
  exists printed,
    main None w (Parse lang text) st = (Ok (Printed printed), st) /\
    loads printed =
      Ok (JDict [ (Parser.key_lang, JStr (or_default default_lang lang));
                  (Parser.key_tokens,
                   JList (map JStr (Parser.tokens_of
                                      (or_default default_lang lang) text)));
                  (Parser.key_len,
                   JInt (Z.of_nat (length (Parser.tokens_of
                                      (or_default default_lang lang) text)))) ]).
Proof.
  eexists. split; [reflexivity|].
  apply (loads_dumps (Parser.parse (or_default default_lang lang) text)).
  now apply parse_well_formed.
Qed.

Lemma X20_witness :
  exists printed,
    main None quiet_world (Parse None (lit "abc")) empty =
      (Ok (Printed printed), empty) /\
    loads printed =
      Ok (JDict [ (Parser.key_lang, JStr (lit "ja"));
                  (Parser.key_tokens, JList []);
                  (Parser.key_len, JInt 0) ]).
Proof.
  apply (X20_parse_prints_what_loads_reads_back quiet_world None (lit "abc") empty);
    apply valid_str_closed; reflexivity.
Defined.

(** ** stats *)







End CliRuns.

(* ================================================================== *)
(** * Reading back an indented document *)

Module IndentFacts.
Import Json JsonSpec Sqlite Logger Spec Cli CliSpec IndentSpec.
Import JsonFacts RoundTrip.

Lemma follows_not_digit rest : follows rest -> head_is is_digit rest = false.
Proof.
  destruct rest as [|c rest]; [reflexivity|]. intros [-> | ->]; reflexivity.
Qed.

Lemma follows_not_float rest : follows rest -> float_follows rest = false.
Proof.
  destruct rest as [|c rest]; [reflexivity|]. intros [-> | ->]; reflexivity.
Qed.

Lemma match_integer_digits_open n rest :
  0 <= n -> head_is is_digit rest = false ->
  match_integer (digits n ++ rest) = Some (n, rest).
Proof.
  intros Hn Hrest. destruct (Z.eq_dec n 0) as [->|Hz]; [reflexivity|].
  unfold digits.
  destruct (digits_from_head (S (Z.to_nat (Z.log2 n))) n [])
    as (d & tl & E & Hd); [split; [lia|now apply digits_fuel]|].
  pose proof (digits_from_all_digits (S (Z.to_nat (Z.log2 n))) n []
                (Forall_nil _)) as Hall.
  pose proof (digits_value n Hn) as Hval. unfold digits in Hval.
  rewrite E in *. cbn [app]. unfold match_integer.
  destruct (d =? 48) eqn:E48; [apply Z.eqb_eq in E48; lia|].
  pose proof (Forall_inv Hall) as Hd1. cbv beta in Hd1. rewrite Hd1.
  change (d :: tl ++ rest) with ((d :: tl) ++ rest).
  rewrite scan_digits_app; [|exact Hall|exact Hrest].
  now rewrite Hval.
Qed.

Lemma match_number_int_repr_open n rest :
  head_is is_digit rest = false -> float_follows rest = false ->
  match_number (int_repr n ++ rest) = Ok (JInt n, rest).
Proof.
  intros Hdig Hfl. unfold int_repr, match_number.
  destruct (n <? 0) eqn:E.
  - apply Z.ltb_lt in E. cbn [app]. change (45 =? 45) with true. cbv iota.
    rewrite match_integer_digits_open by (lia || exact Hdig).
    rewrite Hfl. now rewrite Z.opp_involutive.
  - apply Z.ltb_ge in E.
    destruct (digits_head_digit n E) as (d & tl & Hd & Hr).
    assert (Hmi := match_integer_digits_open n rest E Hdig).
    rewrite Hd in *. cbn [app] in *.
    destruct (d =? 45) eqn:E45; [apply Z.eqb_eq in E45; lia|].
    rewrite Hmi. now rewrite Hfl.
Qed.

Lemma scan_once_int_open d n rest :
  follows rest -> scan_once (S d) (int_repr n ++ rest) = Ok (JInt n, rest).
Proof.
  intros Hrest.
  rewrite <- (match_number_int_repr_open n rest
                (follows_not_digit rest Hrest) (follows_not_float rest Hrest)).
  unfold int_repr. destruct (n <? 0) eqn:E.
  - apply Z.ltb_lt in E.
    destruct (digits_head_digit (- n)) as (c & tl & Hd & Hr); [lia|].
    rewrite Hd. cbn [app]. now apply scan_once_minus.
  - apply Z.ltb_ge in E.
    destruct (digits_head_digit n E) as (c & tl & Hd & Hr).
    rewrite Hd. cbn [app]. now apply scan_once_digit.
Qed.

(** ** White space *)

Lemma skip_ws_spaces k s : skip_ws (repeat 32 k ++ s) = skip_ws s.
Proof. induction k as [|k IH]; [reflexivity|exact IH]. Qed.

Lemma skip_ws_newline_indent level s :
  skip_ws (newline_indent level ++ s) = skip_ws s.
Proof. unfold newline_indent. cbn [app skip_ws is_ws]. apply skip_ws_spaces. Qed.

Lemma dumps_indent_value_start level v : value_start (dumps_indent level v).
Proof.
  destruct v as [| b | n | s | items | members];
    try apply (dumps_value_start false).
  - destruct items; eexists 91, _; repeat split; discriminate.
  - destruct members; eexists 123, _; repeat split; discriminate.
Qed.

Lemma member_indent_value_start level kv :
  value_start (member_indent level kv).
Proof.
  unfold member_indent, encode_basestring. eexists 34, _.
  cbn [app]. repeat split; discriminate.
Qed.

Lemma map_member_indent level members :
  map (fun kv : pystr * value =>
         let (k, x) := kv in
         encode_basestring false k ++ key_separator ++ dumps_indent level x)
      members =
  map (member_indent level) members.
Proof. apply map_ext. now intros [k x]. Qed.

(** ** Containers *)

Section Loops.
Variable scan : pystr -> result (value * pystr).

Lemma array_items_indent level items rest n :
  items <> [] -> (length items <= n)%nat ->
  Forall (reads_indented scan) items ->
  array_items scan n
    (join (44 :: newline_indent (S level))
          (map (dumps_indent (S level)) items) ++
     newline_indent level ++ 93 :: rest) =
  Ok (items, rest).
Proof.
  intros Hne Hn Hall. revert n Hn.
  induction Hall as [|v items Hv Hitems IH]; [contradiction|].
  intros [|n] Hn; [cbn in Hn; lia|].
  destruct items as [|v2 items].
  - cbn [map join array_items].
    rewrite (Hv (S level) (newline_indent level ++ 93 :: rest))
      by (right; reflexivity).
    cbn [bind fst snd]. rewrite skip_ws_newline_indent.
    rewrite skip_ws_delimiter by auto. reflexivity.
  - cbn [map]. rewrite join_cons2. rewrite <- !app_assoc.
    cbn [array_items].
    change ((44 :: newline_indent (S level)) ++ ?x)
      with (44 :: newline_indent (S level) ++ x).
    rewrite (Hv (S level) (44 :: _)) by now left.
    cbn [bind fst snd]. rewrite skip_ws_delimiter by auto.
    change (44 =? 93) with false. change (44 =? 44) with true. cbv iota.
    rewrite skip_ws_newline_indent, skip_ws_value_start.
    2:{ apply value_start_app.
        apply (join_value_start _ (dumps_indent (S level) v2)),
          dumps_indent_value_start. }
    change (dumps_indent (S level) v2 :: map (dumps_indent (S level)) items)
      with (map (dumps_indent (S level)) (v2 :: items)).
    rewrite IH; [reflexivity|discriminate|cbn [length] in *; lia].
Qed.

Lemma object_pairs_indent level members rest n :
  members <> [] -> (length members <= n)%nat ->
  Forall (fun kv => valid_str (fst kv) /\ reads_indented scan (snd kv))
         members ->
  exists body,
    join (44 :: newline_indent (S level))
         (map (member_indent (S level)) members) ++
    newline_indent level ++ 125 :: rest = 34 :: body /\
    object_pairs scan n body = Ok (members, rest).
Proof.
  intros Hne Hn Hall. revert n Hn.
  induction Hall as [|[k v] members [Hk Hv] Hmembers IH]; [contradiction|].
  intros [|n] Hn; [cbn in Hn; lia|].
  cbn [fst snd] in Hk, Hv.
  destruct members as [|kv2 members].
  - cbn [map join]. unfold member_indent at 1. cbn [fst snd].
    rewrite <- !app_assoc, encode_basestring_app.
    eexists. split; [reflexivity|].
    cbn [object_pairs].
    rewrite scanstring_escaped by now apply valid_str_nonneg.
    cbn [bind fst snd].
    change (key_separator ++ ?x) with (58 :: 32 :: x).
    rewrite skip_ws_delimiter by auto.
    change (58 =? 58) with true. cbv iota.
    rewrite skip_ws_space, skip_ws_value_start
      by (apply value_start_app, dumps_indent_value_start).
    rewrite (Hv (S level) (newline_indent level ++ 125 :: rest))
      by (right; reflexivity).
    cbn [bind fst snd]. rewrite skip_ws_newline_indent.
    rewrite skip_ws_delimiter by auto. reflexivity.
  - destruct (IH ltac:(discriminate) n ltac:(cbn [length] in *; lia))
      as (body2 & Hbody2 & Hpairs2).
    cbn [map]. rewrite join_cons2. unfold member_indent at 1. cbn [fst snd].
    rewrite <- !app_assoc, encode_basestring_app.
    eexists. split; [reflexivity|].
    cbn [object_pairs].
    rewrite scanstring_escaped by now apply valid_str_nonneg.
    cbn [bind fst snd].
    change (key_separator ++ ?x) with (58 :: 32 :: x).
    rewrite skip_ws_delimiter by auto.
    change (58 =? 58) with true. cbv iota.
    rewrite skip_ws_space, skip_ws_value_start
      by (apply value_start_app, dumps_indent_value_start).
    change ((44 :: newline_indent (S level)) ++ ?x)
      with (44 :: newline_indent (S level) ++ x).
    rewrite (Hv (S level) (44 :: _)) by now left.
    cbn [bind fst snd]. rewrite skip_ws_delimiter by auto.
    change (44 =? 125) with false. change (44 =? 44) with true. cbv iota.
    rewrite skip_ws_newline_indent.
    change (member_indent (S level) kv2 :: map (member_indent (S level)) members)
      with (map (member_indent (S level)) (kv2 :: members)).
    rewrite Hbody2. cbn [skip_ws].
    change (is_ws 34) with false. cbv iota.
    change (34 =? 34) with true. cbv iota.
    rewrite Hpairs2. reflexivity.
Qed.

End Loops.

Lemma JSONArray_indented scan level s :
  value_start s ->
  JSONArray scan (newline_indent level ++ s) =
  let* r := array_items scan (length (newline_indent level ++ s)) s in
  Ok (JList (fst r), snd r).
Proof.
  intros H. unfold JSONArray.
  rewrite skip_ws_newline_indent, (skip_ws_value_start s H).
  destruct H as (c & t & -> & _ & _ & H93 & _).
  apply Z.eqb_neq in H93. now rewrite H93.
Qed.

Lemma JSONObject_indented scan level body :
  JSONObject scan (newline_indent level ++ 34 :: body) =
  let* r := object_pairs scan
              (length (newline_indent level ++ 34 :: body)) body in
  Ok (JDict (dict_of_pairs (fst r)), snd r).
Proof.
  unfold JSONObject. rewrite skip_ws_newline_indent. reflexivity.
Qed.

(** [scan_once] reads back an indented value and stops after it. *)
Lemma scan_once_indent v :
  well_formed v ->
  forall d, (depth v < d)%nat -> reads_indented (scan_once d) v.
Proof.
  induction v as [| b | n | s | items IH | members IH] using value_ind;
    intros Hwf [|d] Hd level rest Hrest; try (cbn in Hd; lia).
  - reflexivity.
  - destruct b; reflexivity.
  - now apply scan_once_int_open.
  - cbn [dumps_indent dumps]. rewrite encode_basestring_app. cbn [scan_once].
    change (34 =? 34) with true. cbv iota.
    rewrite scanstring_escaped by (apply valid_str_nonneg, Hwf).
    reflexivity.
  - apply well_formed_list in Hwf.
    destruct items as [|v items]; [reflexivity|].
    cbn [dumps_indent]. rewrite <- !app_assoc. cbn [app scan_once].
    change (91 =? 34) with false. change (91 =? 123) with false.
    change (91 =? 91) with true. cbv iota.
    set (body := join (44 :: newline_indent (S level))
                      (map (dumps_indent (S level)) (v :: items))).
    assert (Hstart : value_start (body ++ newline_indent level ++ 93 :: rest)).
    { apply value_start_app. subst body. cbn [map].
      apply join_value_start, dumps_indent_value_start. }
    change (10 :: repeat 32 (2 * S level) ++ ?x)
      with (newline_indent (S level) ++ x).
    rewrite JSONArray_indented by exact Hstart.
    subst body. rewrite array_items_indent; [reflexivity|discriminate| |].
    + rewrite !length_app.
      rewrite <- (length_map (dumps_indent (S level)) (v :: items)).
      assert (L : (length (map (dumps_indent (S level)) (v :: items)) <=
                   length (join (44%Z :: newline_indent (S level))
                             (map (dumps_indent (S level)) (v :: items))))%nat).
      { apply join_length. apply Forall_map, Forall_forall. intros x _.
        apply value_start_nonempty, dumps_indent_value_start. }
      unfold pystr in *. lia.
    + pose proof (depth_items (v :: items)) as Hdep.
      rewrite Forall_forall in IH, Hwf, Hdep. apply Forall_forall.
      intros x Hx. apply IH; auto. specialize (Hdep x Hx). lia.
  - apply well_formed_dict in Hwf. destruct Hwf as [Hnodup Hwf].
    destruct members as [|kv members]; [reflexivity|].
    cbn [dumps_indent]. rewrite map_member_indent. rewrite <- !app_assoc.
    cbn [app scan_once].
    change (123 =? 34) with false. change (123 =? 123) with true. cbv iota.
    set (body := join (44 :: newline_indent (S level))
                      (map (member_indent (S level)) (kv :: members))).
    destruct (object_pairs_indent (scan_once d) level (kv :: members) rest
                (length (newline_indent (S level) ++ body ++
                         newline_indent level ++ 125 :: rest)))
      as (body' & Hbody & Hpairs); [discriminate| | |].
    + rewrite !length_app.
      rewrite <- (length_map (member_indent (S level)) (kv :: members)).
      assert (L : (length (map (member_indent (S level)) (kv :: members)) <=
                   length body)%nat).
      { apply join_length. apply Forall_map, Forall_forall. intros x _.
        apply value_start_nonempty, member_indent_value_start. }
      unfold pystr in *. lia.
    + pose proof (depth_members (kv :: members)) as Hdep.
      rewrite Forall_forall in IH, Hwf, Hdep. apply Forall_forall.
      intros x Hx. destruct (Hwf x Hx) as [Hk Hv]. split; [exact Hk|].
      apply IH; auto. specialize (Hdep x Hx). lia.
    + fold body in Hbody.
      change (10 :: repeat 32 (2 * S level) ++ ?x)
        with (newline_indent (S level) ++ x).
      revert Hpairs. rewrite Hbody. intros Hpairs.
      rewrite JSONObject_indented. rewrite Hpairs. cbn [bind fst snd].
      now rewrite dict_of_pairs_nodup.
Qed.

Lemma depth_le_indented v :
  forall level, (depth v <= length (dumps_indent level v))%nat.
Proof.
  induction v as [| b | n | s | items IH | members IH] using value_ind;
    intros level; try (cbn [depth]; lia).
  - destruct items as [|v items]; [cbn; lia|].
    cbn [depth dumps_indent]. rewrite !length_app. cbn [length].
    assert (H : (fold_right (fun x m => Nat.max (depth x) m) 0 (v :: items) <=
                 length (join (44%Z :: newline_indent (S level))
                           (map (dumps_indent (S level)) (v :: items))))%nat).
    { induction IH as [|x xs Hx Hxs IHxs]; [cbn; lia|].
      cbn [fold_right map]. apply Nat.max_lub.
      - etransitivity; [apply (Hx (S level))|].
        apply join_part_length. now left.
      - etransitivity; [exact IHxs|].
        destruct xs as [|x2 xs]; [cbn; lia|].
        cbn [map]. rewrite join_cons2, !length_app. lia. }
    unfold pystr in *. lia.
  - destruct members as [|kv members]; [cbn; lia|].
    cbn [depth dumps_indent]. rewrite map_member_indent, !length_app.
    cbn [length].
    assert (H : (fold_right (fun kv m => Nat.max (depth (snd kv)) m) 0
                   (kv :: members) <=
                 length (join (44%Z :: newline_indent (S level))
                           (map (member_indent (S level)) (kv :: members))))%nat).
    { induction IH as [|x xs Hx Hxs IHxs]; [cbn; lia|].
      cbn [fold_right map]. apply Nat.max_lub.
      - etransitivity; [apply (Hx (S level))|].
        etransitivity;
          [|apply (join_part_length _ _ (member_indent (S level) x)); now left].
        unfold member_indent. rewrite !length_app. lia.
      - etransitivity; [exact IHxs|].
        destruct xs as [|x2 xs]; [cbn; lia|].
        cbn [map]. rewrite join_cons2, !length_app. lia. }
    unfold pystr in *. lia.
Qed.

(** [json.loads(json.dumps(v, ensure_ascii=False, indent=2))] is [v]. *)
Lemma loads_dumps_indent v :
  well_formed v -> loads (dumps_indent 0 v) = Ok v.
Proof.
  intros Hwf. unfold loads.
  rewrite skip_ws_value_start by apply dumps_indent_value_start.
  pose proof (scan_once_indent v Hwf (S (length (dumps_indent 0 v)))) as H.
  specialize (H ltac:(pose proof (depth_le_indented v 0); lia) 0%nat [] I).
  rewrite app_nil_r in H. rewrite H. reflexivity.
Qed.

End IndentFacts.

(* ================================================================== *)
(** * The listings of tail and search *)

Section Listings.
Import Json JsonSpec Sqlite Logger Spec Samples Cli CliSpec CliSamples IndentSpec.
Import JsonFacts AppendFacts SqliteFacts RoundTrip IndentFacts.

Lemma ascii_only_valid s : ascii_only s -> valid_str s.
Proof. apply Forall_impl. intros; lia. Qed.

(** The rows of a store written by [append]. *)
Lemma reachable_rows_sound st :
  reachable st ->
  Forall (fun r => valid_str (sha r) /\ valid_str (source r) /\
                   exists p, well_formed p /\ payload r = dumps false p)
         (index st).
Proof.
  induction 1 as [|st w src p Hst IH Hwf Hsrc]; [constructor|].
  pose proof (append_cases w src p st) as C.
  inversion C; cbn [index]; try exact IH.
  apply Forall_app. split; [exact IH|].
  constructor; [|constructor]. cbn [row_of sha source payload].
  split; [apply ascii_only_valid, hexdigest_ascii|].
  split; [exact Hsrc|]. exists p. split; [exact Hwf|reflexivity].
Qed.

Lemma mapM_sound rows entries :
  Forall (fun r => valid_str (sha r) /\ valid_str (source r) /\
                   exists p, well_formed p /\ payload r = dumps false p) rows ->
  mapM decode_row rows = Ok entries -> Forall entry_sound entries.
Proof.
  intros Hrows. revert entries.
  induction Hrows as [|r rows (Hsha & Hsrc & p & Hwf & Hp) _ IH];
    intros entries H.
  - cbn in H. injection H as <-. constructor.
  - cbn [mapM] in H. unfold decode_row in H at 1.
    rewrite Hp, (loads_dumps p Hwf) in H. cbn [bind] in H.
    destruct (mapM decode_row rows) as [es|e]; [|discriminate].
    cbn [bind] in H. injection H as <-.
    constructor; [|now apply IH].
    unfold entry_sound. cbn. auto.
Qed.

Lemma select_sound (P : row -> Prop) p n t :
  Forall P t -> Forall P (select p n t).
Proof.
  intros H. apply Forall_forall. intros r Hr.
  apply select_In in Hr. rewrite Forall_forall in H. now apply H.
Qed.

Lemma tail_sound io n st entries :
  reachable st -> tail io n st = Ok entries -> Forall entry_sound entries.
Proof.
  intros Hst. unfold tail. destruct io; [discriminate|].
  destruct (bind_int n) as [n'|]; [|discriminate]. cbn [bind].
  apply mapM_sound, select_sound, reachable_rows_sound, Hst.
Qed.

Lemma search_sound io term limit st entries :
  reachable st -> search io term limit st = Ok entries ->
  Forall entry_sound entries.
Proof.
  intros Hst. unfold search. destruct io; [discriminate|].
  destruct (bind_text _) as [pat|]; [|discriminate]. cbn [bind].
  destruct (bind_int limit) as [n'|]; [|discriminate]. cbn [bind].
  apply mapM_sound, select_sound, reachable_rows_sound, Hst.
Qed.

Lemma entry_dict_well_formed e : entry_sound e -> well_formed (entry_dict e).
Proof.
  intros (Hsha & Hsrc & Hp). unfold entry_dict, rec.
  apply well_formed_dict. split.
  - cbn [map fst]. repeat constructor; cbn; intuition discriminate.
  - constructor; [|constructor; [|constructor; [|constructor; [|constructor]]]];
      (split; cbn [fst snd]; [apply valid_str_closed; reflexivity|]);
      assumption || exact I.
Qed.

(** A listing is a JSON document of the entries it was made from. *)
Lemma listing_reads_back entries :
  Forall entry_sound entries ->
  loads (listing entries) = Ok (JList (map entry_dict entries)).
Proof.
  intros H. apply loads_dumps_indent. apply well_formed_list, Forall_map.
  revert H. apply Forall_impl. exact entry_dict_well_formed.
Qed.

(** X22: [tail] and [search] print JSON.  On files written by [append],
    what the [tail] command prints is a document that [json.loads] reads
    back to the list of the entries [Logger.tail] returned, each a
    dictionary with the members ts, sha, source and payload in this
    order; the same for [search] with the entries of [Logger.search]
    for the term and the limit 10.  No payload, source or fingerprint
    breaks the document. *)
Theorem X22_listings_are_json_of_the_entries
  (w : env) (st st' : store) (printed : pystr) (Hst : reachable st) :
  (forall n,
     main None w (Tail n) st = (Ok (Printed printed), st') ->
     exists entries,
       tail (db_io w) (or_default default_n n) st = Ok entries /\
       loads printed = Ok (JList (map entry_dict entries))) /\
  (forall term,
     main None w (Search term) st = (Ok (Printed printed), st') ->
     exists entries,
       search (db_io w) term default_limit st = Ok entries /\
       loads printed = Ok (JList (map entry_dict entries))).
Proof.
  split.
  - intros n. unfold main, and_then, ensure_db, query, ret.
    destruct (tail (db_io w) (or_default default_n n) st) as [entries|e] eqn:E;
      [|discriminate].
    intros [= <- <-]. exists entries. split; [reflexivity|].
    apply listing_reads_back. exact (tail_sound _ _ _ _ Hst E).
  - intros term. unfold main, and_then, ensure_db, query, ret.
    destruct (search (db_io w) term default_limit st) as [entries|e] eqn:E;
      [|discriminate].
    intros [= <- <-]. exists entries. split; [reflexivity|].
    apply listing_reads_back. exact (search_sound _ _ _ _ _ Hst E).
Qed.

Lemma one_record_listing :
  main None quiet_world (Tail None) one_record_store =
  (Ok (Printed (listing [Entry 1700000000 (fingerprint sample_payload)
                           (lit "test") sample_payload])),
   one_record_store).
Proof. vm_compute. reflexivity. Qed.

Lemma reachable_one_record_store : reachable one_record_store.
Proof.
  apply (reach_append empty quiet_world (lit "test") sample_payload).
  - constructor.
  - apply (LoadsFacts.loads_well_formed sample_text).
    + apply valid_str_closed. vm_compute. reflexivity.
    + vm_compute. reflexivity.
  - apply valid_str_closed. reflexivity.
Qed.

Lemma X22_witness :
  exists entries,
    tail None 10 one_record_store = Ok entries /\
    loads (listing [Entry 1700000000 (fingerprint sample_payload)
                      (lit "test") sample_payload]) =
      Ok (JList (map entry_dict entries)).
Proof.
  exact (proj1 (X22_listings_are_json_of_the_entries
                  quiet_world one_record_store one_record_store _
                  reachable_one_record_store) None one_record_listing).
Defined.

End Listings.
